(** * mbyte.c: the multi-byte character core, embedded in Rocq

    A shallow embedding of [src/nvim/mbyte.c]: the UTF-8 codec, the
    composing-character readers, the cell-width function, the encoding
    name canonicalisation and the conversion set-up, followed by the
    properties the specification states about them.

    Conventions of the embedding:
    - a C [int] is a [Z]; the casts the code performs ([(unsigned)c],
      the store of an [int] into a [char_u]) are written out;
    - a byte ([char_u]) is a [Byte.byte]; [byte.unsigned] widens it the
      way C's integer promotion does and [byte.of_Z] is the narrowing
      store (modulo 256);
    - a read-only [char_u *] is the list of the bytes found from the
      pointer onwards; reading beyond the list yields NUL, as behind the
      terminator of a C string; [p + n] drops [n] bytes;
    - output parameters ([buf], [pcc], [*lenp]) are returned next to the
      function result. *)

From Stdlib Require Import ZArith List Lia Bool.
From Stdlib Require Import Strings.String Strings.Ascii.
From coqutil Require Import Byte.
From stdpp Require Import base list.
Import ListNotations.

Local Open Scope Z_scope.

(** ** Bytes and pointers *)

Definition NUL : Z := 0.

(** [p[i]], promoted to [int]. *)
Definition peek (p : list byte) (i : Z) : Z :=
  byte.unsigned (nth (Z.to_nat i) p Byte.x00).

(** [p + i]. *)
Definition ptr_add (p : list byte) (i : Z) : list byte :=
  skipn (Z.to_nat i) p.

(** [(unsigned)c] for a 32-bit [int]. *)
Definition to_unsigned (c : Z) : Z := c mod 2 ^ 32.

Declare Scope mbyte_scope.
Delimit Scope mbyte_scope with mb.
Notation "p .[ i ]" := (peek p i) (at level 1, format "p .[ i ]") : mbyte_scope.
Notation "x >> n" := (Z.shiftr x n) (at level 32, left associativity) : mbyte_scope.
Notation "x << n" := (Z.shiftl x n) (at level 32, left associativity) : mbyte_scope.
Notation "x & y" := (Z.land x y) (at level 38, left associativity) : mbyte_scope.
Local Open Scope mbyte_scope.

(** ** The lead-byte length tables *)

(** [utf8len_tab]: illegal lead bytes and NUL have length 1. *)
Definition utf8len_tab : list Z :=
  [ 1;1;1;1;1;1;1;1;1;1;1;1;1;1;1;1;1;1;1;1;1;1;1;1;1;1;1;1;1;1;1;1;
    1;1;1;1;1;1;1;1;1;1;1;1;1;1;1;1;1;1;1;1;1;1;1;1;1;1;1;1;1;1;1;1;
    1;1;1;1;1;1;1;1;1;1;1;1;1;1;1;1;1;1;1;1;1;1;1;1;1;1;1;1;1;1;1;1;
    1;1;1;1;1;1;1;1;1;1;1;1;1;1;1;1;1;1;1;1;1;1;1;1;1;1;1;1;1;1;1;1;
    1;1;1;1;1;1;1;1;1;1;1;1;1;1;1;1;1;1;1;1;1;1;1;1;1;1;1;1;1;1;1;1;
    1;1;1;1;1;1;1;1;1;1;1;1;1;1;1;1;1;1;1;1;1;1;1;1;1;1;1;1;1;1;1;1;
    2;2;2;2;2;2;2;2;2;2;2;2;2;2;2;2;2;2;2;2;2;2;2;2;2;2;2;2;2;2;2;2;
    3;3;3;3;3;3;3;3;3;3;3;3;3;3;3;3;4;4;4;4;4;4;4;4;5;5;5;5;6;6;1;1 ].

(** [utf8len_tab_zero]: the same, with a zero for illegal lead bytes. *)
Definition utf8len_tab_zero : list Z :=
  [ 1;1;1;1;1;1;1;1;1;1;1;1;1;1;1;1;1;1;1;1;1;1;1;1;1;1;1;1;1;1;1;1;
    1;1;1;1;1;1;1;1;1;1;1;1;1;1;1;1;1;1;1;1;1;1;1;1;1;1;1;1;1;1;1;1;
    1;1;1;1;1;1;1;1;1;1;1;1;1;1;1;1;1;1;1;1;1;1;1;1;1;1;1;1;1;1;1;1;
    1;1;1;1;1;1;1;1;1;1;1;1;1;1;1;1;1;1;1;1;1;1;1;1;1;1;1;1;1;1;1;1;
    0;0;0;0;0;0;0;0;0;0;0;0;0;0;0;0;0;0;0;0;0;0;0;0;0;0;0;0;0;0;0;0;
    0;0;0;0;0;0;0;0;0;0;0;0;0;0;0;0;0;0;0;0;0;0;0;0;0;0;0;0;0;0;0;0;
    2;2;2;2;2;2;2;2;2;2;2;2;2;2;2;2;2;2;2;2;2;2;2;2;2;2;2;2;2;2;2;2;
    3;3;3;3;3;3;3;3;3;3;3;3;3;3;3;3;4;4;4;4;4;4;4;4;5;5;5;5;6;6;0;0 ].

(** [tab[b]] for a byte value [b]. *)
Definition tab_at (tab : list Z) (b : Z) : Z := nth (Z.to_nat b) tab 0.

(** ** The codepoint codec *)

(** [utf_ptr2char]: convert a UTF-8 byte sequence to a wide character; an
    illegal sequence yields its first byte. *)
Definition utf_ptr2char (p : list byte) : Z :=
  if p.[0] <? 0x80 then p.[0]
  else
    let len := tab_at utf8len_tab_zero p.[0] in
    if (len >? 1) && ((p.[1] & 0xc0) =? 0x80) then
      if len =? 2 then
        ((p.[0] & 0x1f) << 6) + (p.[1] & 0x3f)
      else if (p.[2] & 0xc0) =? 0x80 then
        if len =? 3 then
          ((p.[0] & 0x0f) << 12) + ((p.[1] & 0x3f) << 6)
          + (p.[2] & 0x3f)
        else if (p.[3] & 0xc0) =? 0x80 then
          if len =? 4 then
            ((p.[0] & 0x07) << 18) + ((p.[1] & 0x3f) << 12)
            + ((p.[2] & 0x3f) << 6) + (p.[3] & 0x3f)
          else if (p.[4] & 0xc0) =? 0x80 then
            if len =? 5 then
              ((p.[0] & 0x03) << 24) + ((p.[1] & 0x3f) << 18)
              + ((p.[2] & 0x3f) << 12) + ((p.[3] & 0x3f) << 6)
              + (p.[4] & 0x3f)
            else if ((p.[5] & 0xc0) =? 0x80) && (len =? 6) then
              ((p.[0] & 0x01) << 30) + ((p.[1] & 0x3f) << 24)
              + ((p.[2] & 0x3f) << 18) + ((p.[3] & 0x3f) << 12)
              + ((p.[4] & 0x3f) << 6) + (p.[5] & 0x3f)
            else p.[0]
          else p.[0]
        else p.[0]
      else p.[0]
    else p.[0].

(** The scan [for (i = from; i < from + count; ++i) if ((p[i] & 0xc0) != 0x80)
    return 1;] shared by [utf_ptr2len] and [utf_ptr2len_len]: [true] when
    the loop runs to its end, [false] when it returns early. *)
Fixpoint trail_scan (p : list byte) (i : Z) (count : nat) : bool :=
  match count with
  | O => true
  | S count' =>
      if negb ((p.[i] & 0xc0) =? 0x80) then false
      else trail_scan p (i + 1) count'
  end.

(** [utf_ptr2len]: length of a UTF-8 byte sequence, 0 for "" and 1 for an
    illegal byte sequence. *)
Definition utf_ptr2len (p : list byte) : Z :=
  if p.[0] =? NUL then 0
  else
    let len := tab_at utf8len_tab p.[0] in
    if trail_scan p 1 (Z.to_nat (len - 1)) then len else 1.

(** [utf_byte2len]. *)
Definition utf_byte2len (b : Z) : Z := tab_at utf8len_tab b.

(** [utf_ptr2len_len]: as [utf_ptr2len] for the sequence [p[size]]; a
    number above [size] announces an incomplete sequence. *)
Definition utf_ptr2len_len (p : list byte) (size : Z) : Z :=
  let len := tab_at utf8len_tab p.[0] in
  if len =? 1 then 1
  else
    let m := if len >? size then size else len in
    if trail_scan p 1 (Z.to_nat (m - 1)) then len else 1.

(** [utf_char2len]. *)
Definition utf_char2len (c : Z) : Z :=
  if c <? 0x80 then 1
  else if c <? 0x800 then 2
  else if c <? 0x10000 then 3
  else if c <? 0x200000 then 4
  else if c <? 0x4000000 then 5
  else 6.

(** [utf_char2bytes]: the returned length together with the bytes stored
    in [buf[0]], [buf[1]], ... *)
Definition utf_char2bytes (c : Z) : Z * list byte :=
  let u := to_unsigned c in
  if c <? 0x80 then
    (1, [byte.of_Z c])
  else if c <? 0x800 then
    (2, [byte.of_Z (0xc0 + (u >> 6));
         byte.of_Z (0x80 + (c & 0x3f))])
  else if c <? 0x10000 then
    (3, [byte.of_Z (0xe0 + (u >> 12));
         byte.of_Z (0x80 + ((u >> 6) & 0x3f));
         byte.of_Z (0x80 + (c & 0x3f))])
  else if c <? 0x200000 then
    (4, [byte.of_Z (0xf0 + (u >> 18));
         byte.of_Z (0x80 + ((u >> 12) & 0x3f));
         byte.of_Z (0x80 + ((u >> 6) & 0x3f));
         byte.of_Z (0x80 + (c & 0x3f))])
  else if c <? 0x4000000 then
    (5, [byte.of_Z (0xf8 + (u >> 24));
         byte.of_Z (0x80 + ((u >> 18) & 0x3f));
         byte.of_Z (0x80 + ((u >> 12) & 0x3f));
         byte.of_Z (0x80 + ((u >> 6) & 0x3f));
         byte.of_Z (0x80 + (c & 0x3f))])
  else
    (6, [byte.of_Z (0xfc + (u >> 30));
         byte.of_Z (0x80 + ((u >> 24) & 0x3f));
         byte.of_Z (0x80 + ((u >> 18) & 0x3f));
         byte.of_Z (0x80 + ((u >> 12) & 0x3f));
         byte.of_Z (0x80 + ((u >> 6) & 0x3f));
         byte.of_Z (0x80 + (c & 0x3f))]).

(** [utf_safe_read_char_adv]: the cursor [*s] is the offset [s] into the
    buffer [buf], [*n] the remaining count.  The result is the returned
    [int] with the new values of [*s] and [*n]. *)
Definition utf_safe_read_char_adv (buf : list byte) (s n : Z) : Z * Z * Z :=
  let p := ptr_add buf s in
  if n =? 0 then (0, s, n)
  else
    let k := tab_at utf8len_tab_zero p.[0] in
    if k =? 1 then (p.[0], s + 1, n - 1)
    else if k <=? n then
      let c := utf_ptr2char p in
      if negb (c =? p.[0]) || ((c =? 0xC3) && (p.[1] =? 0x83))
      then (c, s + k, n - k)
      else (-1, s, n)
    else (-1, s, n).


(** ** Range tables *)

Record interval := { first : Z; last : Z }.

(** [table[i]]. *)
Definition interval_at (table : list interval) (i : Z) : interval :=
  nth (Z.to_nat i) table {| first := 0; last := 0 |}.

(** The binary search of [intable]: [while (top >= bot) { ... }].  Every
    round shrinks [top - bot], so [fuel] above the number of items is never
    used up (lemma [intable_loop_fuel]). *)
Fixpoint intable_loop (table : list interval) (c : Z) (fuel : nat)
    (bot top : Z) : bool :=
  match fuel with
  | O => false
  | S fuel' =>
      if top >=? bot then
        let mid := (bot + top) ÷ 2 in
        if last (interval_at table mid) <? c then
          intable_loop table c fuel' (mid + 1) top
        else if first (interval_at table mid) >? c then
          intable_loop table c fuel' bot (mid - 1)
        else true
      else false
  end.

(** [intable]: true if [c] is in [table]; [n_items] is the table's size. *)
Definition intable (table : list interval) (c : Z) : bool :=
  let n_items := Z.of_nat (length table) in
  if c <? first (interval_at table 0) then false
  else intable_loop table c (S (length table)) 0 (n_items - 1).

(** ** What the file takes from the rest of the editor *)

(** The range tables of [unicode_tables.generated.h]. *)
Class UnicodeTables := {
  combining : list interval;
  doublewidth : list interval;
  ambiguous : list interval;
  emoji_width : list interval
}.

(** [arabic_maycombine] and [arabic_combine] of [arabic.c]. *)
Class Arabic := {
  arabic_maycombine : Z -> bool;
  arabic_combine : Z -> Z -> bool
}.

(** The build option [USE_WCHAR_FUNCTIONS] with the C library's [wcwidth]
    and [iswprint], the options 'emoji' and 'ambiwidth', and
    [vim_isprintc] of [charset.c]. *)
Class Display := {
  USE_WCHAR_FUNCTIONS : bool;
  wcwidth : Z -> Z;
  iswprint : Z -> bool;
  p_emoji : bool;
  p_ambw : string;
  vim_isprintc : Z -> bool
}.

(** Modelled from the spec: the constant [MAX_MCO] of the editor's headers,
    the largest number of composing characters kept with a base character
    ("up to six composing characters are allowed", [maxComposing=6]). *)
Definition MAX_MCO : Z := 6.

(** ** Character classes and cell width *)

Section Classification.
Context {UT : UnicodeTables} {AR : Arabic} {DP : Display}.

(** [utf_iscomposing]. *)
Definition utf_iscomposing (c : Z) : bool := intable combining c.

(** The static table of [utf_printable]. *)
Definition nonprint : list interval :=
  [ {| first := 0x070f; last := 0x070f |}; {| first := 0x180b; last := 0x180e |};
    {| first := 0x200b; last := 0x200f |}; {| first := 0x202a; last := 0x202e |};
    {| first := 0x206a; last := 0x206f |}; {| first := 0xd800; last := 0xdfff |};
    {| first := 0xfeff; last := 0xfeff |}; {| first := 0xfff9; last := 0xfffb |};
    {| first := 0xfffe; last := 0xffff |} ].

(** [utf_printable]: only for characters of 0x100 and above. *)
Definition utf_printable (c : Z) : bool :=
  if USE_WCHAR_FUNCTIONS then iswprint c
  else negb (intable nonprint c).

(** [*p_ambw == 'd']. *)
Definition ambw_is_double : bool :=
  match p_ambw with
  | String ch _ => Ascii.eqb ch "d"%char
  | EmptyString => false
  end.

(** The tail of [utf_char2cells], reached when no earlier [return] fired. *)
Definition utf_char2cells_ambiguous (c : Z) : Z :=
  if (c >=? 0x80) && ambw_is_double && intable ambiguous c then 2
  else 1.

(** [utf_char2cells]: 2 for a double-width character, 4 or 6 for an
    unprintable one, 1 for others. *)
Definition utf_char2cells (c : Z) : Z :=
  if c >=? 0x100 then
    if USE_WCHAR_FUNCTIONS then
      let n := wcwidth c in
      if n <? 0 then 6
      else if n >? 1 then n
      else if p_emoji && intable emoji_width c then 2
      else utf_char2cells_ambiguous c
    else
      if negb (utf_printable c) then 6
      else if intable doublewidth c then 2
      else if p_emoji && intable emoji_width c then 2
      else utf_char2cells_ambiguous c
  else if (c >=? 0x80) && negb (vim_isprintc c) then 4
  else utf_char2cells_ambiguous c.

(** [utf_composinglike], which the macro [UTF_COMPOSINGLIKE] calls. *)
Definition utf_composinglike (p1 p2 : list byte) : bool :=
  let c2 := utf_ptr2char p2 in
  if utf_iscomposing c2 then true
  else if negb (arabic_maycombine c2) then false
  else arabic_combine (utf_ptr2char p1) c2.

(** ** Composing characters *)

(** [pcc[i] = v]: the array is the caller's, the store stays inside it. *)
Definition poke (pcc : list Z) (i : Z) (v : Z) : list Z :=
  <[Z.to_nat i := v]> pcc.

(** [pcc[i]]. *)
Definition pcc_at (pcc : list Z) (i : Z) : Z :=
  default 0 (pcc !! Z.to_nat i).

(** What makes the value [v] of the entry [pcc[j]] a composing character of
    the text [p], whose base character takes [len0] bytes: [v] is the
    character read at an offset [off] behind the base, where the byte is
    0x80 or above; entry 0 is read right behind the base and is what
    [UTF_COMPOSINGLIKE] accepts, a later entry is what [utf_iscomposing]
    accepts. *)
Definition composing_entry (p : list byte) (len0 j v : Z) : Prop :=
  exists off,
    len0 <= off /\ (j = 0 -> off = len0)
    /\ 0x80 <= p.[off]
    /\ v = utf_ptr2char (ptr_add p off)
    /\ (if j =? 0 then utf_composinglike p (ptr_add p off)
        else utf_iscomposing v) = true.

(** The locals a composing reader ends with: the returned character, the
    number [i] of composing characters it kept and the array [pcc]. *)
Record composed := { base : Z; kept : Z; cells : list Z }.

(** The [for (;;)] of [utfc_ptr2char]; it leaves by one of its two
    [break]s, [None] stands for a loop still running when [fuel] ends
    (it never is: lemma [utfc_ptr2char_loop_ends]). *)
Fixpoint utfc_ptr2char_loop (fuel : nat) (p : list byte)
    (i len cc : Z) (pcc : list Z) : option (Z * list Z) :=
  match fuel with
  | O => None
  | S fuel' =>
      let pcc := poke pcc i cc in
      let i := i + 1 in
      if i =? MAX_MCO then Some (i, pcc)
      else
        let len := len + utf_ptr2len (ptr_add p len) in
        if p.[len] <? 0x80 then Some (i, pcc)
        else
          let cc := utf_ptr2char (ptr_add p len) in
          if negb (utf_iscomposing cc) then Some (i, pcc)
          else utfc_ptr2char_loop fuel' p i len cc pcc
  end.

(** [utfc_ptr2char] with its final locals. *)
Definition utfc_ptr2char_run (p : list byte) (pcc : list Z)
    : option composed :=
  let c := utf_ptr2char p in
  let len := utf_ptr2len p in
  let after :=
    if ((len >? 1) || (p.[0] <? 0x80))
       && (p.[len] >=? 0x80)
       && utf_composinglike p (ptr_add p len)
    then utfc_ptr2char_loop (Z.to_nat MAX_MCO) p 0 len
           (utf_ptr2char (ptr_add p len)) pcc
    else Some (0, pcc) in
  match after with
  | None => None
  | Some (i, pcc) =>
      let pcc := if i <? MAX_MCO then poke pcc i 0 else pcc in
      Some {| base := c; kept := i; cells := pcc |}
  end.

(** [utfc_ptr2char]: the character at [p] and, in [pcc], its composing
    characters. *)
Definition utfc_ptr2char (p : list byte) (pcc : list Z)
    : option (Z * list Z) :=
  option_map (fun r => (base r, cells r)) (utfc_ptr2char_run p pcc).

(** The macro [IS_COMPOSING] of [utfc_ptr2char_len]. *)
Definition IS_COMPOSING (i : Z) (s1 s2 : list byte) (s3 : Z) : bool :=
  if i =? 0 then utf_composinglike s1 s2 else utf_iscomposing s3.

(** The [for (; i < MAX_MCO; i++)] of [utfc_ptr2char_len], with [None] as
    above (lemma [utfc_ptr2char_len_loop_ends]). *)
Fixpoint utfc_ptr2char_len_loop (fuel : nat) (p : list byte) (maxlen : Z)
    (i len : Z) (pcc : list Z) : option (Z * list Z) :=
  match fuel with
  | O => None
  | S fuel' =>
      if i <? MAX_MCO then
        let len_cc := utf_ptr2len_len (ptr_add p len) (maxlen - len) in
        let safe := (len_cc >? 1) && (len_cc <=? maxlen - len) in
        if negb safe then Some (i, pcc)
        else
          let v := utf_ptr2char (ptr_add p len) in
          let pcc := poke pcc i v in
          if v <? 0x80 then Some (i, pcc)
          else if negb (IS_COMPOSING i p (ptr_add p len) (pcc_at pcc i))
          then Some (i, pcc)
          else utfc_ptr2char_len_loop fuel' p maxlen (i + 1) (len + len_cc) pcc
      else Some (i, pcc)
  end.

(** [utfc_ptr2char_len] with its final locals; [None] is the failed
    [assert(maxlen > 0)]. *)
Definition utfc_ptr2char_len_run (p : list byte) (pcc : list Z) (maxlen : Z)
    : option composed :=
  if negb (maxlen >? 0) then None
  else
    let len := utf_ptr2len_len p maxlen in
    let safe := (len >? 1) && (len <=? maxlen) in
    let c := if safe then utf_ptr2char p else p.[0] in
    let after :=
      if (safe || (c <? 0x80)) && (len <? maxlen) && (p.[len] >=? 0x80)
      then utfc_ptr2char_len_loop (S (Z.to_nat MAX_MCO)) p maxlen 0 len pcc
      else Some (0, pcc) in
    match after with
    | None => None
    | Some (i, pcc) =>
        let pcc := if i <? MAX_MCO then poke pcc i 0 else pcc in
        Some {| base := c; kept := i; cells := pcc |}
    end.

(** [utfc_ptr2char_len]. *)
Definition utfc_ptr2char_len (p : list byte) (pcc : list Z) (maxlen : Z)
    : option (Z * list Z) :=
  option_map (fun r => (base r, cells r)) (utfc_ptr2char_len_run p pcc maxlen).

End Classification.

(** ** Encoding names *)

(** The property bits [ENC_...] and the code page numbers [DBCS_...] of
    [mbyte.h]. *)
Class EncConstants := {
  ENC_8BIT : Z; ENC_DBCS : Z; ENC_UNICODE : Z;
  ENC_ENDIAN_B : Z; ENC_ENDIAN_L : Z;
  ENC_2BYTE : Z; ENC_4BYTE : Z; ENC_2WORD : Z;
  ENC_LATIN1 : Z; ENC_LATIN9 : Z; ENC_MACROMAN : Z;
  DBCS_JPN : Z; DBCS_JPNU : Z; DBCS_KOR : Z; DBCS_KORU : Z;
  DBCS_CHS : Z; DBCS_CHSU : Z; DBCS_CHT : Z; DBCS_CHTU : Z;
  DBCS_DEBUG : Z
}.

(** The global [fenc_default], set by [set_init_1()]. *)
Class Globals := { fenc_default : string }.

(** C strings: [STRCMP(a, b) == 0]. *)
Definition STRCMP_eq (a b : string) : bool := String.eqb a b.

(** [STRNCMP(p, lit, n) == 0] where [n] is the length of the literal. *)
Fixpoint STRNCMP_eq (p lit : string) {struct lit} : bool :=
  match lit with
  | EmptyString => true
  | String a lit' =>
      match p with
      | EmptyString => false
      | String b p' => Ascii.eqb b a && STRNCMP_eq p' lit'
      end
  end.

(** The string at [p + n]. *)
Fixpoint str_drop (n : nat) (p : string) : string :=
  match n, p with
  | O, _ => p
  | S _, EmptyString => EmptyString
  | S n', String _ p' => str_drop n' p'
  end.

(** The first [n] characters of [p]. *)
Fixpoint str_take (n : nat) (p : string) : string :=
  match n, p with
  | O, _ => EmptyString
  | S _, EmptyString => EmptyString
  | S n', String a p' => String a (str_take n' p')
  end.

(** [p[n]], NUL at the end of the string. *)
Definition str_at (n : nat) (p : string) : ascii :=
  match String.get n p with
  | Some a => a
  | None => zero
  end.

(** Modelled from the spec: the macro [TOLOWER_ASC] of the editor's headers,
    lower-casing of the ASCII letters alone. *)
Definition TOLOWER_ASC (c : ascii) : ascii :=
  let n := nat_of_ascii c in
  if (n <? nat_of_ascii "A")%nat || (nat_of_ascii "Z" <? n)%nat then c
  else ascii_of_nat (n + (nat_of_ascii "a" - nat_of_ascii "A")).

Section EncodingNames.
Context {EC : EncConstants} {GL : Globals}.
Local Open Scope string_scope.

Record enc_canon := { name : string; prop : Z; codepage : Z }.

Definition IDX_LATIN_1 := 0.
Definition IDX_ISO_2 := 1.
Definition IDX_ISO_3 := 2.
Definition IDX_ISO_4 := 3.
Definition IDX_ISO_5 := 4.
Definition IDX_ISO_6 := 5.
Definition IDX_ISO_7 := 6.
Definition IDX_ISO_8 := 7.
Definition IDX_ISO_9 := 8.
Definition IDX_ISO_10 := 9.
Definition IDX_ISO_11 := 10.
Definition IDX_ISO_13 := 11.
Definition IDX_ISO_14 := 12.
Definition IDX_ISO_15 := 13.
Definition IDX_KOI8_R := 14.
Definition IDX_KOI8_U := 15.
Definition IDX_UTF8 := 16.
Definition IDX_UCS2 := 17.
Definition IDX_UCS2LE := 18.
Definition IDX_UTF16 := 19.
Definition IDX_UTF16LE := 20.
Definition IDX_UCS4 := 21.
Definition IDX_UCS4LE := 22.
Definition IDX_DEBUG := 23.
Definition IDX_EUC_JP := 24.
Definition IDX_SJIS := 25.
Definition IDX_EUC_KR := 26.
Definition IDX_EUC_CN := 27.
Definition IDX_EUC_TW := 28.
Definition IDX_BIG5 := 29.
Definition IDX_CP437 := 30.
Definition IDX_CP737 := 31.
Definition IDX_CP775 := 32.
Definition IDX_CP850 := 33.
Definition IDX_CP852 := 34.
Definition IDX_CP855 := 35.
Definition IDX_CP857 := 36.
Definition IDX_CP860 := 37.
Definition IDX_CP861 := 38.
Definition IDX_CP862 := 39.
Definition IDX_CP863 := 40.
Definition IDX_CP865 := 41.
Definition IDX_CP866 := 42.
Definition IDX_CP869 := 43.
Definition IDX_CP874 := 44.
Definition IDX_CP932 := 45.
Definition IDX_CP936 := 46.
Definition IDX_CP949 := 47.
Definition IDX_CP950 := 48.
Definition IDX_CP1250 := 49.
Definition IDX_CP1251 := 50.
Definition IDX_CP1253 := 51.
Definition IDX_CP1254 := 52.
Definition IDX_CP1255 := 53.
Definition IDX_CP1256 := 54.
Definition IDX_CP1257 := 55.
Definition IDX_CP1258 := 56.
Definition IDX_MACROMAN := 57.
Definition IDX_HPROMAN8 := 58.
Definition IDX_COUNT := 59.

(** [enc_canon_table]: canonical encoding names and their properties. *)
Definition enc_canon_table : list enc_canon :=
  let e (n : string) (p cp : Z) := {| name := n; prop := p; codepage := cp |} in
  [ e "latin1" (ENC_8BIT + ENC_LATIN1) 1252;
    e "iso-8859-2" ENC_8BIT 0;
    e "iso-8859-3" ENC_8BIT 0;
    e "iso-8859-4" ENC_8BIT 0;
    e "iso-8859-5" ENC_8BIT 0;
    e "iso-8859-6" ENC_8BIT 0;
    e "iso-8859-7" ENC_8BIT 0;
    e "iso-8859-8" ENC_8BIT 0;
    e "iso-8859-9" ENC_8BIT 0;
    e "iso-8859-10" ENC_8BIT 0;
    e "iso-8859-11" ENC_8BIT 0;
    e "iso-8859-13" ENC_8BIT 0;
    e "iso-8859-14" ENC_8BIT 0;
    e "iso-8859-15" (ENC_8BIT + ENC_LATIN9) 0;
    e "koi8-r" ENC_8BIT 0;
    e "koi8-u" ENC_8BIT 0;
    e "utf-8" ENC_UNICODE 0;
    e "ucs-2" (ENC_UNICODE + ENC_ENDIAN_B + ENC_2BYTE) 0;
    e "ucs-2le" (ENC_UNICODE + ENC_ENDIAN_L + ENC_2BYTE) 0;
    e "utf-16" (ENC_UNICODE + ENC_ENDIAN_B + ENC_2WORD) 0;
    e "utf-16le" (ENC_UNICODE + ENC_ENDIAN_L + ENC_2WORD) 0;
    e "ucs-4" (ENC_UNICODE + ENC_ENDIAN_B + ENC_4BYTE) 0;
    e "ucs-4le" (ENC_UNICODE + ENC_ENDIAN_L + ENC_4BYTE) 0;
    e "debug" ENC_DBCS DBCS_DEBUG;
    e "euc-jp" ENC_DBCS DBCS_JPNU;
    e "sjis" ENC_DBCS DBCS_JPN;
    e "euc-kr" ENC_DBCS DBCS_KORU;
    e "euc-cn" ENC_DBCS DBCS_CHSU;
    e "euc-tw" ENC_DBCS DBCS_CHTU;
    e "big5" ENC_DBCS DBCS_CHT;
    e "cp437" ENC_8BIT 437;
    e "cp737" ENC_8BIT 737;
    e "cp775" ENC_8BIT 775;
    e "cp850" ENC_8BIT 850;
    e "cp852" ENC_8BIT 852;
    e "cp855" ENC_8BIT 855;
    e "cp857" ENC_8BIT 857;
    e "cp860" ENC_8BIT 860;
    e "cp861" ENC_8BIT 861;
    e "cp862" ENC_8BIT 862;
    e "cp863" ENC_8BIT 863;
    e "cp865" ENC_8BIT 865;
    e "cp866" ENC_8BIT 866;
    e "cp869" ENC_8BIT 869;
    e "cp874" ENC_8BIT 874;
    e "cp932" ENC_DBCS DBCS_JPN;
    e "cp936" ENC_DBCS DBCS_CHS;
    e "cp949" ENC_DBCS DBCS_KOR;
    e "cp950" ENC_DBCS DBCS_CHT;
    e "cp1250" ENC_8BIT 1250;
    e "cp1251" ENC_8BIT 1251;
    e "cp1253" ENC_8BIT 1253;
    e "cp1254" ENC_8BIT 1254;
    e "cp1255" ENC_8BIT 1255;
    e "cp1256" ENC_8BIT 1256;
    e "cp1257" ENC_8BIT 1257;
    e "cp1258" ENC_8BIT 1258;
    e "macroman" (ENC_8BIT + ENC_MACROMAN) 0;
    e "hp-roman8" ENC_8BIT 0 ].

(** [enc_alias_table]: aliases for encoding names; the list ends where the
    C table has its [NULL] entry. *)
Definition enc_alias_table : list (string * Z) :=
  [ ("ansi", IDX_LATIN_1); ("iso-8859-1", IDX_LATIN_1);
    ("latin2", IDX_ISO_2); ("latin3", IDX_ISO_3); ("latin4", IDX_ISO_4);
    ("cyrillic", IDX_ISO_5); ("arabic", IDX_ISO_6); ("greek", IDX_ISO_7);
    ("hebrew", IDX_ISO_8); ("latin5", IDX_ISO_9); ("turkish", IDX_ISO_9);
    ("latin6", IDX_ISO_10); ("nordic", IDX_ISO_10); ("thai", IDX_ISO_11);
    ("latin7", IDX_ISO_13); ("latin8", IDX_ISO_14); ("latin9", IDX_ISO_15);
    ("utf8", IDX_UTF8); ("unicode", IDX_UCS2); ("ucs2", IDX_UCS2);
    ("ucs2be", IDX_UCS2); ("ucs-2be", IDX_UCS2); ("ucs2le", IDX_UCS2LE);
    ("utf16", IDX_UTF16); ("utf16be", IDX_UTF16); ("utf-16be", IDX_UTF16);
    ("utf16le", IDX_UTF16LE); ("ucs4", IDX_UCS4); ("ucs4be", IDX_UCS4);
    ("ucs-4be", IDX_UCS4); ("ucs4le", IDX_UCS4LE); ("utf32", IDX_UCS4);
    ("utf-32", IDX_UCS4); ("utf32be", IDX_UCS4); ("utf-32be", IDX_UCS4);
    ("utf32le", IDX_UCS4LE); ("utf-32le", IDX_UCS4LE);
    ("932", IDX_CP932); ("949", IDX_CP949); ("936", IDX_CP936);
    ("gbk", IDX_CP936); ("950", IDX_CP950); ("eucjp", IDX_EUC_JP);
    ("unix-jis", IDX_EUC_JP); ("ujis", IDX_EUC_JP);
    ("shift-jis", IDX_SJIS); ("pck", IDX_SJIS); ("euckr", IDX_EUC_KR);
    ("5601", IDX_EUC_KR); ("euccn", IDX_EUC_CN); ("gb2312", IDX_EUC_CN);
    ("euctw", IDX_EUC_TW); ("japan", IDX_EUC_JP); ("korea", IDX_EUC_KR);
    ("prc", IDX_EUC_CN); ("chinese", IDX_EUC_CN); ("taiwan", IDX_EUC_TW);
    ("cp950", IDX_BIG5); ("950", IDX_BIG5); ("mac", IDX_MACROMAN);
    ("mac-roman", IDX_MACROMAN) ].

(** The loop of [enc_canon_search] from index [i] on. *)
Fixpoint enc_canon_search_from (tbl : list enc_canon) (i : Z)
    (nm : string) : Z :=
  match tbl with
  | [] => -1
  | e :: tbl' =>
      if STRCMP_eq nm (name e) then i
      else enc_canon_search_from tbl' (i + 1) nm
  end.

(** [enc_canon_search]: index of [nm] among the canonical names, -1 if not
    found. *)
Definition enc_canon_search (nm : string) : Z :=
  enc_canon_search_from enc_canon_table 0 nm.

(** [enc_canon_table[i]]. *)
Definition enc_canon_at (i : Z) : enc_canon :=
  nth (Z.to_nat i) enc_canon_table {| name := ""; prop := 0; codepage := 0 |}.

(** [enc_canon_props]: the properties of a canonical name, 0 if not found. *)
Definition enc_canon_props (nm : string) : Z :=
  let i := enc_canon_search nm in
  if i >=? 0 then prop (enc_canon_at i)
  else if STRNCMP_eq nm "2byte-" then ENC_DBCS
  else if STRNCMP_eq nm "8bit-" || STRNCMP_eq nm "iso-8859-" then ENC_8BIT
  else 0.

(** [enc_alias_search]: the canonical index of alias [nm], -1 if not found. *)
Fixpoint enc_alias_search_in (tbl : list (string * Z)) (nm : string) : Z :=
  match tbl with
  | [] => -1
  | (alias, canon) :: tbl' =>
      if STRCMP_eq nm alias then canon else enc_alias_search_in tbl' nm
  end.

Definition enc_alias_search (nm : string) : Z :=
  enc_alias_search_in enc_alias_table nm.

(** [enc_skip]: skip the Vim specific head of an 'encoding' name. *)
Definition enc_skip (p : string) : string :=
  if STRNCMP_eq p "2byte-" then str_drop 6 p
  else if STRNCMP_eq p "8bit-" then str_drop 5 p
  else p.

(** The first loop of [enc_canonize]: all lower case, '_' replaced
    with '-'. *)
Fixpoint enc_lower_dash (s : string) : string :=
  match s with
  | EmptyString => EmptyString
  | String c s' =>
      String (if Ascii.eqb c "_" then "-"%char else TOLOWER_ASC c)
             (enc_lower_dash s')
  end.

(** The four spelling fixes [enc_canonize] applies in place to the name [p]
    behind the skipped head. *)
Definition enc_fix_spelling (p : string) : string :=
  (* Change "microsoft-cp" to "cp". *)
  let p := if STRNCMP_eq p "microsoft-cp" then str_drop 10 p else p in
  (* "iso8859" -> "iso-8859": STRMOVE(p + 4, p + 3); p[3] = '-' *)
  let p := if STRNCMP_eq p "iso8859"
           then str_take 3 p ++ "-" ++ str_drop 3 p else p in
  (* "iso-8859n" -> "iso-8859-n": STRMOVE(p + 9, p + 8); p[8] = '-' *)
  let p := if STRNCMP_eq p "iso-8859" && negb (Ascii.eqb (str_at 8 p) "-")
           then str_take 8 p ++ "-" ++ str_drop 8 p else p in
  (* "latin-N" -> "latinN": STRMOVE(p + 5, p + 6) *)
  let p := if STRNCMP_eq p "latin-"
           then str_take 5 p ++ str_drop 6 p else p in
  p.

(** [enc_canonize]: the canonical name for encoding [enc]. *)
Definition enc_canonize (enc : string) : string :=
  if STRCMP_eq enc "default" then fenc_default
  else
    let r := enc_lower_dash enc in
    (* p = enc_skip(r): [head] is what lies between r and p *)
    let p := enc_skip r in
    let head := str_take (String.length r - String.length p)%nat r in
    let p := enc_fix_spelling p in
    if enc_canon_search p >=? 0 then p
    else
      let i := enc_alias_search p in
      if i >=? 0 then name (enc_canon_at i)
      else head ++ p.

End EncodingNames.

(** ** Conversion between encodings *)

(** Modelled from the spec: the conversion types [CONV_...] and the struct
    [vimconv_T] of [mbyte.h] (the strategy tag, the expansion factor, the
    handle of the external converter and the fail-versus-substitute flag),
    with the results [OK] and [FAIL] of [vim.h]. *)
Inductive ConvType :=
  | CONV_NONE | CONV_TO_UTF8 | CONV_9_TO_UTF8
  | CONV_TO_LATIN1 | CONV_TO_LATIN9 | CONV_ICONV.

Definition ConvType_eqb (a b : ConvType) : bool :=
  match a, b with
  | CONV_NONE, CONV_NONE | CONV_TO_UTF8, CONV_TO_UTF8
  | CONV_9_TO_UTF8, CONV_9_TO_UTF8 | CONV_TO_LATIN1, CONV_TO_LATIN1
  | CONV_TO_LATIN9, CONV_TO_LATIN9 | CONV_ICONV, CONV_ICONV => true
  | _, _ => false
  end.

Record vimconv_T := {
  vc_type : ConvType;
  vc_factor : Z;
  vc_fd : Z;
  vc_fail : bool
}.

Inductive status := OK | FAIL.

(** What [string_convert_ext] hands back: the returned string ([None] is
    [NULL]) and the values left in [*lenp] and [*unconvlenp] ([None] where
    the caller passed [NULL]). *)
Record converted := {
  retval : option (list byte);
  lenp_out : option Z;
  unconvlenp_out : option Z
}.

(** The external converter: the build option [USE_ICONV], [my_iconv_open]
    (-1 when no converter could be opened) and [iconv_string], both
    wrappers of the C library's iconv. *)
Class ExternalConverter := {
  USE_ICONV : bool;
  my_iconv_open : string -> string -> Z;
  iconv_string : vimconv_T -> list byte -> Z -> option Z -> option Z -> converted
}.

(** [ptr != NULL] for an optional out-parameter. *)
Definition not_NULL {A : Type} (ptr : option A) : bool :=
  match ptr with Some _ => true | None => false end.

(** [STRLEN]. *)
Fixpoint STRLEN (p : list byte) : Z :=
  match p with
  | [] => 0
  | b :: p' => if byte.unsigned b =? NUL then 0 else 1 + STRLEN p'
  end.

Section Conversion.
Context {UT : UnicodeTables} {AR : Arabic} {DP : Display}
        {EC : EncConstants} {XC : ExternalConverter}.

(** [convert_setup_ext]: set up [vcp] for the conversion from [from] to
    [to]; [None] is a [NULL] name.  Closing the handle of an earlier
    [CONV_ICONV] set-up acts on the C library alone and is not shown. *)
Definition convert_setup_ext (vcp : vimconv_T)
    (from : option string) (from_unicode_is_utf8 : bool)
    (to : option string) (to_unicode_is_utf8 : bool) : status * vimconv_T :=
  (* Reset to no conversion. *)
  let vcp := {| vc_type := CONV_NONE; vc_factor := 1;
                vc_fd := vc_fd vcp; vc_fail := false |} in
  match from, to with
  | Some from, Some to =>
      (* No conversion when one of the names is empty or they are equal. *)
      if STRCMP_eq from ""%string || STRCMP_eq to ""%string || STRCMP_eq from to
      then (OK, vcp)
      else
        let from_prop := enc_canon_props from in
        let to_prop := enc_canon_props to in
        let from_is_utf8 :=
          if from_unicode_is_utf8 then from_prop & ENC_UNICODE
          else if from_prop =? ENC_UNICODE then 1 else 0 in
        let to_is_utf8 :=
          if to_unicode_is_utf8 then to_prop & ENC_UNICODE
          else if to_prop =? ENC_UNICODE then 1 else 0 in
        let truth (x : Z) := negb (x =? 0) in
        let vcp :=
          if truth (from_prop & ENC_LATIN1) && truth to_is_utf8 then
            {| vc_type := CONV_TO_UTF8; vc_factor := 2;
               vc_fd := vc_fd vcp; vc_fail := vc_fail vcp |}
          else if truth (from_prop & ENC_LATIN9) && truth to_is_utf8 then
            {| vc_type := CONV_9_TO_UTF8; vc_factor := 3;
               vc_fd := vc_fd vcp; vc_fail := vc_fail vcp |}
          else if truth from_is_utf8 && truth (to_prop & ENC_LATIN1) then
            {| vc_type := CONV_TO_LATIN1; vc_factor := vc_factor vcp;
               vc_fd := vc_fd vcp; vc_fail := vc_fail vcp |}
          else if truth from_is_utf8 && truth (to_prop & ENC_LATIN9) then
            {| vc_type := CONV_TO_LATIN9; vc_factor := vc_factor vcp;
               vc_fd := vc_fd vcp; vc_fail := vc_fail vcp |}
          else if USE_ICONV then
            let fd := my_iconv_open
                        (if truth to_is_utf8 then "utf-8"%string else to)
                        (if truth from_is_utf8 then "utf-8"%string else from) in
            if negb (fd =? -1) then
              {| vc_type := CONV_ICONV; vc_factor := 4;
                 vc_fd := fd; vc_fail := vc_fail vcp |}
            else
              {| vc_type := vc_type vcp; vc_factor := vc_factor vcp;
                 vc_fd := fd; vc_fail := vc_fail vcp |}
          else vcp in
        if ConvType_eqb (vc_type vcp) CONV_NONE then (FAIL, vcp)
        else (OK, vcp)
  | _, _ => (OK, vcp)
  end.

(** [convert_setup]. *)
Definition convert_setup (vcp : vimconv_T) (from to : option string)
    : status * vimconv_T :=
  convert_setup_ext vcp from true to true.

(** The loop of the [CONV_TO_UTF8] case: the bytes stored through [d]. *)
Fixpoint latin1_to_utf8 (ptr : list byte) (i : Z) (count : nat) : list byte :=
  match count with
  | O => []
  | S count' =>
      let c := ptr.[i] in
      (if c <? 0x80 then [byte.of_Z c]
       else [byte.of_Z (0xc0 + (to_unsigned c >> 6));
             byte.of_Z (0x80 + (c & 0x3f))])
      ++ latin1_to_utf8 ptr (i + 1) count'
  end%list.

(** The [switch] of the [CONV_9_TO_UTF8] case. *)
Definition latin9_to_unicode (c : Z) : Z :=
  if c =? 0xa4 then 0x20ac
  else if c =? 0xa6 then 0x0160
  else if c =? 0xa8 then 0x0161
  else if c =? 0xb4 then 0x017d
  else if c =? 0xb8 then 0x017e
  else if c =? 0xbc then 0x0152
  else if c =? 0xbd then 0x0153
  else if c =? 0xbe then 0x0178
  else c.

(** The loop of the [CONV_9_TO_UTF8] case. *)
Fixpoint latin9_to_utf8 (ptr : list byte) (i : Z) (count : nat) : list byte :=
  match count with
  | O => []
  | S count' =>
      let c := latin9_to_unicode ptr.[i] in
      snd (utf_char2bytes c) ++ latin9_to_utf8 ptr (i + 1) count'
  end%list.

(** The [switch] of the [CONV_TO_LATIN9] case. *)
Definition unicode_to_latin9 (c : Z) : Z :=
  if c =? 0x20ac then 0xa4
  else if c =? 0x0160 then 0xa6
  else if c =? 0x0161 then 0xa8
  else if c =? 0x017d then 0xb4
  else if c =? 0x017e then 0xb8
  else if c =? 0x0152 then 0xbc
  else if c =? 0x0153 then 0xbd
  else if c =? 0x0178 then 0xbe
  else if (c =? 0xa4) || (c =? 0xa6) || (c =? 0xa8) || (c =? 0xb4)
          || (c =? 0xb8) || (c =? 0xbc) || (c =? 0xbd) || (c =? 0xbe)
  then 0x100
  else c.

(** The loop of the [CONV_TO_LATIN1] and [CONV_TO_LATIN9] cases.  The
    outer [None] is a loop still running when [fuel] ends (every round
    advances [i], [len + 1] rounds are enough: lemma [utf8_to_latin_ends]);
    inside, the first
    component is [None] after [return NULL] and the bytes stored through
    [d] otherwise, the second is [*unconvlenp]. *)
Fixpoint utf8_to_latin (fuel : nat) (vcp : vimconv_T) (ptr : list byte)
    (len : Z) (i : Z) (d : list byte) (unconvlenp : option Z)
    : option (option (list byte) * option Z) :=
  match fuel with
  | O => None
  | S fuel' =>
      if i <? len then
        let l := utf_ptr2len_len (ptr_add ptr i) (len - i) in
        if l =? 0 then
          utf8_to_latin fuel' vcp ptr len (i + 1) (d ++ [Byte.x00])%list unconvlenp
        else if l =? 1 then
          let l_w := tab_at utf8len_tab_zero ptr.[i] in
          if l_w =? 0 then Some (None, unconvlenp)
          else if not_NULL unconvlenp && (l_w >? len - i)
          then Some (Some d, Some (len - i))
          else utf8_to_latin fuel' vcp ptr len (i + 1)
                 (d ++ [byte.of_Z ptr.[i]])%list unconvlenp
        else
          let c := utf_ptr2char (ptr_add ptr i) in
          let c := if ConvType_eqb (vc_type vcp) CONV_TO_LATIN9
                   then unicode_to_latin9 c else c in
          if negb (utf_iscomposing c) then
            if c <? 0x100 then
              utf8_to_latin fuel' vcp ptr len (i + (l - 1) + 1)
                (d ++ [byte.of_Z c])%list unconvlenp
            else if vc_fail vcp then Some (None, unconvlenp)
            else
              utf8_to_latin fuel' vcp ptr len (i + (l - 1) + 1)
                (d ++ [Byte.xbf]
                   ++ (if utf_char2cells c >? 1 then [byte.of_Z 63] else []))%list
                unconvlenp
          else
            utf8_to_latin fuel' vcp ptr len (i + (l - 1) + 1) d unconvlenp
      else Some (Some d, unconvlenp)
  end.

(** [string_convert_ext]: convert the text [ptr[*lenp]] according to
    [vcp]; with [lenp] [NULL] the text ends at its NUL.  [None] as a whole
    is the loop of [utf8_to_latin] out of fuel. *)
Definition string_convert_ext (vcp : vimconv_T) (ptr : list byte)
    (lenp unconvlenp : option Z) : option converted :=
  let len := match lenp with None => STRLEN ptr | Some n => n end in
  let stored (d : list byte) (unconv : option Z) :=
    {| retval := Some d;
       lenp_out := match lenp with
                   | None => None
                   | Some _ => Some (Z.of_nat (length d))
                   end;
       unconvlenp_out := unconv |} in
  let null (unconv : option Z) :=
    {| retval := None; lenp_out := lenp; unconvlenp_out := unconv |} in
  if len =? 0 then
    Some {| retval := Some []; lenp_out := lenp; unconvlenp_out := unconvlenp |}
  else
    match vc_type vcp with
    | CONV_TO_UTF8 =>
        Some (stored (latin1_to_utf8 ptr 0 (Z.to_nat len)) unconvlenp)
    | CONV_9_TO_UTF8 =>
        Some (stored (latin9_to_utf8 ptr 0 (Z.to_nat len)) unconvlenp)
    | CONV_TO_LATIN1 | CONV_TO_LATIN9 =>
        match utf8_to_latin (S (Z.to_nat len)) vcp ptr len 0 [] unconvlenp with
        | None => None
        | Some (Some d, unconv) => Some (stored d unconv)
        | Some (None, unconv) => Some (null unconv)
        end
    | CONV_ICONV =>
        if USE_ICONV then Some (iconv_string vcp ptr len unconvlenp lenp)
        else Some (null unconvlenp)
    | CONV_NONE => Some (null unconvlenp)
    end.

(** [string_convert]. *)
Definition string_convert (vcp : vimconv_T) (ptr : list byte)
    (lenp : option Z) : option converted :=
  string_convert_ext vcp ptr lenp None.

End Conversion.

(** ** The invariant of a range table *)

(** "Sorted list of non-overlapping intervals": every interval runs from
    its [first] up to its [last], and ends before the next one starts. *)
Fixpoint intervals_sorted (table : list interval) : bool :=
  match table with
  | [] => true
  | e :: rest =>
      (first e <=? last e)
      && match rest with
         | [] => true
         | e' :: _ => last e <? first e'
         end
      && intervals_sorted rest
  end.

(** ** Lengths with composing characters *)

Section ComposingLength.
Context {UT : UnicodeTables} {AR : Arabic}.

(** The [for (;;)] of [utfc_ptr2len], which skips every composing
    character; [None] stands for a loop still running when [fuel] ends (it
    never is: lemma [utfc_ptr2len_loop_ends]). *)
Fixpoint utfc_ptr2len_loop (fuel : nat) (p : list byte) (prevlen len : Z)
    : option Z :=
  match fuel with
  | O => None
  | S fuel' =>
      if (p.[len] <? 0x80)
         || negb (utf_composinglike (ptr_add p prevlen) (ptr_add p len))
      then Some len
      else utfc_ptr2len_loop fuel' p len (len + utf_ptr2len (ptr_add p len))
  end.

(** [utfc_ptr2len]: the number of bytes of the character at [p], its
    composing characters included. *)
Definition utfc_ptr2len (p : list byte) : option Z :=
  let b0 := p.[0] in
  if b0 =? NUL then Some 0
  else if (b0 <? 0x80) && (p.[1] <? 0x80) then Some 1
  else
    let len := utf_ptr2len p in
    if (len =? 1) && (b0 >=? 0x80) then Some 1
    else utfc_ptr2len_loop (S (length p)) p 0 len.

(** The [while (len < size)] of [utfc_ptr2len_len], with [None] as above
    (lemma [utfc_ptr2len_len_loop_ends]). *)
Fixpoint utfc_ptr2len_len_loop (fuel : nat) (p : list byte) (size : Z)
    (prevlen len : Z) : option Z :=
  match fuel with
  | O => None
  | S fuel' =>
      if len <? size then
        if p.[len] <? 0x80 then Some len
        else
          let len_next_char := utf_ptr2len_len (ptr_add p len) (size - len) in
          if len_next_char >? size - len then Some len
          else if negb (utf_composinglike (ptr_add p prevlen) (ptr_add p len))
          then Some len
          else utfc_ptr2len_len_loop fuel' p size len (len + len_next_char)
      else Some len
  end.

(** [utfc_ptr2len_len]: as [utfc_ptr2len] for the sequence [p[size]]; 0 for
    an empty string, 1 for an illegal or incomplete byte sequence. *)
Definition utfc_ptr2len_len (p : list byte) (size : Z) : option Z :=
  if (size <? 1) || (p.[0] =? NUL) then Some 0
  else if (p.[0] <? 0x80) && ((size =? 1) || (p.[1] <? 0x80)) then Some 1
  else
    let len := utf_ptr2len_len p size in
    if ((len =? 1) && (p.[0] >=? 0x80)) || (len >? size) then Some 1
    else utfc_ptr2len_len_loop (S (length p)) p size 0 len.

End ComposingLength.

(** ** Cells of the character at a pointer *)

(** [char2cells] of [charset.c]. *)
Class Charset := {
  char2cells : Z -> Z
}.

Section PointerCells.
Context {UT : UnicodeTables} {DP : Display} {CS : Charset}.

(** The part [utf_ptr2cells] and [utf_ptr2cells_len] share, from
    [c = utf_ptr2char(p)] on. *)
Definition utf_ptr2cells_wide (p : list byte) : Z :=
  let c := utf_ptr2char p in
  if (utf_ptr2len p =? 1) || (c =? NUL) then 4
  else if c <? 0x80 then char2cells c
  else utf_char2cells c.

(** [utf_ptr2cells]: the number of display cells the character at [p]
    occupies. *)
Definition utf_ptr2cells (p : list byte) : Z :=
  if p.[0] >=? 0x80 then utf_ptr2cells_wide p
  else 1.


End PointerCells.

(** ** Offsets inside a character

    The functions below take a pointer [p] into a line that starts at
    [base]; here the line is [buf] and the pointer the offset [k = p - base]
    into it. *)

(** [for (i = ...; (q[i] & 0xc0) == 0x80; ++i) {}] with [q = base + from]: the
    first [i] whose byte is no trail byte.  The terminating NUL is none, so
    the scan ends (lemma [skip_trails_ends]). *)
Fixpoint skip_trails (fuel : nat) (buf : list byte) (from i : Z) : option Z :=
  match fuel with
  | O => None
  | S fuel' =>
      if (buf.[from + i] & 0xc0) =? 0x80
      then skip_trails fuel' buf from (i + 1)
      else Some i
  end.

(** [for (j = ...; p - j > base; ++j) if ((p[-j] & 0xc0) != 0x80) break;]. *)
Fixpoint back_trails (fuel : nat) (buf : list byte) (k j : Z) : option Z :=
  match fuel with
  | O => None
  | S fuel' =>
      if k - j >? 0 then
        if negb ((buf.[k - j] & 0xc0) =? 0x80) then Some j
        else back_trails fuel' buf k (j + 1)
      else Some j
  end.

(** [while (q > base && (q[0] & 0xc0) == 0x80) --q;]. *)
Fixpoint back_to_lead (fuel : nat) (buf : list byte) (q : Z) : option Z :=
  match fuel with
  | O => None
  | S fuel' =>
      if (q >? 0) && ((buf.[q] & 0xc0) =? 0x80)
      then back_to_lead fuel' buf (q - 1)
      else Some q
  end.

(** [mb_tail_off]: the offset from [p] to the last byte of the character it
    points into. *)
Definition mb_tail_off (buf : list byte) (k : Z) : option Z :=
  if buf.[k] =? NUL then Some 0
  else
    (* the scan tests p[i + 1] *)
    match skip_trails (S (length buf)) buf (k + 1) 0 with
    | None => None
    | Some i =>
        match back_trails (S (Z.to_nat k)) buf k 0 with
        | None => None
        | Some j =>
            if negb (tab_at utf8len_tab buf.[k - j] =? i + j + 1) then Some 0
            else Some i
        end
    end.

(** The global [enc_utf8] and the function pointers [mb_ptr2char],
    [mb_ptr2len] and [mb_head_off], set with the encoding. *)
Class Encoding := {
  enc_utf8 : bool;
  mb_ptr2char : list byte -> Z;
  mb_ptr2len : list byte -> Z;
  mb_head_off : list byte -> Z -> Z
}.

Section Offsets.
Context {UT : UnicodeTables} {AR : Arabic} {EN : Encoding}.

(** [mb_off_next]: the offset from [p] to the first byte of a character, 0
    when [p] is at the start of one, else the offset to the next one. *)
Definition mb_off_next (buf : list byte) (k : Z) : option Z :=
  if enc_utf8 then
    if buf.[k] <? 0x80 then Some 0
    else
      match skip_trails (S (length buf)) buf k 0 with
      | None => None
      | Some i =>
          if i >? 0 then
            match back_trails (S (Z.to_nat k)) buf k 0 with
            | None => None
            | Some j =>
                if negb (tab_at utf8len_tab buf.[k - j] =? i + j) then Some 0
                else Some i
            end
          else Some i
      end
  else Some (mb_head_off buf k).

(** The [for (q = p;; --q)] of [utf_head_off]; a round that "continues"
    goes on at [q - 1]. *)
Fixpoint utf_head_off_loop (fuel : nat) (buf : list byte) (k q : Z)
    : option Z :=
  match fuel with
  | O => None
  | S fuel' =>
      (* s: the last byte of this char, found from s[1] on *)
      match skip_trails (S (length buf)) buf (q + 1) 0 with
      | None => None
      | Some i =>
          let s := q + i in
          (* q: the first byte of this char *)
          match back_to_lead (S (Z.to_nat q)) buf q with
          | None => None
          | Some q =>
              let len := tab_at utf8len_tab buf.[q] in
              if negb (len =? s - q + 1) && negb (len =? k - q + 1)
              then Some 0
              else if q <=? 0 then Some (k - q)
              else
                let c := utf_ptr2char (ptr_add buf q) in
                if utf_iscomposing c then utf_head_off_loop fuel' buf k (q - 1)
                else if arabic_maycombine c then
                  match back_to_lead (S (Z.to_nat (q - 1))) buf (q - 1) with
                  | None => None
                  | Some j =>
                      if arabic_combine (utf_ptr2char (ptr_add buf j)) c
                      then utf_head_off_loop fuel' buf k (q - 1)
                      else Some (k - q)
                  end
                else Some (k - q)
          end
      end
  end.

(** [utf_head_off]: the offset from [p] back to the first byte of the
    character it points into, composing characters counted with their
    base. *)
Definition utf_head_off (buf : list byte) (k : Z) : option Z :=
  if buf.[k] <? 0x80 then Some 0
  else utf_head_off_loop (S (Z.to_nat k)) buf k k.

End Offsets.

(** ** Reading a character and stepping over it *)

(** [mb_cptr2char_adv]: the character at [*pp], with the new offset of
    [*pp] into [buf]; composing characters are returned as separate
    characters. *)
Definition mb_cptr2char_adv {EN : Encoding} (buf : list byte) (pp : Z) : Z * Z :=
  let c := mb_ptr2char (ptr_add buf pp) in
  if enc_utf8 then (c, pp + utf_ptr2len (ptr_add buf pp))
  else (c, pp + mb_ptr2len (ptr_add buf pp)).

(** ** Case conversion *)

Record convertStruct := {
  rangeStart : Z;
  rangeEnd : Z;
  step : Z;
  offset : Z
}.

(** [table[i]]. *)
Definition convert_at (table : list convertStruct) (i : Z) : convertStruct :=
  nth (Z.to_nat i) table
      {| rangeStart := 0; rangeEnd := 0; step := 0; offset := 0 |}.

(** The binary search of [utf_convert]: [while (start < end) { ... }], the
    result being [start].  Every round shrinks [end - start] (lemma
    [utf_convert_loop_ends]). *)
Fixpoint utf_convert_loop (fuel : nat) (table : list convertStruct) (a : Z)
    (start end_ : Z) : option Z :=
  match fuel with
  | O => None
  | S fuel' =>
      if start <? end_ then
        let mid := (end_ + start) / 2 in
        if rangeEnd (convert_at table mid) <? a
        then utf_convert_loop fuel' table a (mid + 1) end_
        else utf_convert_loop fuel' table a start mid
      else Some start
  end.

(** [utf_convert]: the converted equivalent of [a], by the given table. *)
Definition utf_convert (a : Z) (table : list convertStruct) : option Z :=
  let n_items := Z.of_nat (length table) in
  match utf_convert_loop (S (length table)) table a 0 n_items with
  | None => None
  | Some start =>
      let e := convert_at table start in
      if (start <? n_items)
         && (rangeStart e <=? a)
         && (a <=? rangeEnd e)
         && (Z.rem (a - rangeStart e) (step e) =? 0)
      then Some (a + offset e)
      else Some a
  end.

(** The case tables of [unicode_tables.generated.h]. *)
Class CaseTables := {
  foldCase : list convertStruct;
  toLower : list convertStruct;
  toUpper : list convertStruct
}.

(** [utf_fold]: the folded-case equivalent of [a]. *)
Definition utf_fold {CT : CaseTables} (a : Z) : option Z :=
  utf_convert a foldCase.

(** The invariant of a case table: every range runs from its start up to
    its end in steps of at least one, and ends before the next one starts. *)
Fixpoint convert_sorted (table : list convertStruct) : bool :=
  match table with
  | [] => true
  | e :: rest =>
      (rangeStart e <=? rangeEnd e) && (1 <=? step e)
      && match rest with
         | [] => true
         | e' :: _ => rangeEnd e <? rangeStart e'
         end
      && convert_sorted rest
  end.

(** ** Double-byte characters *)

(** [dbcs_char2len]. *)
Definition dbcs_char2len (c : Z) : Z :=
  if c >=? 0x100 then 2 else 1.

(** [dbcs_char2bytes]: the returned length with the bytes stored in [buf]. *)
Definition dbcs_char2bytes (c : Z) : Z * list byte :=
  if c >=? 0x100 then
    let b0 := byte.of_Z (to_unsigned c >> 8) in
    let b1 := byte.of_Z c in
    let b1 := if byte.unsigned b1 =? NUL then byte.of_Z 10 (* '\n' *) else b1 in
    (2, [b0; b1])
  else (1, [byte.of_Z c]).

(** ** Screen positions *)

(** The globals [screen_Columns], [screen_Rows], [ScreenLines] (NULL before
    the screen is allocated) and [LineOffset] of [screen.c]. *)
Class Screen := {
  screen_Columns : Z;
  screen_Rows : Z;
  ScreenLines : option (list byte);
  LineOffset : list Z
}.

Section ScreenPositions.
Context {SC : Screen}.

(** [check_col]: check bounds for a column number. *)
Definition check_col (col : Z) : Z :=
  if col <? 0 then 0
  else if col >=? screen_Columns then screen_Columns - 1
  else col.

(** [check_row]: check bounds for a row number. *)
Definition check_row (row : Z) : Z :=
  if row <? 0 then 0
  else if row >=? screen_Rows then screen_Rows - 1
  else row.

(** [mb_fix_col]: the column, moved to the left half when it is the right
    half of a double-wide character. *)
Definition mb_fix_col (col row : Z) : Z :=
  let col := check_col col in
  let row := check_row row in
  match ScreenLines with
  | Some lines =>
      if (col >? 0) && (lines.[nth (Z.to_nat row) LineOffset 0 + col] =? 0)
      then col - 1
      else col
  | None => col
  end.

End ScreenPositions.

(** ** Comparing without case *)

Section Comparison.
Context {CT : CaseTables}.

(** How the first loop of [utf_strnicmp] ends: with a [return cdiff], or
    with a [break] that leaves the last two characters read, the cursors
    and the counts. *)
Inductive scan_result :=
| Returned (cdiff : Z)
| Stopped (c1 s1 n1 c2 s2 n2 : Z).

(** The [for (;;)] of [utf_strnicmp]: the strings are [b1] and [b2], the
    cursors the offsets [s1] and [s2].  Every round that goes on has read
    a character from both, so the counts shrink (lemma
    [utf_strnicmp_scan_ends]). *)
Fixpoint utf_strnicmp_scan (fuel : nat) (b1 b2 : list byte)
    (s1 s2 n1 n2 : Z) : option scan_result :=
  match fuel with
  | O => None
  | S fuel' =>
      let '(c1, s1, n1) := utf_safe_read_char_adv b1 s1 n1 in
      let '(c2, s2, n2) := utf_safe_read_char_adv b2 s2 n2 in
      if (c1 <=? 0) || (c2 <=? 0) then Some (Stopped c1 s1 n1 c2 s2 n2)
      else if c1 =? c2 then utf_strnicmp_scan fuel' b1 b2 s1 s2 n1 n2
      else
        match utf_fold c1, utf_fold c2 with
        | Some f1, Some f2 =>
            let cdiff := f1 - f2 in
            if negb (cdiff =? 0) then Some (Returned cdiff)
            else utf_strnicmp_scan fuel' b1 b2 s1 s2 n1 n2
        | _, _ => None
        end
  end.

(** The bytewise [while] of [utf_strnicmp] with what follows it. *)
Fixpoint utf_strnicmp_bytes (fuel : nat) (s1 s2 : list byte) (n1 n2 : Z)
    : option Z :=
  match fuel with
  | O => None
  | S fuel' =>
      if (n1 >? 0) && (n2 >? 0) && negb (s1.[0] =? NUL) && negb (s2.[0] =? NUL)
      then
        let cdiff := s1.[0] - s2.[0] in
        if negb (cdiff =? 0) then Some cdiff
        else utf_strnicmp_bytes fuel' (ptr_add s1 1) (ptr_add s2 1)
                                (n1 - 1) (n2 - 1)
      else
        let n1 := if (n1 >? 0) && (s1.[0] =? NUL) then 0 else n1 in
        let n2 := if (n2 >? 0) && (s2.[0] =? NUL) then 0 else n2 in
        if (n1 =? 0) && (n2 =? 0) then Some 0
        else Some (if n1 =? 0 then -1 else 1)
  end.

(** [utf_strnicmp]: compare [n1] bytes of [b1] with [n2] bytes of [b2],
    ignoring case by simple case folding. *)
Definition utf_strnicmp (b1 b2 : list byte) (n1 n2 : Z) : option Z :=
  match utf_strnicmp_scan (S (Z.to_nat n1 + Z.to_nat n2)) b1 b2 0 0 n1 n2 with
  | None => None
  | Some (Returned cdiff) => Some cdiff
  | Some (Stopped c1 s1 n1 c2 s2 n2) =>
      if (c1 =? 0) || (c2 =? 0) then
        (* some string ended, the shorter string is smaller *)
        if (c1 =? 0) && (c2 =? 0) then Some 0
        else Some (if c1 =? 0 then -1 else 1)
      else
        let fuel := S (Z.to_nat n1 + Z.to_nat n2 + 6) in
        if negb (c1 =? -1) && (c2 =? -1) then
          match utf_fold c1 with
          | Some f =>
              let '(len, buffer) := utf_char2bytes f in
              utf_strnicmp_bytes fuel buffer (ptr_add b2 s2) len n2
          | None => None
          end
        else if negb (c2 =? -1) && (c1 =? -1) then
          match utf_fold c2 with
          | Some f =>
              let '(len, buffer) := utf_char2bytes f in
              utf_strnicmp_bytes fuel (ptr_add b1 s1) buffer n1 len
          | None => None
          end
        else
          utf_strnicmp_bytes fuel (ptr_add b1 s1) (ptr_add b2 s2) n1 n2
  end.

End Comparison.

(** The result of the first loop with the roles of the two strings
    swapped. *)
Definition scan_mirror (r : scan_result) : scan_result :=
  match r with
  | Returned cdiff => Returned (- cdiff)
  | Stopped c1 s1 n1 c2 s2 n2 => Stopped c2 s2 n2 c1 s1 n1
  end.

(** ** Sample surroundings

    Concrete values for what the file takes from the rest of the editor,
    used to run the definitions on examples. *)

Definition sample_tables : UnicodeTables := {|
  combining := [ {| first := 0x0300; last := 0x036f |};
                 {| first := 0x0483; last := 0x0489 |} ];
  doublewidth := [ {| first := 0x1100; last := 0x115f |};
                   {| first := 0x2e80; last := 0xa4cf |} ];
  ambiguous := [ {| first := 0x00a1; last := 0x00a1 |};
                 {| first := 0x00a4; last := 0x00a4 |} ];
  emoji_width := [ {| first := 0x1f1e6; last := 0x1f1ff |} ]
|}.

Definition sample_arabic : Arabic :=
  let alef (c : Z) :=
    (c =? 0x0622) || (c =? 0x0623) || (c =? 0x0625) || (c =? 0x0627) in
  {| arabic_maycombine := alef;
     arabic_combine := fun one two => (one =? 0x0644) && alef two |}.

Definition sample_display : Display := {|
  USE_WCHAR_FUNCTIONS := false;
  wcwidth := fun _ => 1;
  iswprint := fun _ => true;
  p_emoji := true;
  p_ambw := "single";
  vim_isprintc := fun c => ((0x20 <=? c) && (c <? 0x7f)) || (0xa0 <=? c)
|}.

Definition sample_constants : EncConstants := {|
  ENC_8BIT := 0x01; ENC_DBCS := 0x02; ENC_UNICODE := 0x04;
  ENC_ENDIAN_B := 0x10; ENC_ENDIAN_L := 0x20;
  ENC_2BYTE := 0x40; ENC_4BYTE := 0x80; ENC_2WORD := 0x100;
  ENC_LATIN1 := 0x200; ENC_LATIN9 := 0x400; ENC_MACROMAN := 0x800;
  DBCS_JPN := 932; DBCS_JPNU := 9932; DBCS_KOR := 949; DBCS_KORU := 9949;
  DBCS_CHS := 936; DBCS_CHSU := 9936; DBCS_CHT := 950; DBCS_CHTU := 9950;
  DBCS_DEBUG := -1
|}.

Definition sample_globals : Globals := {| fenc_default := "utf-8" |}.

Definition sample_converter : ExternalConverter := {|
  USE_ICONV := false;
  my_iconv_open := fun _ _ => -1;
  iconv_string := fun _ _ _ unconvlenp lenp =>
    {| retval := None; lenp_out := lenp; unconvlenp_out := unconvlenp |}
|}.

Definition vimconv_init : vimconv_T :=
  {| vc_type := CONV_NONE; vc_factor := 1; vc_fd := -1; vc_fail := false |}.

(** [sample_display] with 'ambiwidth' set to "double". *)
Definition sample_display_double : Display := {|
  USE_WCHAR_FUNCTIONS := false;
  wcwidth := fun _ => 1;
  iswprint := fun _ => true;
  p_emoji := true;
  p_ambw := "double";
  vim_isprintc := fun c => ((0x20 <=? c) && (c <? 0x7f)) || (0xa0 <=? c)
|}.

(** [char2cells] for a printable ASCII character. *)
Definition sample_charset : Charset := {|
  char2cells := fun c => if (0x20 <=? c) && (c <? 0x7f) then 1 else 2
|}.

(** UTF-8 as the encoding, as everywhere in the editor. *)
Definition sample_encoding : Encoding := {|
  enc_utf8 := true;
  mb_ptr2char := utf_ptr2char;
  mb_ptr2len := utf_ptr2len;
  mb_head_off := fun _ _ => 0
|}.

(** A few ranges of the case tables. *)
Definition sample_case_tables : CaseTables := {|
  foldCase := [ {| rangeStart := 0x41; rangeEnd := 0x5a; step := 1; offset := 32 |};
                {| rangeStart := 0xc0; rangeEnd := 0xd6; step := 1; offset := 32 |};
                {| rangeStart := 0x100; rangeEnd := 0x12e; step := 2; offset := 1 |} ];
  toLower := [ {| rangeStart := 0x41; rangeEnd := 0x5a; step := 1; offset := 32 |};
               {| rangeStart := 0x100; rangeEnd := 0x12e; step := 2; offset := 1 |} ];
  toUpper := [ {| rangeStart := 0x61; rangeEnd := 0x7a; step := 1; offset := -32 |};
               {| rangeStart := 0x101; rangeEnd := 0x12f; step := 2; offset := -1 |} ]
|}.

(** A screen of 24 lines of 80 columns, not allocated yet. *)
Definition sample_screen : Screen := {|
  screen_Columns := 80;
  screen_Rows := 24;
  ScreenLines := None;
  LineOffset := []
|}.

(** * Properties *)

(** ** The definitions at work *)

Example utf_char2bytes_euro :
  utf_char2bytes 0x20AC = (3, [Byte.xe2; Byte.x82; Byte.xac]).
Proof. vm_compute. reflexivity. Qed.

Example utf_ptr2char_overlong_NUL :
  utf_ptr2char [Byte.xc0; Byte.x80] = 0.
Proof. vm_compute. reflexivity. Qed.

Example utf_ptr2len_illegal_trail :
  utf_ptr2len [Byte.xe2; Byte.x41; Byte.xac] = 1.
Proof. vm_compute. reflexivity. Qed.

Example utf_safe_read_truncated :
  utf_safe_read_char_adv [Byte.xe2; Byte.x82; Byte.xac] 0 2 = (-1, 0, 2).
Proof. vm_compute. reflexivity. Qed.

Example utfc_ptr2char_two_accents :
  @utfc_ptr2char sample_tables sample_arabic
    [Byte.x61; Byte.xcc; Byte.x81; Byte.xcc; Byte.x82; Byte.x62]
    [7; 7; 7; 7; 7; 7]
  = Some (0x61, [0x301; 0x302; 0; 7; 7; 7]).
Proof. vm_compute. reflexivity. Qed.

Example utf_char2cells_ideographic_space :
  @utf_char2cells sample_tables sample_display 0x3000 = 2.
Proof. vm_compute. reflexivity. Qed.

Example enc_canonize_iso :
  @enc_canonize sample_constants sample_globals "ISO8859_15" = "iso-8859-15"%string.
Proof. vm_compute. reflexivity. Qed.

Example string_convert_latin9_euro :
  @string_convert sample_tables sample_display sample_converter
    {| vc_type := CONV_9_TO_UTF8; vc_factor := 3; vc_fd := -1; vc_fail := false |}
    [Byte.xa4] (Some 1)
  = Some {| retval := Some [Byte.xe2; Byte.x82; Byte.xac];
            lenp_out := Some 3; unconvlenp_out := None |}.
Proof. vm_compute. reflexivity. Qed.

(** ** Bytes, tables and bit patterns *)

(** A boolean property checked on every value of a range holds on the range. *)
Lemma Z_range_forallb (P : Z -> bool) (lo : Z) (n : nat) :
  forallb P (map (fun i => lo + Z.of_nat i) (seq 0 n)) = true ->
  forall b, lo <= b < lo + Z.of_nat n -> P b = true.
Proof.
  intros Hall b Hb.
  rewrite forallb_forall in Hall. apply Hall.
  apply in_map_iff. exists (Z.to_nat (b - lo)). split; [lia|].
  apply in_seq. lia.
Qed.

Lemma peek_range (p : list byte) (i : Z) : 0 <= p.[i] < 256.
Proof. unfold peek. apply byte.unsigned_range. Qed.

Lemma peek_nil (i : Z) : [].[i] = 0.
Proof. unfold peek. destruct (Z.to_nat i); reflexivity. Qed.

Lemma peek_cons_0 (b : byte) (p : list byte) : (b :: p).[0] = byte.unsigned b.
Proof. reflexivity. Qed.

Lemma peek_cons_pos (b : byte) (p : list byte) (i : Z) :
  0 < i -> (b :: p).[i] = p.[i - 1].
Proof.
  intros Hi. unfold peek.
  replace (Z.to_nat i) with (S (Z.to_nat (i - 1))) by lia. reflexivity.
Qed.

Lemma peek_ptr_add (p : list byte) (n i : Z) :
  0 <= n -> 0 <= i -> (ptr_add p n).[i] = p.[n + i].
Proof.
  intros Hn Hi. unfold peek, ptr_add.
  rewrite nth_skipn. f_equal. f_equal. lia.
Qed.

Lemma unsigned_of_Z_small (z : Z) :
  0 <= z < 256 -> byte.unsigned (byte.of_Z z) = z.
Proof.
  intros Hz. rewrite byte.unsigned_of_Z. unfold byte.wrap.
  apply Z.mod_small. lia.
Qed.

(** The two tables by ranges of the lead byte. *)
Lemma utf8len_tab_spec (b : Z) :
  0 <= b < 256 ->
  tab_at utf8len_tab b =
    if b <? 0xc0 then 1 else if b <? 0xe0 then 2 else if b <? 0xf0 then 3
    else if b <? 0xf8 then 4 else if b <? 0xfc then 5
    else if b <? 0xfe then 6 else 1.
Proof.
  intros Hb. apply Z.eqb_eq.
  apply (Z_range_forallb
           (fun b => tab_at utf8len_tab b =?
              (if b <? 0xc0 then 1 else if b <? 0xe0 then 2
               else if b <? 0xf0 then 3 else if b <? 0xf8 then 4
               else if b <? 0xfc then 5 else if b <? 0xfe then 6 else 1))
           0 256); [vm_compute; reflexivity | lia].
Qed.

Lemma utf8len_tab_zero_spec (b : Z) :
  0 <= b < 256 ->
  tab_at utf8len_tab_zero b =
    if b <? 0x80 then 1 else if b <? 0xc0 then 0 else if b <? 0xe0 then 2
    else if b <? 0xf0 then 3 else if b <? 0xf8 then 4
    else if b <? 0xfc then 5 else if b <? 0xfe then 6 else 0.
Proof.
  intros Hb. apply Z.eqb_eq.
  apply (Z_range_forallb
           (fun b => tab_at utf8len_tab_zero b =?
              (if b <? 0x80 then 1 else if b <? 0xc0 then 0
               else if b <? 0xe0 then 2 else if b <? 0xf0 then 3
               else if b <? 0xf8 then 4 else if b <? 0xfc then 5
               else if b <? 0xfe then 6 else 0))
           0 256); [vm_compute; reflexivity | lia].
Qed.

(** Both tables agree wherever [utf8len_tab] announces a multi-byte
    character. *)
Lemma utf8len_tab_zero_multi (b : Z) :
  0 <= b < 256 -> tab_at utf8len_tab b <> 1 ->
  tab_at utf8len_tab_zero b = tab_at utf8len_tab b.
Proof.
  intros Hb. rewrite utf8len_tab_spec, utf8len_tab_zero_spec by lia.
  repeat match goal with |- context [?x <? ?y] => destruct (Z.ltb_spec x y) end;
    try lia; congruence.
Qed.

Lemma tab_at_range (b : Z) : 0 <= b < 256 -> 0 <= tab_at utf8len_tab_zero b <= 6.
Proof.
  intros Hb. rewrite utf8len_tab_zero_spec by lia.
  repeat match goal with |- context [?x <? ?y] => destruct (Z.ltb_spec x y) end; lia.
Qed.

(** Bit patterns of trail and lead bytes. *)
Lemma land_c0_trail (b : Z) :
  0 <= b < 256 -> (b & 0xc0 =? 0x80) = (0x80 <=? b) && (b <? 0xc0).
Proof.
  intros Hb.
  pose proof (Z_range_forallb
    (fun b => Bool.eqb (b & 0xc0 =? 0x80) ((0x80 <=? b) && (b <? 0xc0))) 0 256) as H.
  specialize (H ltac:(vm_compute; reflexivity) b ltac:(lia)).
  apply Bool.eqb_prop in H. exact H.
Qed.

Lemma land_3f (x : Z) : x & 0x3f = x mod 64.
Proof. change 0x3f with (Z.ones 6). rewrite Z.land_ones by lia. reflexivity. Qed.

Lemma land_1f (x : Z) : x & 0x1f = x mod 32.
Proof. change 0x1f with (Z.ones 5). rewrite Z.land_ones by lia. reflexivity. Qed.

Lemma land_0f (x : Z) : x & 0x0f = x mod 16.
Proof. change 0x0f with (Z.ones 4). rewrite Z.land_ones by lia. reflexivity. Qed.

Lemma land_07 (x : Z) : x & 0x07 = x mod 8.
Proof. change 0x07 with (Z.ones 3). rewrite Z.land_ones by lia. reflexivity. Qed.

Lemma land_03 (x : Z) : x & 0x03 = x mod 4.
Proof. change 0x03 with (Z.ones 2). rewrite Z.land_ones by lia. reflexivity. Qed.

Lemma land_01 (x : Z) : x & 0x01 = x mod 2.
Proof. change 0x01 with (Z.ones 1). rewrite Z.land_ones by lia. reflexivity. Qed.

(** ** Decoding well-formed sequences *)

Ltac peeks :=
  repeat first
    [ rewrite peek_cons_0
    | rewrite peek_cons_pos by lia; simpl (_ - 1) ];
  repeat rewrite unsigned_of_Z_small by lia.

Ltac ltb_cases :=
  repeat match goal with
         | |- context [?x <? ?y] => destruct (Z.ltb_spec x y); try lia
         | |- context [?x >? ?y] => rewrite (Z.gtb_ltb x y)
         | |- context [?x =? ?y] => destruct (Z.eqb_spec x y); try lia
         end.

Lemma trail_ok (x : Z) : 0 <= x < 64 -> ((0x80 + x) & 0xc0 =? 0x80) = true.
Proof. intros H. rewrite land_c0_trail by lia. lia. Qed.

Lemma trail_payload (x : Z) : 0 <= x < 64 -> (0x80 + x) & 0x3f = x.
Proof. intros H. rewrite land_3f. Z.div_mod_to_equations. lia. Qed.

Ltac decode_tac :=
  unfold utf_ptr2char; peeks;
  rewrite utf8len_tab_zero_spec by lia;
  rewrite !trail_ok, !trail_payload by lia;
  rewrite ?land_1f, ?land_0f, ?land_07, ?land_03, ?land_01;
  rewrite !Z.shiftl_mul_pow2 by lia;
  ltb_cases; simpl; Z.div_mod_to_equations; lia.

Ltac ptr2len_tac :=
  unfold utf_ptr2len, NUL; peeks;
  rewrite utf8len_tab_spec by lia;
  ltb_cases; simpl; peeks;
  rewrite ?trail_ok by lia; reflexivity.

Lemma decode1 (c : Z) (rest : list byte) :
  0 < c < 0x80 ->
  utf_ptr2char (byte.of_Z c :: rest) = c
  /\ utf_ptr2len (byte.of_Z c :: rest) = 1.
Proof.
  intros H.
  split; [unfold utf_ptr2char; peeks; ltb_cases; reflexivity | ptr2len_tac].
Qed.

(** A trail byte carrying the six bits [q]. *)
Local Abbreviation trail q := (byte.of_Z (0x80 + q)).
Local Abbreviation six q := (0 <= q < 64) (only parsing).

Lemma decode2 (q1 q0 : Z) (rest : list byte) :
  0 <= q1 < 32 -> six q0 ->
  utf_ptr2char (byte.of_Z (0xc0 + q1) :: trail q0 :: rest) = q1 * 64 + q0
  /\ utf_ptr2len (byte.of_Z (0xc0 + q1) :: trail q0 :: rest) = 2.
Proof. intros. split; [decode_tac | ptr2len_tac]. Qed.

Lemma decode3 (q2 q1 q0 : Z) (rest : list byte) :
  0 <= q2 < 16 -> six q1 -> six q0 ->
  utf_ptr2char (byte.of_Z (0xe0 + q2) :: trail q1 :: trail q0 :: rest)
  = q2 * 4096 + q1 * 64 + q0
  /\ utf_ptr2len (byte.of_Z (0xe0 + q2) :: trail q1 :: trail q0 :: rest) = 3.
Proof. intros. split; [decode_tac | ptr2len_tac]. Qed.

Lemma decode4 (q3 q2 q1 q0 : Z) (rest : list byte) :
  0 <= q3 < 8 -> six q2 -> six q1 -> six q0 ->
  utf_ptr2char (byte.of_Z (0xf0 + q3) :: trail q2 :: trail q1 :: trail q0 :: rest)
  = q3 * 262144 + q2 * 4096 + q1 * 64 + q0
  /\ utf_ptr2len (byte.of_Z (0xf0 + q3) :: trail q2 :: trail q1 :: trail q0
                  :: rest) = 4.
Proof. intros. split; [decode_tac | ptr2len_tac]. Qed.

Lemma decode5 (q4 q3 q2 q1 q0 : Z) (rest : list byte) :
  0 <= q4 < 4 -> six q3 -> six q2 -> six q1 -> six q0 ->
  utf_ptr2char (byte.of_Z (0xf8 + q4) :: trail q3 :: trail q2 :: trail q1
                :: trail q0 :: rest)
  = q4 * 16777216 + q3 * 262144 + q2 * 4096 + q1 * 64 + q0
  /\ utf_ptr2len (byte.of_Z (0xf8 + q4) :: trail q3 :: trail q2 :: trail q1
                  :: trail q0 :: rest) = 5.
Proof. intros. split; [decode_tac | ptr2len_tac]. Qed.

Lemma decode6 (q5 q4 q3 q2 q1 q0 : Z) (rest : list byte) :
  0 <= q5 < 2 -> six q4 -> six q3 -> six q2 -> six q1 -> six q0 ->
  utf_ptr2char (byte.of_Z (0xfc + q5) :: trail q4 :: trail q3 :: trail q2
                :: trail q1 :: trail q0 :: rest)
  = q5 * 1073741824 + q4 * 16777216 + q3 * 262144 + q2 * 4096 + q1 * 64 + q0
  /\ utf_ptr2len (byte.of_Z (0xfc + q5) :: trail q4 :: trail q3 :: trail q2
                  :: trail q1 :: trail q0 :: rest) = 6.
Proof. intros. split; [decode_tac | ptr2len_tac]. Qed.

(** ** The bytes [utf_char2bytes] stores *)

Lemma to_unsigned_nonneg (c : Z) : 0 <= c <= 0x7FFFFFFF -> to_unsigned c = c.
Proof. intros H. unfold to_unsigned. apply Z.mod_small. lia. Qed.

Lemma utf_char2bytes_spec (c : Z) :
  0 <= c <= 0x7FFFFFFF ->
  utf_char2bytes c =
    let t (k : Z) := byte.of_Z (0x80 + (c / 2 ^ k) mod 64) in
    if c <? 0x80 then (1, [byte.of_Z c])
    else if c <? 0x800 then (2, [byte.of_Z (0xc0 + c / 2 ^ 6); t 0])
    else if c <? 0x10000 then (3, [byte.of_Z (0xe0 + c / 2 ^ 12); t 6; t 0])
    else if c <? 0x200000 then
      (4, [byte.of_Z (0xf0 + c / 2 ^ 18); t 12; t 6; t 0])
    else if c <? 0x4000000 then
      (5, [byte.of_Z (0xf8 + c / 2 ^ 24); t 18; t 12; t 6; t 0])
    else (6, [byte.of_Z (0xfc + c / 2 ^ 30); t 24; t 18; t 12; t 6; t 0]).
Proof.
  intros H. unfold utf_char2bytes. rewrite to_unsigned_nonneg by lia.
  rewrite !land_3f, !Z.shiftr_div_pow2 by lia.
  cbv beta zeta. change (2 ^ 0) with 1. rewrite Z.div_1_r. reflexivity.
Qed.

(** Encoding then decoding, for every positive 31-bit value. *)
Lemma roundtrip_31bit (c : Z) (rest : list byte) :
  0 < c <= 0x7FFFFFFF ->
  utf_ptr2char (snd (utf_char2bytes c) ++ rest) = c
  /\ utf_ptr2len (snd (utf_char2bytes c) ++ rest) = fst (utf_char2bytes c).
Proof.
  intros H. rewrite utf_char2bytes_spec by lia. cbv beta zeta.
  change (2 ^ 0) with 1. rewrite Z.div_1_r.
  ltb_cases; cbn [fst snd app].
  - apply decode1. lia.
  - replace c with (c / 2 ^ 6 * 64 + c mod 64) at 3
      by (Z.div_mod_to_equations; lia).
    apply decode2; Z.div_mod_to_equations; lia.
  - replace c with (c / 2 ^ 12 * 4096 + (c / 2 ^ 6) mod 64 * 64 + c mod 64) at 4
      by (Z.div_mod_to_equations; lia).
    apply decode3; Z.div_mod_to_equations; lia.
  - replace c with (c / 2 ^ 18 * 262144 + (c / 2 ^ 12) mod 64 * 4096
                    + (c / 2 ^ 6) mod 64 * 64 + c mod 64) at 5
      by (Z.div_mod_to_equations; lia).
    apply decode4; Z.div_mod_to_equations; lia.
  - replace c with (c / 2 ^ 24 * 16777216 + (c / 2 ^ 18) mod 64 * 262144
                    + (c / 2 ^ 12) mod 64 * 4096
                    + (c / 2 ^ 6) mod 64 * 64 + c mod 64) at 6
      by (Z.div_mod_to_equations; lia).
    apply decode5; Z.div_mod_to_equations; lia.
  - replace c with (c / 2 ^ 30 * 1073741824 + (c / 2 ^ 24) mod 64 * 16777216
                    + (c / 2 ^ 18) mod 64 * 262144
                    + (c / 2 ^ 12) mod 64 * 4096
                    + (c / 2 ^ 6) mod 64 * 64 + c mod 64) at 7
      by (Z.div_mod_to_equations; lia).
    apply decode6; Z.div_mod_to_equations; lia.
Qed.

(** ** Reads stay inside the announced length *)

Lemma peek_firstn (p : list byte) (n i : Z) :
  0 <= i < n -> (firstn (Z.to_nat n) p).[i] = p.[i].
Proof.
  intros Hi. unfold peek. rewrite nth_firstn.
  destruct (Nat.ltb_spec (Z.to_nat i) (Z.to_nat n)); [reflexivity | lia].
Qed.

(** Buffers with the same first [n] bytes have the same [p[i]] below [n]. *)
Lemma firstn_peek (p q : list byte) (n i : Z) :
  firstn (Z.to_nat n) p = firstn (Z.to_nat n) q -> 0 <= i < n ->
  p.[i] = q.[i].
Proof.
  intros Heq Hi.
  rewrite <- (peek_firstn p n i), <- (peek_firstn q n i) by lia.
  rewrite Heq. reflexivity.
Qed.

Lemma trail_scan_true (p : list byte) (count : nat) (i : Z) :
  (forall j, i <= j < i + Z.of_nat count -> (p.[j] & 0xc0) = 0x80) ->
  trail_scan p i count = true.
Proof.
  revert i. induction count as [|count IH]; intros i Hall; [reflexivity|].
  simpl. rewrite (Hall i) by lia. simpl. apply IH. intros j Hj. apply Hall. lia.
Qed.

Lemma trail_scan_ext (p q : list byte) (count : nat) (i : Z) :
  (forall j, i <= j < i + Z.of_nat count -> p.[j] = q.[j]) ->
  trail_scan p i count = trail_scan q i count.
Proof.
  revert i. induction count as [|count IH]; intros i Hall; [reflexivity|].
  simpl. rewrite (Hall i) by lia.
  destruct (negb _); [reflexivity|]. apply IH. intros j Hj. apply Hall. lia.
Qed.

(** [utf_ptr2char] reads the lead byte and, for a lead byte of declared
    length [len], at most the [len - 1] bytes behind it. *)
Lemma utf_ptr2char_ext (p q : list byte) :
  p.[0] = q.[0] ->
  (forall i, 1 <= i < tab_at utf8len_tab_zero p.[0] -> p.[i] = q.[i]) ->
  utf_ptr2char p = utf_ptr2char q.
Proof.
  intros H0 Hi. unfold utf_ptr2char. rewrite <- H0.
  pose proof (tab_at_range p.[0] (peek_range p 0)) as Hlen.
  set (len := tab_at utf8len_tab_zero p.[0]) in *.
  assert (len = 0 \/ len = 1 \/ len = 2 \/ len = 3 \/ len = 4 \/ len = 5 \/ len = 6)
    as Hcases by lia.
  destruct (p.[0] <? 0x80); [reflexivity|].
  destruct Hcases as [E|[E|[E|[E|[E|[E|E]]]]]]; rewrite E in *; simpl;
    try reflexivity;
    rewrite <- ?(Hi 1), <- ?(Hi 2), <- ?(Hi 3), <- ?(Hi 4), <- ?(Hi 5) by lia;
    reflexivity.
Qed.

(** A decoded character is never negative: -1 is free for "invalid". *)
Lemma utf_ptr2char_nonneg (p : list byte) : 0 <= utf_ptr2char p.
Proof.
  unfold utf_ptr2char.
  pose proof (peek_range p 0).
  repeat match goal with
         | |- context [if ?b then _ else _] => destruct b
         end; try lia;
    repeat apply Z.add_nonneg_nonneg;
    try (apply Z.shiftl_nonneg); apply Z.land_nonneg; right; lia.
Qed.

(** ** The codec: claims C1, C2, C3, C4, C6 *)

(** C1, as the code has it: for every codepoint c in 1..0x10FFFF outside the
    surrogate range 0xD800..0xDFFF, whatever bytes follow in the buffer,
    decoding the bytes [utf_char2bytes] stores yields c back and
    [utf_ptr2len] returns the number of bytes stored; for c = 0 the decoded
    value is 0 as well, but [utf_ptr2len] returns 0, the length of the empty
    string, where one byte was stored; and 0x20AC is stored as E2 82 AC,
    which decode to 0x20AC with length 3. *)
Theorem utf_roundtrip :
  (forall (c : Z) (rest : list byte),
      0 < c <= 0x10FFFF -> ~ (0xD800 <= c <= 0xDFFF) ->
      utf_ptr2char (snd (utf_char2bytes c) ++ rest) = c
      /\ utf_ptr2len (snd (utf_char2bytes c) ++ rest) = fst (utf_char2bytes c)
      /\ fst (utf_char2bytes c) = Z.of_nat (length (snd (utf_char2bytes c))))
  /\ (utf_char2bytes 0 = (1, [Byte.x00])
      /\ utf_ptr2char [Byte.x00] = 0 /\ utf_ptr2len [Byte.x00] = 0)
  /\ (utf_char2bytes 0x20AC = (3, [Byte.xe2; Byte.x82; Byte.xac])
      /\ utf_ptr2char [Byte.xe2; Byte.x82; Byte.xac] = 0x20AC
      /\ utf_ptr2len [Byte.xe2; Byte.x82; Byte.xac] = 3).
Proof.
  split; [|split].
  - intros c rest Hc _.
    destruct (roundtrip_31bit c rest ltac:(lia)) as [Hchar Hlen].
    repeat split; [exact Hchar | exact Hlen |].
    rewrite utf_char2bytes_spec by lia. cbv beta zeta.
    ltb_cases; reflexivity.
  - repeat split; vm_compute; reflexivity.
  - repeat split; vm_compute; reflexivity.
Qed.

Lemma utf_roundtrip_witness :
  utf_ptr2char (snd (utf_char2bytes 0x20AC) ++ [Byte.x41]) = 0x20AC
  /\ utf_ptr2len (snd (utf_char2bytes 0x20AC) ++ [Byte.x41])
     = fst (utf_char2bytes 0x20AC)
  /\ fst (utf_char2bytes 0x20AC)
     = Z.of_nat (length (snd (utf_char2bytes 0x20AC))).
Proof.
  apply (proj1 utf_roundtrip 0x20AC [Byte.x41]); lia.
Defined.

(** C1 as stated fails at the codepoint 0: one byte is stored, and
    [utf_ptr2len] on it returns 0. *)
Lemma utf_roundtrip_fails_at_NUL :
  0 <= 0 <= 0x10FFFF /\ ~ (0xD800 <= 0 <= 0xDFFF)
  /\ fst (utf_char2bytes 0) = 1
  /\ utf_ptr2len (snd (utf_char2bytes 0)) <> fst (utf_char2bytes 0).
Proof.
  repeat split; try lia; vm_compute; congruence.
Qed.

(** C6: for every codepoint c in 0..0x7FFFFFFF the number of bytes
    [utf_char2bytes] produces is the length [utf8len_tab] gives for the first
    produced byte, it is at most 6, and it changes at 0x80, 0x800, 0x10000,
    0x200000 and 0x4000000, as [utf_char2len] has them. *)
Theorem utf_char2bytes_shortest_form (c : Z) :
  0 <= c <= 0x7FFFFFFF ->
  let n := fst (utf_char2bytes c) in
  let buf := snd (utf_char2bytes c) in
  n = Z.of_nat (length buf)
  /\ n = tab_at utf8len_tab buf.[0]
  /\ n <= 6
  /\ n = (if c <? 0x80 then 1 else if c <? 0x800 then 2
          else if c <? 0x10000 then 3 else if c <? 0x200000 then 4
          else if c <? 0x4000000 then 5 else 6)
  /\ n = utf_char2len c.
Proof.
  intros Hc. cbv zeta. unfold utf_char2len.
  rewrite utf_char2bytes_spec by lia. cbv beta zeta.
  repeat match goal with
         | |- context [c <? ?y] => destruct (Z.ltb_spec c y)
         end; cbn [fst snd length]; (repeat split; try lia);
    peeks; rewrite ?unsigned_of_Z_small by (Z.div_mod_to_equations; lia);
    rewrite utf8len_tab_spec by (Z.div_mod_to_equations; lia);
    repeat match goal with
           | |- context [?x <? ?y] =>
               destruct (Z.ltb_spec x y); try (Z.div_mod_to_equations; lia)
           end.
Qed.

Lemma utf_char2bytes_shortest_form_witness :
  fst (utf_char2bytes 0x7FFFFFFF)
  = tab_at utf8len_tab (snd (utf_char2bytes 0x7FFFFFFF)).[0]
  /\ fst (utf_char2bytes 0x7FFFFFFF) = 6.
Proof.
  destruct (utf_char2bytes_shortest_form 0x7FFFFFFF ltac:(lia))
    as (_ & Htab & _ & Hlen & _).
  split; [exact Htab | exact Hlen].
Defined.

(** C2: for a valid encoding E of length L (the lead byte announces L in
    2..6, the L - 1 bytes behind it are trail bytes) and 0 < k < L, the
    bounded length query on the first k bytes returns L, which is above k
    and is not 1. *)
Theorem utf_ptr2len_len_truncated (E : list byte) (L k : Z) :
  tab_at utf8len_tab E.[0] = L -> 2 <= L <= 6 ->
  (forall i, 1 <= i < L -> (E.[i] & 0xc0) = 0x80) ->
  0 < k < L ->
  utf_ptr2len_len (firstn (Z.to_nat k) E) k = L
  /\ utf_ptr2len_len E k = L
  /\ L > k /\ L <> 1.
Proof.
  intros Hlead HL Htrail Hk.
  assert (forall p : list byte,
             (forall i, 0 <= i < k -> p.[i] = E.[i]) ->
             utf_ptr2len_len p k = L) as Hgen.
  { intros p Hp. unfold utf_ptr2len_len.
    rewrite (Hp 0), Hlead by lia.
    destruct (Z.eqb_spec L 1); [lia|].
    rewrite Z.gtb_ltb. destruct (Z.ltb_spec k L); [|lia].
    rewrite trail_scan_true; [reflexivity|].
    intros j Hj. rewrite Hp by lia. apply Htrail. lia. }
  repeat split; try lia.
  - apply Hgen. intros i Hi. apply peek_firstn. lia.
  - apply Hgen. reflexivity.
Qed.

Lemma utf_ptr2len_len_truncated_witness :
  utf_ptr2len_len (firstn (Z.to_nat 2) [Byte.xe2; Byte.x82; Byte.xac]) 2 = 3
  /\ utf_ptr2len_len [Byte.xe2; Byte.x82; Byte.xac] 2 = 3
  /\ 3 > 2 /\ 3 <> 1.
Proof.
  apply (utf_ptr2len_len_truncated [Byte.xe2; Byte.x82; Byte.xac] 3 2).
  - reflexivity.
  - lia.
  - intros i Hi. assert (i = 1 \/ i = 2) as [-> | ->] by lia; reflexivity.
  - lia.
Defined.

(** C3: with the bytes C3 83 at the cursor and a remaining count of at least
    2, [utf_safe_read_char_adv] returns 0xC3, moves the cursor by 2 and
    lowers the count by 2; every other multi-byte read whose decoded value
    equals the lead byte is the invalid result -1 with cursor and count
    untouched. *)
Theorem utf_safe_read_char_adv_C3 :
  (forall (buf : list byte) (s n : Z),
      (ptr_add buf s).[0] = 0xC3 -> (ptr_add buf s).[1] = 0x83 -> 2 <= n ->
      utf_safe_read_char_adv buf s n = (0xC3, s + 2, n - 2))
  /\ (forall (buf : list byte) (s n : Z),
         n <> 0 -> tab_at utf8len_tab_zero (ptr_add buf s).[0] <> 1 ->
         utf_ptr2char (ptr_add buf s) = (ptr_add buf s).[0] ->
         ~ ((ptr_add buf s).[0] = 0xC3 /\ (ptr_add buf s).[1] = 0x83) ->
         utf_safe_read_char_adv buf s n = (-1, s, n)).
Proof.
  split.
  - intros buf s n H0 H1 Hn. unfold utf_safe_read_char_adv.
    assert (utf_ptr2char (ptr_add buf s) = 0xC3) as Hc.
    { unfold utf_ptr2char. rewrite H0, H1. reflexivity. }
    rewrite Hc, H0, H1.
    destruct (Z.eqb_spec n 0); [lia|].
    change (tab_at utf8len_tab_zero 195) with 2.
    destruct (Z.leb_spec 2 n); [|lia]. reflexivity.
  - intros buf s n Hn Hk Hc Hnot. unfold utf_safe_read_char_adv.
    rewrite Hc.
    destruct (Z.eqb_spec n 0); [lia|].
    destruct (Z.eqb_spec (tab_at utf8len_tab_zero (ptr_add buf s).[0]) 1); [lia|].
    destruct (_ <=? n); [|reflexivity].
    rewrite Z.eqb_refl. simpl.
    destruct (Z.eqb_spec (ptr_add buf s).[0] 195);
      destruct (Z.eqb_spec (ptr_add buf s).[1] 131); simpl; try reflexivity.
    tauto.
Qed.

Lemma utf_safe_read_char_adv_C3_witness :
  utf_safe_read_char_adv [Byte.x41; Byte.xc3; Byte.x83; Byte.x42] 1 3
  = (0xC3, 1 + 2, 3 - 2).
Proof.
  apply (proj1 utf_safe_read_char_adv_C3); [reflexivity | reflexivity | lia].
Defined.

(** C4: the result of [utf_safe_read_char_adv], the new cursor and the new
    count depend on the first n bytes at the cursor alone; a result of -1
    leaves cursor and count as they were; and the cursor never moves by more
    than the count, which drops by the same amount. *)
Theorem utf_safe_read_char_adv_bounded :
  (forall (b1 b2 : list byte) (s n : Z),
      0 <= n ->
      firstn (Z.to_nat n) (ptr_add b1 s) = firstn (Z.to_nat n) (ptr_add b2 s) ->
      utf_safe_read_char_adv b1 s n = utf_safe_read_char_adv b2 s n)
  /\ (forall (buf : list byte) (s n c s' n' : Z),
         utf_safe_read_char_adv buf s n = (c, s', n') ->
         c = -1 -> s' = s /\ n' = n)
  /\ (forall (buf : list byte) (s n c s' n' : Z),
         0 <= n ->
         utf_safe_read_char_adv buf s n = (c, s', n') ->
         0 <= s' - s <= n /\ n' = n - (s' - s)).
Proof.
  split; [|split].
  - intros b1 b2 s n Hn Heq. unfold utf_safe_read_char_adv.
    destruct (Z.eqb_spec n 0) as [|Hn0]; [reflexivity|].
    set (p := ptr_add b1 s) in *. set (q := ptr_add b2 s) in *.
    assert (forall i, 0 <= i < n -> p.[i] = q.[i]) as Hpq
      by (intros i Hi; apply (firstn_peek p q n i Heq Hi)).
    rewrite <- (Hpq 0) by lia.
    destruct (Z.eqb_spec (tab_at utf8len_tab_zero p.[0]) 1); [reflexivity|].
    destruct (Z.leb_spec (tab_at utf8len_tab_zero p.[0]) n) as [Hk|]; [|reflexivity].
    rewrite <- (utf_ptr2char_ext p q) by (try intros; apply Hpq; lia).
    destruct (Z.eqb_spec (utf_ptr2char p) p.[0]) as [Hc|]; [|reflexivity].
    destruct (Z.eqb_spec (utf_ptr2char p) 195) as [Hc3|]; [|reflexivity].
    assert (tab_at utf8len_tab_zero p.[0] = 2) as Hk2
      by (rewrite <- Hc, Hc3; reflexivity).
    rewrite <- (Hpq 1) by lia. reflexivity.
  - intros buf s n c s' n' Hrun Hc. subst c. unfold utf_safe_read_char_adv in Hrun.
    pose proof (utf_ptr2char_nonneg (ptr_add buf s)) as Hpos.
    pose proof (peek_range (ptr_add buf s) 0) as Hbyte.
    repeat match type of Hrun with
           | (if ?b then _ else _) = _ => destruct b
           end; inversion Hrun; subst; try lia; auto.
  - intros buf s n c s' n' Hn Hrun. unfold utf_safe_read_char_adv in Hrun.
    pose proof (tab_at_range (ptr_add buf s).[0] (peek_range _ 0)) as Hk.
    destruct (Z.eqb_spec n 0); [inversion Hrun; lia|].
    destruct (Z.eqb_spec (tab_at utf8len_tab_zero (ptr_add buf s).[0]) 1);
      [inversion Hrun; lia|].
    destruct (Z.leb_spec (tab_at utf8len_tab_zero (ptr_add buf s).[0]) n);
      [|inversion Hrun; lia].
    destruct (_ || _); inversion Hrun; lia.
Qed.

Lemma utf_safe_read_char_adv_bounded_witness :
  utf_safe_read_char_adv [Byte.xe2; Byte.x82; Byte.xac; Byte.x41] 0 2
  = utf_safe_read_char_adv [Byte.xe2; Byte.x82; Byte.x41] 0 2.
Proof.
  apply (proj1 utf_safe_read_char_adv_bounded); [lia | reflexivity].
Defined.

(** ** Composing characters: claim C5 *)

Section Composing.
Context {UT : UnicodeTables} {AR : Arabic}.

Lemma poke_length (pcc : list Z) (i v : Z) :
  length (poke pcc i v) = length pcc.
Proof. unfold poke. apply length_insert. Qed.

Lemma pcc_at_poke_same (pcc : list Z) (i v : Z) :
  (Z.to_nat i < length pcc)%nat -> pcc_at (poke pcc i v) i = v.
Proof.
  intros Hi. unfold pcc_at, poke.
  rewrite list_lookup_insert_eq by exact Hi. reflexivity.
Qed.

Lemma pcc_at_poke_other (pcc : list Z) (i j v : Z) :
  0 <= i -> 0 <= j -> i <> j -> pcc_at (poke pcc i v) j = pcc_at pcc j.
Proof.
  intros Hi Hj Hne. unfold pcc_at, poke.
  rewrite list_lookup_insert_ne by lia. reflexivity.
Qed.

Lemma utf_ptr2len_nonneg (p : list byte) : 0 <= utf_ptr2len p.
Proof.
  unfold utf_ptr2len. pose proof (peek_range p 0) as Hb.
  rewrite utf8len_tab_spec by exact Hb.
  repeat match goal with
         | |- context [if ?b then _ else _] => destruct b
         end; lia.
Qed.

Lemma utf_ptr2len_len_positive (p : list byte) (size : Z) :
  1 <= utf_ptr2len_len p size.
Proof.
  unfold utf_ptr2len_len. pose proof (peek_range p 0) as Hb.
  rewrite utf8len_tab_spec by exact Hb.
  repeat match goal with
         | |- context [if ?b then _ else _] => destruct b
         end; lia.
Qed.

(** A character of 0x80 or above starts with a byte of 0x80 or above. *)
Lemma utf_ptr2char_high (p : list byte) :
  0x80 <= utf_ptr2char p -> 0x80 <= p.[0].
Proof.
  unfold utf_ptr2char. destruct (Z.ltb_spec p.[0] 0x80); lia.
Qed.

(** The [for (;;)] of [utfc_ptr2char] ends within [MAX_MCO - i] rounds.
    It is entered with the composing character [cc], read at [len], to be
    stored in entry [i]; it leaves with the entries from [i] up to the new
    [i'] holding composing characters of the text and every other entry
    as it was. *)
Lemma utfc_ptr2char_loop_ends (fuel : nat) :
  forall (p : list byte) (len0 i len cc : Z) (pcc : list Z),
    0 <= i -> i + Z.of_nat fuel = MAX_MCO -> (0 < fuel)%nat ->
    (Z.to_nat MAX_MCO <= length pcc)%nat ->
    len0 <= len -> (i = 0 -> len = len0) ->
    0x80 <= p.[len] -> cc = utf_ptr2char (ptr_add p len) ->
    (if i =? 0 then utf_composinglike p (ptr_add p len)
     else utf_iscomposing cc) = true ->
    exists i' pcc',
      utfc_ptr2char_loop fuel p i len cc pcc = Some (i', pcc')
      /\ i < i' <= MAX_MCO
      /\ length pcc' = length pcc
      /\ (forall j, 0 <= j -> j < i \/ i' <= j -> pcc_at pcc' j = pcc_at pcc j)
      /\ (forall j, i <= j < i' -> composing_entry p len0 j (pcc_at pcc' j)).
Proof.
  induction fuel as [|fuel IH];
    intros p len0 i len cc pcc Hi Hfuel Hpos Hroom Hlen Hfirst Hhigh Hcc Hcomp;
    [lia|].
  cbn [utfc_ptr2char_loop].
  assert (composing_entry p len0 i cc) as Hentry
    by (exists len; repeat split; assumption).
  assert (pcc_at (poke pcc i cc) i = cc) as Hstored
    by (apply pcc_at_poke_same; unfold MAX_MCO in *; lia).
  assert (exists i' pcc',
             Some (i + 1, poke pcc i cc) = Some (i', pcc')
             /\ i < i' <= MAX_MCO
             /\ length pcc' = length pcc
             /\ (forall j, 0 <= j -> j < i \/ i' <= j ->
                           pcc_at pcc' j = pcc_at pcc j)
             /\ (forall j, i <= j < i' -> composing_entry p len0 j (pcc_at pcc' j)))
    as Hstop.
  { exists (i + 1), (poke pcc i cc). split; [reflexivity|].
    split; [unfold MAX_MCO in *; lia|]. split; [apply poke_length|]. split.
    - intros j Hj Hout. apply pcc_at_poke_other; lia.
    - intros j Hj. assert (j = i) as -> by lia. rewrite Hstored. exact Hentry. }
  destruct (Z.eqb_spec (i + 1) MAX_MCO) as [Hlast|Hmore]; [exact Hstop|].
  set (len' := len + utf_ptr2len (ptr_add p len)).
  destruct (Z.ltb_spec p.[len'] 0x80) as [|Hhigh']; [exact Hstop|].
  destruct (utf_iscomposing (utf_ptr2char (ptr_add p len'))) eqn:Hcomp';
    cbn [negb]; [|exact Hstop].
  pose proof (utf_ptr2len_nonneg (ptr_add p len)) as Hstep.
  destruct (IH p len0 (i + 1) len' (utf_ptr2char (ptr_add p len'))
              (poke pcc i cc))
    as (i' & pcc' & Hrun & Hi' & Hlen' & Hother & Hentries);
    try lia; try reflexivity.
  - rewrite poke_length. exact Hroom.
  - destruct (Z.eqb_spec (i + 1) 0); [lia | exact Hcomp'].
  - exists i', pcc'. split; [exact Hrun|]. split; [lia|].
    split; [rewrite Hlen'; apply poke_length|]. split.
    + intros j Hj Hout. rewrite Hother by lia. apply pcc_at_poke_other; lia.
    + intros j Hj. destruct (Z.eq_dec j i) as [->|]; [|apply Hentries; lia].
      rewrite Hother by lia. rewrite Hstored. exact Hentry.
Qed.

(** The [for (; i < MAX_MCO; i++)] of [utfc_ptr2char_len] ends within
    [MAX_MCO - i + 1] tests of its condition.  The round that leaves may
    have stored a character it did not accept in entry [i']; every entry
    below [i'] holds a composing character of the text, every entry above
    it is as it was. *)
Lemma utfc_ptr2char_len_loop_ends (fuel : nat) :
  forall (p : list byte) (maxlen len0 i len : Z) (pcc : list Z),
    0 <= i <= MAX_MCO -> i + Z.of_nat fuel = MAX_MCO + 1 ->
    (Z.to_nat MAX_MCO <= length pcc)%nat ->
    0 <= len0 <= len -> (i = 0 -> len = len0) ->
    exists i' pcc',
      utfc_ptr2char_len_loop fuel p maxlen i len pcc = Some (i', pcc')
      /\ i <= i' <= MAX_MCO
      /\ length pcc' = length pcc
      /\ (forall j, 0 <= j -> j < i \/ i' < j \/ MAX_MCO <= j ->
                    pcc_at pcc' j = pcc_at pcc j)
      /\ (forall j, i <= j < i' -> composing_entry p len0 j (pcc_at pcc' j)).
Proof.
  induction fuel as [|fuel IH];
    intros p maxlen len0 i len pcc Hi Hfuel Hroom Hlen Hfirst; [lia|].
  cbn [utfc_ptr2char_len_loop].
  assert (exists i' pcc',
             Some (i, pcc) = Some (i', pcc')
             /\ i <= i' <= MAX_MCO
             /\ length pcc' = length pcc
             /\ (forall j, 0 <= j -> j < i \/ i' < j \/ MAX_MCO <= j ->
                           pcc_at pcc' j = pcc_at pcc j)
             /\ (forall j, i <= j < i' -> composing_entry p len0 j (pcc_at pcc' j)))
    as Hstay.
  { exists i, pcc. split; [reflexivity|]. split; [lia|]. split; [reflexivity|].
    split; [reflexivity | intros j Hj; lia]. }
  destruct (Z.ltb_spec i MAX_MCO) as [Hlt|Hge]; [|exact Hstay].
  set (len_cc := utf_ptr2len_len (ptr_add p len) (maxlen - len)).
  destruct ((len_cc >? 1) && (len_cc <=? maxlen - len)) eqn:Hsafe;
    cbn [negb]; [|exact Hstay].
  apply andb_prop in Hsafe as [Hcc1 _]. apply Z.gtb_lt in Hcc1.
  set (v := utf_ptr2char (ptr_add p len)).
  assert (pcc_at (poke pcc i v) i = v) as Hstored
    by (apply pcc_at_poke_same; unfold MAX_MCO in *; lia).
  assert (exists i' pcc',
             Some (i, poke pcc i v) = Some (i', pcc')
             /\ i <= i' <= MAX_MCO
             /\ length pcc' = length pcc
             /\ (forall j, 0 <= j -> j < i \/ i' < j \/ MAX_MCO <= j ->
                           pcc_at pcc' j = pcc_at pcc j)
             /\ (forall j, i <= j < i' -> composing_entry p len0 j (pcc_at pcc' j)))
    as Hstop.
  { exists i, (poke pcc i v). split; [reflexivity|]. split; [lia|].
    split; [apply poke_length|]. split.
    - intros j Hj Hout. apply pcc_at_poke_other; lia.
    - intros j Hj. lia. }
  destruct (Z.ltb_spec v 0x80) as [|Hhigh]; [exact Hstop|].
  rewrite Hstored. unfold IS_COMPOSING.
  destruct (if i =? 0 then utf_composinglike p (ptr_add p len)
            else utf_iscomposing v) eqn:Hcomp; cbn [negb]; [|exact Hstop].
  assert (composing_entry p len0 i v) as Hentry.
  { exists len. split; [lia|]. split; [exact Hfirst|]. split.
    - pose proof (utf_ptr2char_high (ptr_add p len) Hhigh) as H0.
      rewrite peek_ptr_add, Z.add_0_r in H0 by lia. exact H0.
    - split; [reflexivity | exact Hcomp]. }
  destruct (IH p maxlen len0 (i + 1) (len + len_cc) (poke pcc i v))
    as (i' & pcc' & Hrun & Hi' & Hlen' & Hother & Hentries); try lia.
  - rewrite poke_length. exact Hroom.
  - exists i', pcc'. split; [exact Hrun|]. split; [lia|].
    split; [rewrite Hlen'; apply poke_length|]. split.
    + intros j Hj Hout. rewrite Hother by lia. apply pcc_at_poke_other; lia.
    + intros j Hj. destruct (Z.eq_dec j i) as [->|]; [|apply Hentries; lia].
      rewrite Hother by lia. rewrite Hstored. exact Hentry.
Qed.

(** The closing [if (i < MAX_MCO) pcc[i] = 0;], after a loop that left the
    entries below [i] with composing characters and those above [i] as
    they were. *)
Lemma terminator (p : list byte) (len0 i : Z) (pcc0 pcc : list Z) :
  0 <= i <= MAX_MCO ->
  (Z.to_nat MAX_MCO <= length pcc0)%nat ->
  length pcc = length pcc0 ->
  (forall j, 0 <= j -> i < j \/ MAX_MCO <= j -> pcc_at pcc j = pcc_at pcc0 j) ->
  (forall j, 0 <= j < i -> composing_entry p len0 j (pcc_at pcc j)) ->
  let pcc' := if i <? MAX_MCO then poke pcc i 0 else pcc in
  length pcc' = length pcc0
  /\ (forall j, i < j \/ 6 <= j -> pcc_at pcc' j = pcc_at pcc0 j)
  /\ (i < 6 -> pcc_at pcc' i = 0)
  /\ (forall j, 0 <= j < i -> composing_entry p len0 j (pcc_at pcc' j)).
Proof.
  intros Hi Hroom Hlen Hother Hentries. cbv zeta.
  destruct (Z.ltb_spec i MAX_MCO) as [Hlt|Hge].
  - split; [rewrite poke_length; exact Hlen|]. split; [|split].
    + intros j Hj. unfold MAX_MCO in *.
      rewrite pcc_at_poke_other by lia. apply Hother; lia.
    + intros _. apply pcc_at_poke_same. unfold MAX_MCO in *. lia.
    + intros j Hj. rewrite pcc_at_poke_other by lia. apply Hentries; lia.
  - split; [exact Hlen|]. split; [|split].
    + intros j Hj. unfold MAX_MCO in *. apply Hother; lia.
    + unfold MAX_MCO in *. lia.
    + exact Hentries.
Qed.

(** C5: for every byte sequence, [utfc_ptr2char] and, for every positive
    [maxlen], [utfc_ptr2char_len] return with at most [MAX_MCO] = 6
    composing characters stored, and with fewer than 6 stored the entry
    behind the last one is 0.  The number [kept] is the one the array
    shows: the entries below it hold composing characters read from the
    text behind the base character, the entry at it is the 0, and the
    entries above it, like everything from entry 6 on and the size of
    [pcc], are as the caller left them.  [pcc] has room for [MAX_MCO]
    entries. *)
Theorem utfc_composing_bound (p : list byte) (pcc : list Z) (maxlen : Z) :
  (Z.to_nat MAX_MCO <= length pcc)%nat ->
  (exists r,
      utfc_ptr2char_run p pcc = Some r
      /\ utfc_ptr2char p pcc = Some (base r, cells r)
      /\ 0 <= kept r <= 6
      /\ length (cells r) = length pcc
      /\ (forall j, kept r < j \/ 6 <= j -> pcc_at (cells r) j = pcc_at pcc j)
      /\ (kept r < 6 -> pcc_at (cells r) (kept r) = 0)
      /\ (forall j, 0 <= j < kept r ->
            composing_entry p (utf_ptr2len p) j (pcc_at (cells r) j)))
  /\ (0 < maxlen ->
      exists r,
        utfc_ptr2char_len_run p pcc maxlen = Some r
        /\ utfc_ptr2char_len p pcc maxlen = Some (base r, cells r)
        /\ 0 <= kept r <= 6
        /\ length (cells r) = length pcc
        /\ (forall j, kept r < j \/ 6 <= j -> pcc_at (cells r) j = pcc_at pcc j)
        /\ (kept r < 6 -> pcc_at (cells r) (kept r) = 0)
        /\ (forall j, 0 <= j < kept r ->
              composing_entry p (utf_ptr2len_len p maxlen) j
                              (pcc_at (cells r) j))).
Proof.
  intros Hroom. split.
  - unfold utfc_ptr2char, utfc_ptr2char_run.
    set (len0 := utf_ptr2len p).
    match goal with
    | |- context [if ?c then ?loop else Some (0, pcc)] =>
        assert (exists i pcc',
                   (if c then loop else Some (0, pcc)) = Some (i, pcc')
                   /\ 0 <= i <= MAX_MCO
                   /\ length pcc' = length pcc
                   /\ (forall j, 0 <= j -> i < j \/ MAX_MCO <= j ->
                                 pcc_at pcc' j = pcc_at pcc j)
                   /\ (forall j, 0 <= j < i ->
                                 composing_entry p len0 j (pcc_at pcc' j)))
          as (i & pcc' & -> & Hi & Hlen & Hother & Hentries)
    end.
    { destruct (_ && _) eqn:Hgate.
      - apply andb_prop in Hgate as [Hgate Hlike].
        apply andb_prop in Hgate as [_ Hhigh]. apply Z.geb_le in Hhigh.
        destruct (utfc_ptr2char_loop_ends (Z.to_nat MAX_MCO) p len0 0 len0
                    (utf_ptr2char (ptr_add p len0)) pcc)
          as (i & pcc' & Hrun & Hi & Hlen & Hother & Hentries);
          try (unfold MAX_MCO; lia); try reflexivity; try assumption.
        exists i, pcc'. split; [exact Hrun|]. split; [lia|].
        split; [exact Hlen|]. split; [|exact Hentries].
        intros j Hj Hout. apply Hother; lia.
      - exists 0, pcc. split; [reflexivity|].
        split; [unfold MAX_MCO; lia|]. split; [reflexivity|].
        split; [reflexivity | intros j Hj; lia]. }
    destruct (terminator p len0 i pcc pcc' Hi Hroom Hlen Hother Hentries)
      as (Hsize & Hfar & Hzero & Hkept).
    eexists. split; [reflexivity|]. cbn [option_map base kept cells].
    split; [reflexivity|]. unfold MAX_MCO in Hi. auto.
  - intros Hmax. unfold utfc_ptr2char_len, utfc_ptr2char_len_run.
    rewrite Z.gtb_ltb. destruct (Z.ltb_spec 0 maxlen); [|lia]. cbn [negb].
    set (len0 := utf_ptr2len_len p maxlen).
    pose proof (utf_ptr2len_len_positive p maxlen) as Hlen0. fold len0 in Hlen0.
    match goal with
    | |- context [if ?c then ?loop else Some (0, pcc)] =>
        assert (exists i pcc',
                   (if c then loop else Some (0, pcc)) = Some (i, pcc')
                   /\ 0 <= i <= MAX_MCO
                   /\ length pcc' = length pcc
                   /\ (forall j, 0 <= j -> i < j \/ MAX_MCO <= j ->
                                 pcc_at pcc' j = pcc_at pcc j)
                   /\ (forall j, 0 <= j < i ->
                                 composing_entry p len0 j (pcc_at pcc' j)))
          as (i & pcc' & -> & Hi & Hlen & Hother & Hentries)
    end.
    { destruct (_ && _).
      - destruct (utfc_ptr2char_len_loop_ends (S (Z.to_nat MAX_MCO)) p maxlen
                    len0 0 len0 pcc)
          as (i & pcc' & Hrun & Hi & Hlen & Hother & Hentries);
          try (unfold MAX_MCO; lia); try reflexivity; try assumption.
        exists i, pcc'. split; [exact Hrun|]. split; [lia|].
        split; [exact Hlen|]. split; [|exact Hentries].
        intros j Hj Hout. apply Hother; lia.
      - exists 0, pcc. split; [reflexivity|].
        split; [unfold MAX_MCO; lia|]. split; [reflexivity|].
        split; [reflexivity | intros j Hj; lia]. }
    destruct (terminator p len0 i pcc pcc' Hi Hroom Hlen Hother Hentries)
      as (Hsize & Hfar & Hzero & Hkept).
    eexists. split; [reflexivity|]. cbn [option_map base kept cells].
    split; [reflexivity|]. unfold MAX_MCO in Hi. auto.
Qed.
End Composing.

Lemma utfc_composing_bound_witness :
  let text := [Byte.x61; Byte.xcc; Byte.x81; Byte.xcc; Byte.x82; Byte.x62] in
  let pcc := [7; 7; 7; 7; 7; 7] in
  (exists r, @utfc_ptr2char_run sample_tables sample_arabic text pcc = Some r
             /\ kept r <= 6
             /\ @composing_entry sample_tables sample_arabic text
                  (utf_ptr2len text) 0 (pcc_at (cells r) 0))
  /\ (exists r, @utfc_ptr2char_len_run sample_tables sample_arabic text pcc 6
                = Some r
                /\ kept r <= 6
                /\ pcc_at (cells r) (kept r) = 0).
Proof.
  intros text pcc.
  destruct (@utfc_composing_bound sample_tables sample_arabic text pcc 6)
    as [Hrun Hlen]; [vm_compute; lia|].
  split.
  - destruct Hrun as (r & Hr & _ & Hkept & _ & _ & _ & Hentries).
    exists r. split; [exact Hr|]. split; [lia|]. apply Hentries.
    vm_compute in Hr. injection Hr as <-. vm_compute. split; congruence.
  - destruct Hlen as (r & Hr & _ & Hkept & _ & _ & Hzero & _); [lia|].
    exists r. split; [exact Hr|]. split; [lia|]. apply Hzero.
    vm_compute in Hr. injection Hr as <-. vm_compute. reflexivity.
Defined.

(** ** Cell width: claim C7 *)

(** The binary search of [intable] never runs out of fuel: with more fuel
    than entries between [bot] and [top], the result does not depend on it. *)
Lemma intable_loop_fuel (table : list interval) (c : Z) (f1 : nat) :
  forall (f2 : nat) (bot top : Z),
    0 <= bot -> top - bot + 1 < Z.of_nat f1 -> top - bot + 1 < Z.of_nat f2 ->
    intable_loop table c f1 bot top = intable_loop table c f2 bot top.
Proof.
  induction f1 as [|f1 IH]; intros f2 bot top Hbot H1 H2.
  - destruct f2 as [|f2]; [reflexivity|]. simpl.
    destruct (Z.geb_spec top bot); [lia | reflexivity].
  - destruct f2 as [|f2]; cbn [intable_loop];
      destruct (Z.geb_spec top bot) as [Hge|]; try reflexivity; try lia.
    assert (bot <= (bot + top) ÷ 2 <= top) as Hmid
      by (rewrite Z.quot_div_nonneg by lia; Z.div_mod_to_equations; lia).
    destruct (_ <? c); [apply IH; lia|].
    destruct (_ >? c); [apply IH; lia | reflexivity].
Qed.

Section Width.
Context {UT : UnicodeTables} {DP : Display}.

(** C7, as the code has it: [utf_char2cells] returns 1 for every codepoint
    below 0x80, printable or not; the width 4 of an unprintable character
    shown as <xx> is returned for the codepoints 0x80..0xFF that fail
    [vim_isprintc], before any table is looked at. *)
Theorem utf_char2cells_below_0x100 (c : Z) :
  (c < 0x80 -> utf_char2cells c = 1)
  /\ (0x80 <= c < 0x100 -> vim_isprintc c = false -> utf_char2cells c = 4).
Proof.
  unfold utf_char2cells, utf_char2cells_ambiguous. split.
  - intros Hc.
    destruct (Z.geb_spec c 0x100); [lia|].
    destruct (Z.geb_spec c 0x80); [lia|]. reflexivity.
  - intros Hc Hprint. rewrite Hprint.
    destruct (Z.geb_spec c 0x100); [lia|].
    destruct (Z.geb_spec c 0x80); [reflexivity | lia].
Qed.
End Width.

Lemma utf_char2cells_below_0x100_witness :
  @utf_char2cells sample_tables sample_display 0x1b = 1
  /\ @utf_char2cells sample_tables sample_display 0x85 = 4.
Proof.
  split.
  - apply (proj1 (@utf_char2cells_below_0x100 sample_tables sample_display 0x1b)).
    lia.
  - apply (proj2 (@utf_char2cells_below_0x100 sample_tables sample_display 0x85));
      [lia | reflexivity].
Defined.

(** C7 as stated fails: the escape character 0x1b is below 0x80 and fails the
    printability test, and its width is 1, not 4. *)
Lemma utf_char2cells_unprintable_ascii :
  0x1b < 0x80
  /\ @vim_isprintc sample_display 0x1b = false
  /\ @utf_char2cells sample_tables sample_display 0x1b <> 4.
Proof.
  split; [lia|]. split; [reflexivity|]. vm_compute. congruence.
Qed.

(** ** Conversion: claims C8 and C10 *)

Section ConversionProofs.
Context {UT : UnicodeTables} {DP : Display}
        {EC : EncConstants} {XC : ExternalConverter}.

(** [utf_ptr2len_len] never returns zero. *)
Lemma utf_ptr2len_len_pos (p : list byte) (size : Z) : 1 <= utf_ptr2len_len p size.
Proof.
  unfold utf_ptr2len_len.
  pose proof (peek_range p 0) as Hb.
  rewrite utf8len_tab_spec by lia.
  repeat match goal with
         | |- context [if ?b then _ else _] => destruct b
         end; lia.
Qed.

(** The loop of the conversions to latin1 and latin9 ends: every round moves
    [i] forward, so more fuel than bytes left is never used up, and
    [string_convert_ext] always returns. *)
Lemma utf8_to_latin_ends (fuel : nat) :
  forall (vcp : vimconv_T) (ptr : list byte) (len i : Z) (d : list byte)
         (unconvlenp : option Z),
    (0 < fuel)%nat -> len - i < Z.of_nat fuel ->
    utf8_to_latin fuel vcp ptr len i d unconvlenp <> None.
Proof.
  induction fuel as [|fuel IH]; intros vcp ptr len i d unconvlenp Hpos Hfuel.
  - lia.
  - cbn [utf8_to_latin].
    pose proof (utf_ptr2len_len_pos (ptr_add ptr i) (len - i)) as Hl.
    destruct (Z.ltb_spec i len); [|discriminate].
    repeat match goal with
           | |- (if ?b then _ else _) <> None => destruct b
           end; try discriminate; apply IH; lia.
Qed.

Lemma string_convert_ext_returns (vcp : vimconv_T) (ptr : list byte)
    (lenp unconvlenp : option Z) :
  (match lenp with None => True | Some n => 0 <= n end) ->
  exists r, string_convert_ext vcp ptr lenp unconvlenp = Some r.
Proof.
  intros Hlen. unfold string_convert_ext.
  destruct (_ =? 0); [eexists; reflexivity|].
  destruct (vc_type vcp); try (eexists; reflexivity).
  - destruct (utf8_to_latin _ _ _ _ _ _ _) as [[[d|] u]|] eqn:E;
      try (eexists; reflexivity).
    exfalso. revert E. apply utf8_to_latin_ends; lia.
  - destruct (utf8_to_latin _ _ _ _ _ _ _) as [[[d|] u]|] eqn:E;
      try (eexists; reflexivity).
    exfalso. revert E. apply utf8_to_latin_ends; lia.
  - destruct USE_ICONV; eexists; reflexivity.
Qed.

(** C8: once the flag [ENC_LATIN1] shows in the properties of "latin1" and
    [ENC_UNICODE] is a non-zero flag, setting up the conversion from
    "latin1" to "utf-8" succeeds with the internal latin1-to-UTF-8 type
    [CONV_TO_UTF8] (not [CONV_ICONV]) and factor 2, and that context turns
    the single byte E9 into the two bytes C3 A9. *)
Theorem convert_latin1_to_utf8 (vcp : vimconv_T) :
  (ENC_8BIT + ENC_LATIN1) & ENC_LATIN1 <> 0 -> ENC_UNICODE <> 0 ->
  let st := fst (convert_setup vcp (Some "latin1"%string) (Some "utf-8"%string)) in
  let vcp' := snd (convert_setup vcp (Some "latin1"%string) (Some "utf-8"%string)) in
  st = OK
  /\ vc_type vcp' = CONV_TO_UTF8
  /\ vc_factor vcp' = 2
  /\ string_convert vcp' [Byte.xe9] (Some 1)
     = Some {| retval := Some [Byte.xc3; Byte.xa9];
               lenp_out := Some 2; unconvlenp_out := None |}
  /\ string_convert vcp' [Byte.xe9] None
     = Some {| retval := Some [Byte.xc3; Byte.xa9];
               lenp_out := None; unconvlenp_out := None |}.
Proof.
  intros Hlatin1 Hunicode. cbv zeta.
  assert (convert_setup vcp (Some "latin1"%string) (Some "utf-8"%string)
          = (OK, {| vc_type := CONV_TO_UTF8; vc_factor := 2;
                    vc_fd := vc_fd vcp; vc_fail := false |})) as ->.
  { unfold convert_setup, convert_setup_ext.
    cbn [STRCMP_eq String.eqb Ascii.eqb Bool.eqb orb].
    change (enc_canon_props "latin1") with (ENC_8BIT + ENC_LATIN1).
    change (enc_canon_props "utf-8") with ENC_UNICODE.
    rewrite Z.land_diag.
    destruct (Z.eqb_spec ((ENC_8BIT + ENC_LATIN1) & ENC_LATIN1) 0); [contradiction|].
    destruct (Z.eqb_spec ENC_UNICODE 0); [contradiction|].
    reflexivity. }
  cbn [fst snd vc_type vc_factor]. repeat split; reflexivity.
Qed.

(** C10: a context of type [CONV_NONE] gives the allocated empty string for
    an empty text and NULL, with [*lenp] untouched, for every other text;
    and [convert_setup] leaves that type, with result [OK], when a name
    is NULL or empty or both names are equal. *)
Theorem string_convert_none :
  (forall (vcp : vimconv_T) (ptr : list byte) (lenp : option Z),
      vc_type vcp = CONV_NONE ->
      let len := match lenp with None => STRLEN ptr | Some n => n end in
      (len = 0 ->
       string_convert vcp ptr lenp
       = Some {| retval := Some []; lenp_out := lenp; unconvlenp_out := None |})
      /\ (len <> 0 ->
          string_convert vcp ptr lenp
          = Some {| retval := None; lenp_out := lenp; unconvlenp_out := None |}))
  /\ (forall (vcp : vimconv_T) (from to : option string),
         from = None \/ from = Some ""%string
         \/ to = None \/ to = Some ""%string \/ from = to ->
         fst (convert_setup vcp from to) = OK
         /\ vc_type (snd (convert_setup vcp from to)) = CONV_NONE).
Proof.
  split.
  - intros vcp ptr lenp Htype len. unfold string_convert, string_convert_ext.
    fold len. rewrite Htype. split; intros Hlen.
    + rewrite Hlen. reflexivity.
    + destruct (Z.eqb_spec len 0); [contradiction | reflexivity].
  - intros vcp from to Hnames. unfold convert_setup, convert_setup_ext.
    destruct from as [from|], to as [to|]; try (split; reflexivity).
    destruct (STRCMP_eq from "") eqn:Hfrom; [split; reflexivity|].
    destruct (STRCMP_eq to "") eqn:Hto; [split; reflexivity|].
    destruct (STRCMP_eq from to) eqn:Heq; [split; reflexivity|].
    exfalso. unfold STRCMP_eq in *.
    destruct Hnames as [H|[H|[H|[H|H]]]]; try discriminate;
      inversion H; subst;
      rewrite String.eqb_refl in *; discriminate.
Qed.
End ConversionProofs.

Lemma convert_latin1_to_utf8_witness :
  fst (@convert_setup sample_constants sample_converter vimconv_init
         (Some "latin1"%string) (Some "utf-8"%string)) = OK.
Proof.
  apply (@convert_latin1_to_utf8 sample_tables sample_display
           sample_constants sample_converter vimconv_init);
    vm_compute; congruence.
Defined.

Lemma string_convert_none_witness :
  @string_convert sample_tables sample_display sample_converter
    vimconv_init [Byte.x41] None
  = Some {| retval := None; lenp_out := None; unconvlenp_out := None |}.
Proof.
  apply (proj1 (@string_convert_none sample_tables sample_display
                  sample_constants sample_converter)
           vimconv_init [Byte.x41] None);
    [reflexivity | vm_compute; congruence].
Defined.

(** ** Encoding names: claim C9 *)

Section NameProofs.
Context {EC : EncConstants} {GL : Globals}.
Local Open Scope string_scope.

Lemma STRNCMP_eq_app (lit rest : string) : STRNCMP_eq (lit ++ rest) lit = true.
Proof.
  induction lit as [|a lit IH]; [reflexivity|].
  simpl. rewrite Ascii.eqb_refl. exact IH.
Qed.

Lemma STRNCMP_eq_true (lit p : string) :
  STRNCMP_eq p lit = true -> exists rest, p = lit ++ rest.
Proof.
  revert p. induction lit as [|a lit IH]; intros p H.
  - exists p. reflexivity.
  - destruct p as [|b p]; [discriminate|]. simpl in H.
    apply andb_prop in H as [Hab Hrest].
    apply Ascii.eqb_eq in Hab. subst b.
    destruct (IH p Hrest) as [rest ->]. exists rest. reflexivity.
Qed.

(** *** Lower-casing *)

Local Abbreviation lower_dash_char c :=
  (if Ascii.eqb c "_" then "-"%char else TOLOWER_ASC c).

Lemma lower_dash_char_idem (c : ascii) :
  lower_dash_char (lower_dash_char c) = lower_dash_char c.
Proof.
  destruct c as [[] [] [] [] [] [] [] []]; reflexivity.
Qed.

Lemma enc_lower_dash_idem (s : string) :
  enc_lower_dash (enc_lower_dash s) = enc_lower_dash s.
Proof.
  induction s as [|c s IH]; [reflexivity|].
  cbn [enc_lower_dash]. rewrite lower_dash_char_idem, IH. reflexivity.
Qed.

Lemma enc_lower_dash_app (a b : string) :
  enc_lower_dash (a ++ b) = enc_lower_dash a ++ enc_lower_dash b.
Proof.
  induction a as [|c a IH]; [reflexivity|].
  cbn [enc_lower_dash String.append]. rewrite IH. reflexivity.
Qed.

Lemma enc_lower_dash_take (n : nat) (s : string) :
  enc_lower_dash (str_take n s) = str_take n (enc_lower_dash s).
Proof.
  revert s. induction n as [|n IH]; intros [|c s]; try reflexivity.
  cbn [str_take enc_lower_dash]. rewrite IH. reflexivity.
Qed.

Lemma enc_lower_dash_drop (n : nat) (s : string) :
  enc_lower_dash (str_drop n s) = str_drop n (enc_lower_dash s).
Proof.
  revert s. induction n as [|n IH]; intros [|c s]; try reflexivity.
  cbn [str_drop enc_lower_dash]. apply IH.
Qed.

(** The spelling fixes keep a lowered name lowered. *)
Lemma enc_fix_spelling_lowered (p : string) :
  enc_lower_dash p = p -> enc_lower_dash (enc_fix_spelling p) = enc_fix_spelling p.
Proof.
  intros Hp. unfold enc_fix_spelling.
  repeat match goal with
         | |- context [if ?b then _ else _] => destruct b
         end;
    repeat (rewrite ?enc_lower_dash_app, ?enc_lower_dash_take,
             ?enc_lower_dash_drop, ?Hp; cbn [enc_lower_dash]);
    reflexivity.
Qed.

(** *** The head and the spelling fixes *)

Lemma enc_skip_cases (r : string) :
  (exists p, r = "2byte-" ++ p /\ enc_skip r = p)
  \/ (exists p, r = "8bit-" ++ p /\ enc_skip r = p)
  \/ (enc_skip r = r
      /\ STRNCMP_eq r "2byte-" = false /\ STRNCMP_eq r "8bit-" = false).
Proof.
  unfold enc_skip.
  destruct (STRNCMP_eq r "2byte-") eqn:E2.
  { left. apply STRNCMP_eq_true in E2 as [p ->]. exists p. split; reflexivity. }
  destruct (STRNCMP_eq r "8bit-") eqn:E8.
  { right; left. apply STRNCMP_eq_true in E8 as [p ->]. exists p.
    split; reflexivity. }
  right; right. repeat split.
Qed.

(** What a name looks like after the spelling fixes. *)
Lemma enc_fix_spelling_cases (p : string) :
  (exists t, enc_fix_spelling p = "cp" ++ t)
  \/ (exists t, enc_fix_spelling p = "iso-8859-" ++ t)
  \/ (exists t, enc_fix_spelling p = "latin" ++ t)
  \/ enc_fix_spelling p = p.
Proof.
  unfold enc_fix_spelling.
  destruct (STRNCMP_eq p "microsoft-cp") eqn:E4.
  { left. apply STRNCMP_eq_true in E4 as [t ->]. exists t. reflexivity. }
  destruct (STRNCMP_eq p "iso8859") eqn:E5.
  { right; left. apply STRNCMP_eq_true in E5 as [t ->].
    destruct t as [|c t]; [exists ""; reflexivity|].
    cbn. destruct (Ascii.eqb_spec c "-") as [->|];
      cbn; eexists; reflexivity. }
  destruct (STRNCMP_eq p "iso-8859" && negb (Ascii.eqb (str_at 8 p) "-")) eqn:E6.
  { right; left. apply andb_prop in E6 as [E6 _].
    apply STRNCMP_eq_true in E6 as [t ->]. exists t. reflexivity. }
  destruct (STRNCMP_eq p "latin-") eqn:E7.
  { right; right; left. apply STRNCMP_eq_true in E7 as [t ->]. exists t.
    reflexivity. }
  right; right; right. reflexivity.
Qed.

(** A fixed name is left alone by a second round of fixes, unless it
    starts with "latin-" again. *)
Lemma enc_fix_spelling_stable (p : string) :
  STRNCMP_eq (enc_fix_spelling p) "latin-" = false ->
  enc_fix_spelling (enc_fix_spelling p) = enc_fix_spelling p.
Proof.
  intros Hlatin.
  destruct (enc_fix_spelling_cases p) as [[t E]|[[t E]|[[t E]|E]]];
    rewrite E in *; try reflexivity.
  - destruct t as [|c t]; [reflexivity|].
    unfold enc_fix_spelling. cbn in Hlatin |- *.
    rewrite Hlatin. reflexivity.
  - rewrite E. reflexivity.
Qed.

(** The fixes never create one of the heads [enc_skip] looks for. *)
Lemma enc_fix_spelling_no_head (p : string) :
  STRNCMP_eq p "2byte-" = false -> STRNCMP_eq p "8bit-" = false ->
  enc_skip (enc_fix_spelling p) = enc_fix_spelling p.
Proof.
  intros H2 H8.
  destruct (enc_fix_spelling_cases p) as [[t E]|[[t E]|[[t E]|E]]];
    rewrite E; try reflexivity.
  unfold enc_skip. rewrite H2, H8. reflexivity.
Qed.

(** *** Names the tables know *)

Lemma enc_canon_search_from_In (tbl : list enc_canon) (i : Z) (nm : string) :
  0 <= i -> enc_canon_search_from tbl i nm >= 0 ->
  exists e, In e tbl /\ name e = nm.
Proof.
  revert i. induction tbl as [|e tbl IH]; intros i Hi Hfound; cbn in Hfound.
  - lia.
  - destruct (STRCMP_eq nm (name e)) eqn:E.
    + exists e. split; [left; reflexivity|].
      symmetry. apply String.eqb_eq, E.
    + destruct (IH (i + 1) ltac:(lia) Hfound) as (e' & Hin & Hname).
      exists e'. split; [right; exact Hin | exact Hname].
Qed.

Lemma enc_alias_search_in_In (tbl : list (string * Z)) (nm : string) :
  enc_alias_search_in tbl nm >= 0 ->
  exists alias, In (alias, enc_alias_search_in tbl nm) tbl.
Proof.
  induction tbl as [|[alias canon] tbl IH]; intros Hfound; cbn in Hfound |- *.
  - lia.
  - destruct (STRCMP_eq nm alias).
    + exists alias. left. reflexivity.
    + destruct (IH Hfound) as [alias' Hin]. exists alias'. right. exact Hin.
Qed.

(** Every canonical name is its own canonical name. *)
Lemma enc_canon_table_fixed (e : enc_canon) :
  In e enc_canon_table -> enc_canonize (name e) = name e.
Proof.
  intros Hin.
  assert (forallb (fun e => String.eqb (enc_canonize (name e)) (name e))
                  enc_canon_table = true) as Hall
    by (vm_compute; reflexivity).
  rewrite forallb_forall in Hall. apply String.eqb_eq, Hall, Hin.
Qed.

(** So is every name an alias resolves to. *)
Lemma enc_alias_table_fixed (alias : string) (i : Z) :
  In (alias, i) enc_alias_table ->
  enc_canonize (name (enc_canon_at i)) = name (enc_canon_at i).
Proof.
  intros Hin.
  assert (forallb (fun a => String.eqb
                              (enc_canonize (name (enc_canon_at (snd a))))
                              (name (enc_canon_at (snd a))))
                  enc_alias_table = true) as Hall
    by (vm_compute; reflexivity).
  rewrite forallb_forall in Hall.
  apply String.eqb_eq, (Hall (alias, i)), Hin.
Qed.

(** *** Names the tables do not know *)

Lemma str_take_app_length (h q : string) :
  str_take (String.length (h ++ q) - String.length q) (h ++ q) = h.
Proof.
  assert (String.length (h ++ q) = String.length h + String.length q)%nat as ->
    by (induction h as [|c h IH]; cbn [String.append String.length]; lia).
  replace (String.length h + String.length q - String.length q)%nat
    with (String.length h) by lia.
  induction h as [|c h IH]; cbn [String.append String.length str_take].
  - destruct q; reflexivity.
  - rewrite IH. reflexivity.
Qed.

Lemma enc_canonize_unresolved (h q : string) :
  h ++ q <> "default" ->
  enc_lower_dash (h ++ q) = h ++ q ->
  enc_skip (h ++ q) = q ->
  enc_fix_spelling q = q ->
  enc_canon_search q < 0 -> enc_alias_search q < 0 ->
  enc_canonize (h ++ q) = h ++ q.
Proof.
  intros Hdef Hlow Hskip Hfix Hcanon Halias. unfold enc_canonize.
  destruct (STRCMP_eq (h ++ q) "default") eqn:E;
    [apply String.eqb_eq in E; contradiction|].
  rewrite Hlow, Hskip, Hfix, str_take_app_length.
  destruct (Z.geb_spec (enc_canon_search q) 0); [lia|].
  destruct (Z.geb_spec (enc_alias_search q) 0); [lia|]. reflexivity.
Qed.

(** C9, as the code has it: canonicalising twice gives the same as
    canonicalising once for every name other than "default" whose canonical
    form is not "default" and does not, behind an optional head "2byte-"
    or "8bit-", start with "latin-"; and every name of the canonical table
    is its own canonical form. *)
Theorem enc_canonize_stable :
  (forall x : string,
      x <> "default" -> enc_canonize x <> "default" ->
      STRNCMP_eq (enc_skip (enc_canonize x)) "latin-" = false ->
      enc_canonize (enc_canonize x) = enc_canonize x)
  /\ (forall e : enc_canon,
         In e enc_canon_table -> enc_canonize (name e) = name e).
Proof.
  split; [|exact enc_canon_table_fixed].
  intros x Hx Hy Hlatin.
  remember (enc_canonize x) as y eqn:Ey.
  unfold enc_canonize in Ey.
  destruct (STRCMP_eq x "default") eqn:E;
    [apply String.eqb_eq in E; contradiction|].
  set (r := enc_lower_dash x) in *.
  assert (enc_lower_dash r = r) as Hr by apply enc_lower_dash_idem.
  set (p := enc_skip r) in *.
  destruct (Z.geb_spec (enc_canon_search (enc_fix_spelling p)) 0) as [Hc|Hc].
  { destruct (enc_canon_search_from_In enc_canon_table 0 (enc_fix_spelling p))
      as (e & Hin & Hname); [lia | unfold enc_canon_search in Hc; lia |].
    rewrite Ey, <- Hname. apply enc_canon_table_fixed, Hin. }
  destruct (Z.geb_spec (enc_alias_search (enc_fix_spelling p)) 0) as [Ha|Ha].
  { destruct (enc_alias_search_in_In enc_alias_table (enc_fix_spelling p))
      as [alias Hin]; [unfold enc_alias_search in Ha; lia|].
    rewrite Ey. apply (enc_alias_table_fixed alias), Hin. }
  assert (exists h, r = h ++ p
                    /\ enc_lower_dash h = h /\ enc_lower_dash p = p
                    /\ enc_skip (h ++ enc_fix_spelling p) = enc_fix_spelling p)
    as (h & Hrp & Hh & Hp & Hskip).
  { destruct (enc_skip_cases r) as [(q & Hq & Hs)|[(q & Hq & Hs)|(Hs & H2 & H8)]];
      fold p in Hs.
    - exists "2byte-". subst q. rewrite Hq in Hr. cbn in Hr.
      injection Hr as Hr. repeat split; assumption.
    - exists "8bit-". subst q. rewrite Hq in Hr. cbn in Hr.
      injection Hr as Hr. repeat split; assumption.
    - exists "". rewrite Hs in *. repeat split; try assumption.
      apply (enc_fix_spelling_no_head r H2 H8). }
  assert (y = h ++ enc_fix_spelling p) as Ey'.
  { rewrite Ey. f_equal. rewrite Hrp. apply str_take_app_length. }
  rewrite Ey' in *.
  rewrite Hskip in Hlatin.
  apply enc_canonize_unresolved; try assumption; try lia.
  - rewrite enc_lower_dash_app, Hh, (enc_fix_spelling_lowered p Hp). reflexivity.
  - apply enc_fix_spelling_stable, Hlatin.
Qed.
End NameProofs.

Lemma enc_canonize_stable_witness :
  @enc_canonize sample_constants sample_globals
    (@enc_canonize sample_constants sample_globals "8bit-ISO8859_15"%string)
  = @enc_canonize sample_constants sample_globals "8bit-ISO8859_15"%string.
Proof.
  apply (proj1 (@enc_canonize_stable sample_constants sample_globals)
           "8bit-ISO8859_15"%string);
    [discriminate | vm_compute; discriminate | vm_compute; reflexivity].
Defined.

(** C9 as stated fails: "latin--1" becomes "latin-1", which becomes
    "latin1"; and "DEFAULT" becomes "default", which stands for the default
    encoding. *)
Lemma enc_canonize_not_idempotent :
  @enc_canonize sample_constants sample_globals
    (@enc_canonize sample_constants sample_globals "latin--1"%string)
  <> @enc_canonize sample_constants sample_globals "latin--1"%string
  /\ @enc_canonize sample_constants sample_globals
       (@enc_canonize sample_constants sample_globals "DEFAULT"%string)
     <> @enc_canonize sample_constants sample_globals "DEFAULT"%string.
Proof.
  split; vm_compute; discriminate.
Qed.

(** * Further properties of the code *)

(** ** Lengths and legality *)

Lemma trail_scan_inv (p : list byte) (count : nat) (i : Z) :
  trail_scan p i count = true ->
  forall j, i <= j < i + Z.of_nat count -> (p.[j] & 0xc0) = 0x80.
Proof.
  revert i. induction count as [|count IH]; intros i Hscan j Hj; [lia|].
  cbn [trail_scan] in Hscan.
  destruct (Z.eqb_spec (p.[i] & 0xc0) 0x80) as [Hi|]; [|discriminate].
  cbn [negb] in Hscan.
  destruct (Z.eq_dec j i) as [->|]; [exact Hi|].
  apply (IH (i + 1) Hscan). lia.
Qed.

Lemma utf8len_tab_range (b : Z) : 0 <= b < 256 -> 1 <= tab_at utf8len_tab b <= 6.
Proof.
  intros Hb. rewrite utf8len_tab_spec by lia.
  repeat match goal with |- context [?x <? ?y] => destruct (Z.ltb_spec x y) end; lia.
Qed.

Lemma trail_not_NUL (b : Z) : (b & 0xc0) = 0x80 -> b <> 0.
Proof. intros H ->. discriminate. Qed.

(** The bytes [utf_ptr2len] counts hold no NUL. *)
Lemma utf_ptr2len_no_NUL (p : list byte) (i : Z) :
  0 <= i < utf_ptr2len p -> p.[i] <> NUL.
Proof.
  unfold utf_ptr2len. destruct (Z.eqb_spec p.[0] NUL) as [|H0]; [lia|].
  destruct (trail_scan p 1 _) eqn:Hscan; intros Hi.
  - destruct (Z.eq_dec i 0) as [->|]; [exact H0|].
    apply trail_not_NUL, (trail_scan_inv p _ 1 Hscan). lia.
  - assert (i = 0) as -> by lia. exact H0.
Qed.

(** X1: [utf_ptr2len] returns 0 exactly at the end of the string, otherwise 1
    or the length the lead byte announces, never more than 6; and the bytes
    it counts hold no NUL, so stepping by it cannot pass the terminator. *)
Theorem utf_ptr2len_result (p : list byte) :
  (utf_ptr2len p = 0 <-> p.[0] = NUL)
  /\ (p.[0] <> NUL ->
      utf_ptr2len p = 1 \/ utf_ptr2len p = tab_at utf8len_tab p.[0])
  /\ 0 <= utf_ptr2len p <= 6
  /\ (forall i, 0 <= i < utf_ptr2len p -> p.[i] <> NUL).
Proof.
  pose proof (utf8len_tab_range p.[0] (peek_range p 0)) as Htab.
  unfold utf_ptr2len.
  destruct (Z.eqb_spec p.[0] NUL) as [H0|H0].
  - split; [tauto|]. split; [contradiction|]. split; lia.
  - destruct (trail_scan p 1 _) eqn:Hscan.
    + split; [split; intros; [lia | contradiction]|].
      split; [auto|]. split; [lia|].
      intros i Hi. destruct (Z.eq_dec i 0) as [->|]; [exact H0|].
      apply trail_not_NUL, (trail_scan_inv p _ 1 Hscan). lia.
    + split; [split; intros; [lia | contradiction]|].
      split; [auto|]. split; [lia|].
      intros i Hi. assert (i = 0) as -> by lia. exact H0.
Qed.

(** X2: [utf_ptr2len_len] never returns zero nor more than 6, and where the
    character at [p] is not cut off by [size] and [p] is not at the end of
    the string, it agrees with [utf_ptr2len]. *)
Theorem utf_ptr2len_len_result (p : list byte) (size : Z) :
  1 <= utf_ptr2len_len p size <= 6
  /\ (utf_ptr2len_len p size = 1
      \/ utf_ptr2len_len p size = tab_at utf8len_tab p.[0])
  /\ (p.[0] <> NUL -> tab_at utf8len_tab p.[0] <= size ->
      utf_ptr2len_len p size = utf_ptr2len p).
Proof.
  pose proof (utf8len_tab_range p.[0] (peek_range p 0)) as Htab.
  unfold utf_ptr2len_len, utf_ptr2len.
  split; [|split].
  - repeat match goal with
           | |- context [if ?b then _ else _] => destruct b
           end; lia.
  - repeat match goal with
           | |- context [if ?b then _ else _] => destruct b
           end; auto.
  - intros H0 Hsize.
    destruct (Z.eqb_spec p.[0] NUL); [contradiction|].
    rewrite Z.gtb_ltb.
    destruct (Z.ltb_spec size (tab_at utf8len_tab p.[0])); [lia|].
    destruct (Z.eqb_spec (tab_at utf8len_tab p.[0]) 1) as [E|]; [|reflexivity].
    rewrite E. reflexivity.
Qed.

Lemma utf_ptr2len_len_result_witness :
  utf_ptr2len_len [Byte.xe2; Byte.x82; Byte.xac; Byte.x41] 4
  = utf_ptr2len [Byte.xe2; Byte.x82; Byte.xac; Byte.x41].
Proof.
  apply (proj2 (proj2 (utf_ptr2len_len_result
                         [Byte.xe2; Byte.x82; Byte.xac; Byte.x41] 4)));
    vm_compute; congruence.
Defined.

Lemma trail_scan_false (p : list byte) (count : nat) (i : Z) :
  trail_scan p i count = false ->
  exists j, i <= j < i + Z.of_nat count /\ (p.[j] & 0xc0) <> 0x80.
Proof.
  revert i. induction count as [|count IH]; intros i Hscan; [discriminate|].
  cbn [trail_scan] in Hscan.
  destruct (Z.eqb_spec (p.[i] & 0xc0) 0x80) as [Hi|Hi]; cbn [negb] in Hscan.
  - destruct (IH (i + 1) Hscan) as (j & Hj & Hne). exists j. split; [lia | exact Hne].
  - exists i. split; [lia | exact Hi].
Qed.

(** X3: What [utf_ptr2char] returns: never a negative number, never more than
    31 bits; and where [utf_ptr2len] finds no multi-byte character (end of
    string, ASCII or an illegal sequence) the first byte as it is. *)
Theorem utf_ptr2char_result (p : list byte) :
  0 <= utf_ptr2char p <= 0x7FFFFFFF
  /\ (utf_ptr2len p <= 1 -> utf_ptr2char p = p.[0]).
Proof.
  split.
  { split; [apply utf_ptr2char_nonneg|].
    unfold utf_ptr2char.
    pose proof (peek_range p 0).
    rewrite !land_3f, ?land_1f, ?land_0f, ?land_07, ?land_03, ?land_01.
    rewrite !Z.shiftl_mul_pow2 by lia.
    repeat match goal with
           | |- context [if ?b then _ else _] => destruct b
           end; try lia; Z.div_mod_to_equations; lia. }
  intros Hlen. pose proof (peek_range p 0) as Hb.
  unfold utf_ptr2char.
  destruct (Z.ltb_spec p.[0] 0x80); [reflexivity|].
  assert (tab_at utf8len_tab p.[0] = 1
          \/ exists j, 1 <= j < tab_at utf8len_tab p.[0]
                       /\ (p.[j] & 0xc0) <> 0x80) as Hbad.
  { pose proof (utf8len_tab_range p.[0] Hb) as Htab.
    unfold utf_ptr2len in Hlen.
    destruct (Z.eqb_spec p.[0] NUL); [unfold NUL in *; lia|].
    destruct (trail_scan p 1 _) eqn:Hscan; [left; lia|].
    right. destruct (trail_scan_false p _ 1 Hscan) as (j & Hj & Hne).
    exists j. split; [lia | exact Hne]. }
  rewrite utf8len_tab_spec in Hbad by lia.
  rewrite utf8len_tab_zero_spec by lia.
  repeat match goal with
         | |- context [p.[0] <? ?y] => destruct (Z.ltb_spec p.[0] y)
         end; try lia; cbn;
    repeat match goal with
           | |- context [(p.[?k] & 192) =? 128] =>
               destruct (Z.eqb_spec (p.[k] & 192) 128); cbn
           end; try reflexivity;
    exfalso; destruct Hbad as [Hone | (j & Hj & Hne)]; try lia;
    assert (j = 1 \/ j = 2 \/ j = 3 \/ j = 4 \/ j = 5) as Hcases by lia;
    destruct Hcases as [->|[->|[->|[->| ->]]]]; try lia; contradiction.
Qed.

Lemma utf_ptr2char_result_witness :
  utf_ptr2char [Byte.xe2; Byte.x41; Byte.xac] = [Byte.xe2; Byte.x41; Byte.xac].[0].
Proof.
  apply (proj2 (utf_ptr2char_result [Byte.xe2; Byte.x41; Byte.xac])).
  vm_compute. congruence.
Defined.

Lemma utf_ptr2len_result_witness :
  utf_ptr2len [Byte.xc3; Byte.xa9] = 1
  \/ utf_ptr2len [Byte.xc3; Byte.xa9] = tab_at utf8len_tab [Byte.xc3; Byte.xa9].[0].
Proof.
  apply (proj1 (proj2 (utf_ptr2len_result [Byte.xc3; Byte.xa9]))).
  vm_compute. congruence.
Defined.

(** ** What [utf_char2bytes] stores, read back *)

(** For a multi-byte character, the lead byte [utf_char2bytes] stores: the
    length both tables give for it, and the only case in which it equals the
    character itself. *)
Lemma utf_char2bytes_lead (c : Z) (rest : list byte) :
  0x80 <= c <= 0x7FFFFFFF ->
  let p := snd (utf_char2bytes c) ++ rest in
  tab_at utf8len_tab_zero p.[0] = fst (utf_char2bytes c)
  /\ 2 <= fst (utf_char2bytes c) <= 6
  /\ 0xc0 <= p.[0]
  /\ (p.[0] = c -> c = 0xC3 /\ p.[1] = 0x83).
Proof.
  intros Hc. cbv zeta. rewrite utf_char2bytes_spec by lia. cbv beta zeta.
  repeat match goal with
         | |- context [c <? ?y] => destruct (Z.ltb_spec c y); try lia
         end; cbn [fst snd app]; peeks;
    rewrite ?unsigned_of_Z_small by (Z.div_mod_to_equations; lia);
    rewrite utf8len_tab_zero_spec by (Z.div_mod_to_equations; lia);
    (split; [|split; [lia|split; [Z.div_mod_to_equations; lia|]]]);
    lazymatch goal with
    | |- _ -> _ => intros Heq; try (exfalso; Z.div_mod_to_equations; lia)
    | |- _ =>
        repeat match goal with
               | |- context [?x <? ?y] =>
                   destruct (Z.ltb_spec x y); try (Z.div_mod_to_equations; lia)
               end
    end.
  assert (c = 0xC3) as -> by (Z.div_mod_to_equations; lia).
  split; reflexivity.
Qed.

(** X4: The bytes [utf_char2bytes] stores for a character of 1..0x7FFFFFFF hold
    no NUL; for a multi-byte character the first is a lead byte (0xC0 or
    above) and every other one a trail byte 10xxxxxx. *)
Theorem utf_char2bytes_well_formed (c : Z) :
  0 < c <= 0x7FFFFFFF ->
  let n := fst (utf_char2bytes c) in
  let buf := snd (utf_char2bytes c) in
  (forall i, 0 <= i < n -> buf.[i] <> NUL)
  /\ (0x80 <= c ->
      0xc0 <= buf.[0] /\ forall i, 1 <= i < n -> (buf.[i] & 0xc0) = 0x80).
Proof.
  intros Hc. cbv zeta.
  destruct (roundtrip_31bit c [] Hc) as [_ Hlen].
  rewrite app_nil_r in Hlen.
  split.
  - intros i Hi. apply utf_ptr2len_no_NUL. lia.
  - intros Hmulti.
    destruct (utf_char2bytes_lead c [] ltac:(lia)) as (_ & Hn & Hlead & _).
    rewrite app_nil_r in Hlead. split; [exact Hlead|].
    intros i Hi. unfold utf_ptr2len in Hlen.
    destruct (_ =? NUL); [lia|].
    destruct (trail_scan _ 1 _) eqn:Hscan; [|lia].
    apply (trail_scan_inv _ _ 1 Hscan). lia.
Qed.

Lemma utf_char2bytes_well_formed_witness :
  (snd (utf_char2bytes 0x20AC)).[2] <> NUL.
Proof.
  apply (proj1 (utf_char2bytes_well_formed 0x20AC ltac:(lia))).
  vm_compute. split; congruence.
Defined.

Lemma ptr_add_app (pre p : list byte) :
  ptr_add (pre ++ p) (Z.of_nat (length pre)) = p.
Proof.
  unfold ptr_add. rewrite Nat2Z.id. induction pre; [reflexivity | assumption].
Qed.

(** X5: [utf_safe_read_char_adv] reads back what [utf_char2bytes] stored: for a
    character of 1..0x7FFFFFFF stored anywhere in a buffer, with at least
    its length left, it returns the character and steps over exactly its
    bytes; with fewer bytes left than its length (but not none) it returns
    -1 and stays. *)
Theorem utf_safe_read_char_adv_reads_back (c n : Z) (pre rest : list byte) :
  0 < c <= 0x7FFFFFFF ->
  let len := fst (utf_char2bytes c) in
  let buf := pre ++ snd (utf_char2bytes c) ++ rest in
  let s := Z.of_nat (length pre) in
  (len <= n -> utf_safe_read_char_adv buf s n = (c, s + len, n - len))
  /\ (0 < n < len -> utf_safe_read_char_adv buf s n = (-1, s, n)).
Proof.
  intros Hc. cbv zeta. unfold utf_safe_read_char_adv.
  rewrite ptr_add_app.
  destruct (roundtrip_31bit c rest Hc) as [Hchar _]. rewrite Hchar.
  destruct (Z.ltb_spec c 0x80) as [Hascii|Hmulti].
  - rewrite utf_char2bytes_spec by lia. cbv beta zeta.
    destruct (Z.ltb_spec c 0x80); [|lia]. cbn [fst snd app]. peeks.
    rewrite utf8len_tab_zero_spec by lia.
    destruct (Z.ltb_spec c 0x80); [|lia]. cbn.
    split; intros Hn; [|lia].
    destruct (Z.eqb_spec n 0); [lia | reflexivity].
  - destruct (utf_char2bytes_lead c rest ltac:(lia)) as (Htab & Hlen & _ & Hsame).
    rewrite Htab. split; intros Hn.
    + destruct (Z.eqb_spec n 0); [lia|].
      destruct (Z.eqb_spec (fst (utf_char2bytes c)) 1); [lia|].
      destruct (Z.leb_spec (fst (utf_char2bytes c)) n); [|lia].
      destruct (Z.eqb_spec c ((snd (utf_char2bytes c) ++ rest).[0])) as [E|];
        [|reflexivity].
      destruct (Hsame (eq_sym E)) as [-> H1]. rewrite H1. reflexivity.
    + destruct (Z.eqb_spec n 0); [lia|].
      destruct (Z.eqb_spec (fst (utf_char2bytes c)) 1); [lia|].
      destruct (Z.leb_spec (fst (utf_char2bytes c)) n); [lia | reflexivity].
Qed.

Lemma utf_safe_read_char_adv_reads_back_witness :
  utf_safe_read_char_adv
    ([Byte.x41] ++ snd (utf_char2bytes 0xC3) ++ [Byte.x42]) 1 3
  = (0xC3, 1 + fst (utf_char2bytes 0xC3), 3 - fst (utf_char2bytes 0xC3)).
Proof.
  apply (proj1 (utf_safe_read_char_adv_reads_back 0xC3 3 [Byte.x41] [Byte.x42]
                  ltac:(lia))).
  vm_compute. congruence.
Defined.

(** ** Range tables and cell width *)

Lemma intervals_sorted_cons (e : interval) (rest : list interval) :
  intervals_sorted (e :: rest) = true ->
  first e <= last e
  /\ intervals_sorted rest = true
  /\ forall x, In x rest -> last e < first x.
Proof.
  revert e. induction rest as [|e' rest IH]; intros e Hs; cbn in Hs.
  - rewrite !andb_true_r in Hs. split; [lia|]. split; [reflexivity|]. intros x [].
  - apply andb_prop in Hs as [Hs Hrest]. apply andb_prop in Hs as [Hfl Hadj].
    split; [lia|]. split; [exact Hrest|].
    destruct (IH e' Hrest) as (Hfl' & _ & Hfar).
    intros x [<-|Hin]; [lia|]. specialize (Hfar x Hin). lia.
Qed.

(** In a sorted table the entries are ordered by their index. *)
Lemma intervals_sorted_index (table : list interval) :
  intervals_sorted table = true ->
  (forall i, 0 <= i < Z.of_nat (length table) ->
             first (interval_at table i) <= last (interval_at table i))
  /\ (forall i j, 0 <= i < j -> j < Z.of_nat (length table) ->
                  last (interval_at table i) < first (interval_at table j)).
Proof.
  unfold interval_at.
  induction table as [|e rest IH]; intros Hs.
  - split; intros; cbn in *; lia.
  - destruct (intervals_sorted_cons e rest Hs) as (Hfl & Hrest & Hfar).
    destruct (IH Hrest) as [IH1 IH2]. split.
    + intros i Hi. destruct (Z.eq_dec i 0) as [->|]; [exact Hfl|].
      replace (Z.to_nat i) with (S (Z.to_nat (i - 1))) by lia.
      cbn [nth]. apply IH1. cbn [length] in Hi. lia.
    + intros i j Hij Hj. cbn [length] in Hj.
      replace (Z.to_nat j) with (S (Z.to_nat (j - 1))) by lia. cbn [nth].
      destruct (Z.eq_dec i 0) as [->|].
      * cbn [Z.to_nat nth]. apply Hfar. apply nth_In. lia.
      * replace (Z.to_nat i) with (S (Z.to_nat (i - 1))) by lia. cbn [nth].
        apply IH2; lia.
Qed.

(** The binary search answers for the entries between [bot] and [top]. *)
Lemma intable_loop_spec (table : list interval) (c : Z) (fuel : nat) :
  intervals_sorted table = true ->
  forall bot top,
    0 <= bot -> top < Z.of_nat (length table) -> top - bot + 1 < Z.of_nat fuel ->
    (intable_loop table c fuel bot top = true
     <-> exists k, bot <= k <= top
                   /\ first (interval_at table k) <= c <= last (interval_at table k)).
Proof.
  intros Hs. destruct (intervals_sorted_index table Hs) as [Hfl Hord].
  induction fuel as [|fuel IH]; intros bot top Hbot Htop Hfuel.
  - split; [discriminate|]. intros (k & Hk & _). lia.
  - cbn [intable_loop].
    destruct (Z.geb_spec top bot) as [Hge|Hlt];
      [|split; [discriminate | intros (k & Hk & _); lia]].
    assert (bot <= (bot + top) ÷ 2 <= top) as Hmid
      by (rewrite Z.quot_div_nonneg by lia; Z.div_mod_to_equations; lia).
    set (mid := (bot + top) ÷ 2) in *.
    destruct (Z.ltb_spec (last (interval_at table mid)) c) as [Hlow|Hnlow].
    { rewrite IH by lia. split; intros (k & Hk & Hin); exists k; (split; [|exact Hin]); [lia|].
      destruct (Z.le_gt_cases k mid) as [Hle|]; [|lia].
      exfalso. destruct (Z.eq_dec k mid) as [->|]; [lia|].
      pose proof (Hord k mid ltac:(lia) ltac:(lia)).
      pose proof (Hfl mid ltac:(lia)). lia. }
    rewrite Z.gtb_ltb.
    destruct (Z.ltb_spec c (first (interval_at table mid))) as [Hhigh|Hnhigh].
    { rewrite IH by lia. split; intros (k & Hk & Hin); exists k; (split; [|exact Hin]); [lia|].
      destruct (Z.le_gt_cases mid k) as [Hle|]; [|lia].
      exfalso. destruct (Z.eq_dec k mid) as [->|]; [lia|].
      pose proof (Hord mid k ltac:(lia) ltac:(lia)).
      pose proof (Hfl mid ltac:(lia)). lia. }
    split; [|reflexivity]. intros _. exists mid. lia.
Qed.

(** [intable] on a sorted table is membership in one of its intervals. *)
Lemma intable_iff (table : list interval) (c : Z) :
  intervals_sorted table = true ->
  (intable table c = true
   <-> exists e, In e table /\ first e <= c <= last e).
Proof.
  intros Hs. destruct (intervals_sorted_index table Hs) as [Hfl Hord].
  unfold intable.
  assert ((exists e, In e table /\ first e <= c <= last e)
          <-> exists k, 0 <= k <= Z.of_nat (length table) - 1
                        /\ first (interval_at table k) <= c
                           <= last (interval_at table k)) as ->.
  { split.
    - intros (e & Hin & Hc). apply (In_nth _ _ {| first := 0; last := 0 |}) in Hin
        as (n & Hn & <-).
      exists (Z.of_nat n). unfold interval_at. rewrite Nat2Z.id. split; [lia | exact Hc].
    - intros (k & Hk & Hc). exists (interval_at table k). split; [|exact Hc].
      apply nth_In. lia. }
  destruct (Z.ltb_spec c (first (interval_at table 0))) as [Hbelow|Hnot].
  - split; [discriminate|]. intros (k & Hk & Hc). exfalso.
    destruct (Z.eq_dec k 0) as [->|]; [lia|].
    pose proof (Hord 0 k ltac:(lia) ltac:(lia)).
    pose proof (Hfl 0 ltac:(lia)). lia.
  - apply intable_loop_spec; [exact Hs | lia..].
Qed.

(** X6: The binary search of [intable] decides membership: on a sorted table of
    non-overlapping intervals it returns true exactly for the values inside
    one of the intervals. *)
Theorem intable_correct (table : list interval) (c : Z) :
  intervals_sorted table = true ->
  (intable table c = true
   <-> exists e, In e table /\ first e <= c <= last e).
Proof. exact (intable_iff table c). Qed.

Lemma intable_correct_witness :
  intable nonprint 0xd900 = true
  <-> exists e, In e nonprint /\ first e <= 0xd900 <= last e.
Proof. apply intable_correct. reflexivity. Defined.

Section WidthMore.
Context {UT : UnicodeTables}.

(** X7: With the editor's own tables ([USE_WCHAR_FUNCTIONS] off),
    [utf_char2cells] returns 1, 2, 4 or 6 and nothing else; and it returns
    6, the width of an unprintable character shown as <xxxx>, exactly for
    the codepoints in one of the ranges of [utf_printable]'s table, the
    UTF-16 surrogates 0xD800..0xDFFF among them. *)
Theorem utf_char2cells_values (DP : Display) (c : Z) :
  USE_WCHAR_FUNCTIONS = false ->
  (utf_char2cells c = 1 \/ utf_char2cells c = 2
   \/ utf_char2cells c = 4 \/ utf_char2cells c = 6)
  /\ (utf_char2cells c = 6
      <-> exists e, In e nonprint /\ first e <= c <= last e).
Proof.
  intros Hown.
  assert (forall e, In e nonprint -> 0x100 <= first e) as Hhigh.
  { intros e Hin. cbn in Hin.
    repeat (destruct Hin as [<-|Hin]; [cbn; lia|]). destruct Hin. }
  rewrite <- (intable_iff nonprint c eq_refl).
  unfold utf_char2cells, utf_char2cells_ambiguous, utf_printable. rewrite Hown.
  destruct (Z.geb_spec c 0x100) as [Hc|Hc].
  - destruct (intable nonprint c) eqn:Hnp; cbn [negb].
    + split; [auto | tauto].
    + split.
      * repeat match goal with
               | |- context [if ?b then _ else _] => destruct b
               end; auto.
      * split; [|discriminate].
        repeat match goal with
               | |- context [if ?b then _ else _] => destruct b
               end; discriminate.
  - assert (intable nonprint c = false) as Hnp.
    { destruct (intable nonprint c) eqn:E; [|reflexivity].
      apply (intable_iff nonprint c eq_refl) in E as (e & Hin & He).
      specialize (Hhigh e Hin). lia. }
    rewrite Hnp. split.
    + repeat match goal with
             | |- context [if ?b then _ else _] => destruct b
             end; auto.
    + split; [|discriminate].
      repeat match goal with
             | |- context [if ?b then _ else _] => destruct b
             end; discriminate.
Qed.

(** X8: The 'ambiwidth' option matters for the characters of the ambiguous
    table alone: two settings that differ in nothing but [p_ambw] give the
    same width to every character that is below 0x80 or outside that table,
    and where they differ the widths are 1 and 2. *)
Theorem utf_char2cells_ambiwidth_local (DP1 DP2 : Display) (c : Z) :
  @USE_WCHAR_FUNCTIONS DP1 = @USE_WCHAR_FUNCTIONS DP2 ->
  (forall x, @wcwidth DP1 x = @wcwidth DP2 x) ->
  (forall x, @iswprint DP1 x = @iswprint DP2 x) ->
  @p_emoji DP1 = @p_emoji DP2 ->
  (forall x, @vim_isprintc DP1 x = @vim_isprintc DP2 x) ->
  @utf_char2cells UT DP1 c <> @utf_char2cells UT DP2 c ->
  0x80 <= c /\ intable ambiguous c = true
  /\ (@utf_char2cells UT DP1 c = 1 /\ @utf_char2cells UT DP2 c = 2
      \/ @utf_char2cells UT DP1 c = 2 /\ @utf_char2cells UT DP2 c = 1).
Proof.
  intros Hw Hwc Hisw Hemoji Hprint.
  unfold utf_char2cells, utf_char2cells_ambiguous, utf_printable.
  rewrite Hw, Hwc, Hisw, Hemoji, Hprint.
  destruct (Z.geb_spec c 0x80) as [Hc|Hc]; cbn [andb];
    destruct (intable ambiguous c); rewrite ?andb_false_r, ?andb_true_r;
    repeat match goal with
           | |- context [if ?b then _ else _] => destruct b
           end; intros Hne; try congruence; repeat split; auto; lia.
Qed.
End WidthMore.

Lemma utf_char2cells_values_witness :
  @utf_char2cells sample_tables sample_display 0xdc00 = 6
  <-> exists e, In e nonprint /\ first e <= 0xdc00 <= last e.
Proof.
  apply (@utf_char2cells_values sample_tables sample_display 0xdc00).
  reflexivity.
Defined.

Lemma utf_char2cells_ambiwidth_local_witness :
  0x80 <= 0xa1 /\ intable (@ambiguous sample_tables) 0xa1 = true
  /\ (@utf_char2cells sample_tables sample_display 0xa1 = 1
      /\ @utf_char2cells sample_tables sample_display_double 0xa1 = 2
      \/ @utf_char2cells sample_tables sample_display 0xa1 = 2
         /\ @utf_char2cells sample_tables sample_display_double 0xa1 = 1).
Proof.
  apply (@utf_char2cells_ambiwidth_local sample_tables
           sample_display sample_display_double 0xa1);
    try reflexivity.
  vm_compute. congruence.
Defined.

(** ** Lengths with composing characters *)

(** A byte that is not NUL lies inside the list. *)
Lemma peek_inside (p : list byte) (i : Z) :
  0 <= i -> p.[i] <> 0 -> i < Z.of_nat (length p).
Proof.
  intros Hi Hne. destruct (Z.lt_ge_cases i (Z.of_nat (length p))); [assumption|].
  exfalso. apply Hne. unfold peek. rewrite nth_overflow by lia. reflexivity.
Qed.

(** So [p + utf_ptr2len p] is still inside the string or at its end. *)
Lemma utf_ptr2len_inside (p : list byte) :
  0 <= utf_ptr2len p <= Z.of_nat (length p).
Proof.
  assert (0 <= utf_ptr2len p) as Hpos.
  { unfold utf_ptr2len.
    pose proof (utf8len_tab_range p.[0] (peek_range p 0)).
    repeat match goal with
           | |- context [if ?b then _ else _] => destruct b
           end; lia. }
  split; [exact Hpos|].
  destruct (Z.eq_dec (utf_ptr2len p) 0) as [->|]; [lia|].
  pose proof (utf_ptr2len_no_NUL p (utf_ptr2len p - 1) ltac:(lia)) as Hlast.
  pose proof (peek_inside p (utf_ptr2len p - 1) ltac:(lia) Hlast). lia.
Qed.

Lemma utf_ptr2len_positive (p : list byte) : p.[0] <> NUL -> 1 <= utf_ptr2len p.
Proof.
  intros H0. unfold utf_ptr2len.
  pose proof (utf8len_tab_range p.[0] (peek_range p 0)).
  destruct (Z.eqb_spec p.[0] NUL); [contradiction|].
  destruct (trail_scan _ _ _); lia.
Qed.

Lemma ptr_add_length (p : list byte) (n : Z) :
  0 <= n <= Z.of_nat (length p) ->
  Z.of_nat (length (ptr_add p n)) = Z.of_nat (length p) - n.
Proof. intros Hn. unfold ptr_add. rewrite length_skipn. lia. Qed.

(** The bytes [utf_ptr2len_len] counts, when they fit [size], hold no NUL
    either. *)
Lemma utf_ptr2len_len_no_NUL (p : list byte) (size i : Z) :
  p.[0] <> NUL -> utf_ptr2len_len p size <= size ->
  0 <= i < utf_ptr2len_len p size -> p.[i] <> NUL.
Proof.
  intros H0. unfold utf_ptr2len_len.
  destruct (Z.eqb_spec (tab_at utf8len_tab p.[0]) 1); [intros; assert (i = 0) as -> by lia; exact H0|].
  rewrite Z.gtb_ltb.
  destruct (trail_scan p 1 _) eqn:Hscan; intros Hfit Hi;
    [|assert (i = 0) as -> by lia; exact H0].
  destruct (Z.ltb_spec size (tab_at utf8len_tab p.[0])); [lia|].
  destruct (Z.eq_dec i 0) as [->|]; [exact H0|].
  apply trail_not_NUL, (trail_scan_inv p _ 1 Hscan). lia.
Qed.

(** A prefix without NUL lies inside the list. *)
Lemma no_NUL_inside (p : list byte) (len : Z) :
  0 <= len -> (forall i, 0 <= i < len -> p.[i] <> NUL) ->
  len <= Z.of_nat (length p).
Proof.
  intros Hlen Hnn. destruct (Z.eq_dec len 0); [lia|].
  pose proof (peek_inside p (len - 1) ltac:(lia) (Hnn (len - 1) ltac:(lia))). lia.
Qed.

Section ComposingLengthProofs.
Context {UT : UnicodeTables} {AR : Arabic}.

(** The loop of [utfc_ptr2len] ends before the end of the string: with
    more fuel than bytes left it returns, at or behind where it started, and
    what it has counted holds no NUL. *)
Lemma utfc_ptr2len_loop_ends (fuel : nat) :
  forall (p : list byte) (prevlen len : Z),
    0 <= len -> (forall i, 0 <= i < len -> p.[i] <> NUL) ->
    Z.of_nat (length p) - len < Z.of_nat fuel ->
    exists r, utfc_ptr2len_loop fuel p prevlen len = Some r
              /\ len <= r /\ (forall i, 0 <= i < r -> p.[i] <> NUL).
Proof.
  induction fuel as [|fuel IH]; intros p prevlen len Hlen Hnn Hfuel.
  { pose proof (no_NUL_inside p len Hlen Hnn). lia. }
  cbn [utfc_ptr2len_loop].
  destruct (Z.ltb_spec p.[len] 0x80) as [|Hhigh];
    [exists len; split; [reflexivity|]; split; [lia | exact Hnn]|].
  cbn [orb].
  destruct (negb _); [exists len; split; [reflexivity|]; split; [lia | exact Hnn]|].
  assert (1 <= utf_ptr2len (ptr_add p len)) as Hpos.
  { apply utf_ptr2len_positive. rewrite peek_ptr_add by lia.
    rewrite Z.add_0_r. unfold NUL. lia. }
  destruct (IH p len (len + utf_ptr2len (ptr_add p len))) as (r & Hr & Hle & Hb);
    [lia | | lia |].
  { intros i Hi. destruct (Z.lt_ge_cases i len); [apply Hnn; lia|].
    replace i with (len + (i - len)) by lia.
    rewrite <- peek_ptr_add by lia. apply utf_ptr2len_no_NUL. lia. }
  exists r. split; [exact Hr|]. split; [lia | exact Hb].
Qed.

(** X9: [utfc_ptr2len] always returns; it returns 0 exactly at the end of the
    string, otherwise at least 1 and at least what [utf_ptr2len] counts; and
    the bytes it counts hold no NUL: stepping by it moves on and cannot pass
    the terminator. *)
Theorem utfc_ptr2len_result (p : list byte) :
  exists r,
    utfc_ptr2len p = Some r
    /\ (r = 0 <-> p.[0] = NUL)
    /\ (p.[0] <> NUL -> 1 <= r /\ utf_ptr2len p <= r)
    /\ (forall i, 0 <= i < r -> p.[i] <> NUL).
Proof.
  unfold utfc_ptr2len.
  destruct (Z.eqb_spec p.[0] NUL) as [H0|H0].
  { exists 0. split; [reflexivity|]. split; [tauto|].
    split; [contradiction | intros; lia]. }
  pose proof (utf_ptr2len_positive p H0) as Hpos.
  assert (forall i, 0 <= i < 1 -> p.[i] <> NUL) as Hone
    by (intros i Hi; assert (i = 0) as -> by lia; exact H0).
  destruct (_ && _) eqn:Hquick.
  { exists 1. split; [reflexivity|].
    split; [split; intros; [lia | contradiction]|]. split; [|exact Hone].
    intros _. split; [lia|].
    apply andb_prop in Hquick as [Hb0 _].
    unfold utf_ptr2len. rewrite utf8len_tab_spec by apply peek_range.
    destruct (Z.eqb_spec p.[0] NUL); [contradiction|].
    destruct (Z.ltb_spec p.[0] 0xc0); [|lia].
    destruct (trail_scan _ _ _); lia. }
  destruct ((utf_ptr2len p =? 1) && _) eqn:Hill.
  { exists 1. split; [reflexivity|].
    split; [split; intros; [lia | contradiction]|]. split; [|exact Hone].
    intros _. apply andb_prop in Hill as [H1 _]. lia. }
  pose proof (utf_ptr2len_inside p) as Hin.
  destruct (utfc_ptr2len_loop_ends (S (length p)) p 0 (utf_ptr2len p))
    as (r & Hr & Hle & Hb); [lia | apply utf_ptr2len_no_NUL | lia |].
  exists r. split; [exact Hr|].
  split; [split; intros; [lia | contradiction]|]. split; [|exact Hb].
  intros _. lia.
Qed.

(** The loop of [utfc_ptr2len_len] ends, never counts past [size], and what
    it has counted holds no NUL. *)
Lemma utfc_ptr2len_len_loop_ends (fuel : nat) :
  forall (p : list byte) (size prevlen len : Z),
    0 <= len <= size ->
    (forall i, 0 <= i < len -> p.[i] <> NUL) ->
    Z.of_nat (length p) - len < Z.of_nat fuel ->
    exists r, utfc_ptr2len_len_loop fuel p size prevlen len = Some r
              /\ len <= r <= size
              /\ (forall i, 0 <= i < r -> p.[i] <> NUL).
Proof.
  induction fuel as [|fuel IH]; intros p size prevlen len Hlen Hnn Hfuel.
  { pose proof (no_NUL_inside p len ltac:(lia) Hnn). lia. }
  cbn [utfc_ptr2len_len_loop].
  destruct (Z.ltb_spec len size);
    [|exists len; split; [reflexivity|]; split; [lia | exact Hnn]].
  destruct (Z.ltb_spec p.[len] 0x80) as [|Hhigh];
    [exists len; split; [reflexivity|]; split; [lia | exact Hnn]|].
  pose proof (utf_ptr2len_len_pos (ptr_add p len) (size - len)) as Hpos.
  rewrite Z.gtb_ltb.
  destruct (Z.ltb_spec (size - len) (utf_ptr2len_len (ptr_add p len) (size - len)));
    [exists len; split; [reflexivity|]; split; [lia | exact Hnn]|].
  destruct (negb _);
    [exists len; split; [reflexivity|]; split; [lia | exact Hnn]|].
  destruct (IH p size len (len + utf_ptr2len_len (ptr_add p len) (size - len)))
    as (r & Hr & Hle & Hb); [lia | | lia |].
  { intros i Hi. destruct (Z.lt_ge_cases i len); [apply Hnn; lia|].
    replace i with (len + (i - len)) by lia.
    rewrite <- peek_ptr_add by lia.
    apply (utf_ptr2len_len_no_NUL _ (size - len)); [|lia|lia].
    rewrite peek_ptr_add, Z.add_0_r by lia. unfold NUL. lia. }
  exists r. split; [exact Hr|]. split; [lia | exact Hb].
Qed.

(** X10: [utfc_ptr2len_len] always returns; it returns 0 exactly for an empty
    string, for a [size] of at least 1 never more than [size], and the bytes
    it counts hold no NUL. *)
Theorem utfc_ptr2len_len_result (p : list byte) (size : Z) :
  exists r,
    utfc_ptr2len_len p size = Some r
    /\ (r = 0 <-> size < 1 \/ p.[0] = NUL)
    /\ 0 <= r
    /\ (1 <= size -> r <= size)
    /\ (forall i, 0 <= i < r -> p.[i] <> NUL).
Proof.
  unfold utfc_ptr2len_len.
  destruct (Z.ltb_spec size 1) as [Hsize|Hsize]; cbn [orb].
  { exists 0. split; [reflexivity|]. split; [tauto|].
    split; [lia|]. split; intros; lia. }
  destruct (Z.eqb_spec p.[0] NUL) as [H0|H0].
  { exists 0. split; [reflexivity|]. split; [tauto|].
    split; [lia|]. split; intros; lia. }
  assert (forall r, 1 <= r -> (r = 0 <-> size < 1 \/ p.[0] = NUL)) as Hnz
    by (intros r Hr; split; [lia | intros [|]; [lia | contradiction]]).
  assert (forall i, 0 <= i < 1 -> p.[i] <> NUL) as Hone
    by (intros i Hi; assert (i = 0) as -> by lia; exact H0).
  destruct (_ && _).
  { exists 1. split; [reflexivity|]. split; [apply Hnz; lia|].
    split; [lia|]. split; [lia | exact Hone]. }
  pose proof (utf_ptr2len_len_pos p size) as Hpos.
  destruct (_ || _) eqn:Hill.
  { exists 1. split; [reflexivity|]. split; [apply Hnz; lia|].
    split; [lia|]. split; [lia | exact Hone]. }
  apply orb_false_elim in Hill as [_ Hfit].
  rewrite Z.gtb_ltb in Hfit. apply Z.ltb_ge in Hfit.
  assert (forall i, 0 <= i < utf_ptr2len_len p size -> p.[i] <> NUL) as Hnn
    by (intros i Hi; apply (utf_ptr2len_len_no_NUL p size); assumption).
  pose proof (no_NUL_inside p (utf_ptr2len_len p size) ltac:(lia) Hnn) as Hin.
  destruct (utfc_ptr2len_len_loop_ends (S (length p)) p size 0
              (utf_ptr2len_len p size)) as (r & Hr & Hle & Hb);
    [lia | exact Hnn | lia |].
  exists r. split; [exact Hr|]. split; [apply Hnz; lia|].
  split; [lia|]. split; [lia | exact Hb].
Qed.
End ComposingLengthProofs.

Lemma utfc_ptr2len_len_result_witness :
  exists r,
    @utfc_ptr2len_len sample_tables sample_arabic
      [Byte.x61; Byte.xcc; Byte.x81; Byte.xcc; Byte.x82; Byte.x62] 4 = Some r
    /\ r <= 4.
Proof.
  destruct (@utfc_ptr2len_len_result sample_tables sample_arabic
              [Byte.x61; Byte.xcc; Byte.x81; Byte.xcc; Byte.x82; Byte.x62] 4)
    as (r & Hr & _ & _ & Hsize & _).
  exists r. split; [exact Hr | apply Hsize; lia].
Defined.

Lemma utfc_ptr2len_result_witness :
  exists r,
    @utfc_ptr2len sample_tables sample_arabic
      [Byte.x61; Byte.xcc; Byte.x81; Byte.xcc; Byte.x82; Byte.x62] = Some r
    /\ 1 <= r
    /\ utf_ptr2len [Byte.x61; Byte.xcc; Byte.x81; Byte.xcc; Byte.x82; Byte.x62] <= r.
Proof.
  destruct (@utfc_ptr2len_result sample_tables sample_arabic
              [Byte.x61; Byte.xcc; Byte.x81; Byte.xcc; Byte.x82; Byte.x62])
    as (r & Hr & _ & Hpos & _).
  exists r. split; [exact Hr | apply Hpos; vm_compute; congruence].
Defined.

(** ** Encoding names *)

Section NameMore.
Context {EC : EncConstants} {GL : Globals}.
Local Open Scope string_scope.

Lemma enc_skip_lowered (r : string) :
  enc_lower_dash r = r -> enc_lower_dash (enc_skip r) = enc_skip r.
Proof.
  intros Hr. unfold enc_skip.
  repeat match goal with
         | |- context [if ?b then _ else _] => destruct b
         end; rewrite ?enc_lower_dash_drop, Hr; reflexivity.
Qed.

(** The names of both tables are written in lower case, without '_'. *)
Lemma enc_canon_at_lowered (i : Z) :
  enc_lower_dash (name (enc_canon_at i)) = name (enc_canon_at i).
Proof.
  unfold enc_canon_at.
  assert (forallb (fun e => String.eqb (enc_lower_dash (name e)) (name e))
                  enc_canon_table = true) as Hall by (vm_compute; reflexivity).
  rewrite forallb_forall in Hall.
  destruct (Nat.lt_ge_cases (Z.to_nat i) (length enc_canon_table)) as [Hin|Hout].
  - apply String.eqb_eq, Hall, nth_In, Hin.
  - rewrite nth_overflow by exact Hout. reflexivity.
Qed.

(** X11: [enc_canonize] returns a normalised name: for every name other than
    "default", the result holds no upper-case ASCII letter and no '_'
    (lowering it again changes nothing), whether or not the tables know the
    name. *)
Theorem enc_canonize_normalized (x : string) :
  x <> "default" ->
  enc_lower_dash (enc_canonize x) = enc_canonize x.
Proof.
  intros Hx. unfold enc_canonize.
  destruct (STRCMP_eq x "default") eqn:E;
    [apply String.eqb_eq in E; contradiction|].
  pose proof (enc_lower_dash_idem x) as Hr.
  set (r := enc_lower_dash x) in *.
  pose proof (enc_fix_spelling_lowered _ (enc_skip_lowered r Hr)) as Hp.
  cbv zeta. fold r.
  match goal with
  | |- context [if ?a >=? 0 then _ else _] => destruct (a >=? 0)
  end; [exact Hp|].
  match goal with
  | |- context [if ?a >=? 0 then _ else _] => destruct (a >=? 0)
  end; [apply enc_canon_at_lowered|].
  rewrite enc_lower_dash_app, enc_lower_dash_take, Hr, Hp. reflexivity.
Qed.

(** X12: Encoding names are case-insensitive and '_' stands for '-': two names,
    neither of them "default", that are equal once lower-cased with '_'
    replaced have the same canonical name. *)
Theorem enc_canonize_case_insensitive (x y : string) :
  x <> "default" -> y <> "default" ->
  enc_lower_dash x = enc_lower_dash y ->
  enc_canonize x = enc_canonize y.
Proof.
  intros Hx Hy Hxy. unfold enc_canonize.
  destruct (STRCMP_eq x "default") eqn:Ex;
    [apply String.eqb_eq in Ex; contradiction|].
  destruct (STRCMP_eq y "default") eqn:Ey;
    [apply String.eqb_eq in Ey; contradiction|].
  rewrite Hxy. reflexivity.
Qed.

(** *** Looking names up *)

Lemma enc_canon_search_from_spec (tbl : list enc_canon) (nm : string) :
  forall i,
    (enc_canon_search_from tbl i nm = -1 /\ ~ In nm (map name tbl))
    \/ (exists k, enc_canon_search_from tbl i nm = i + Z.of_nat k
                  /\ (k < length tbl)%nat
                  /\ name (nth k tbl {| name := ""; prop := 0; codepage := 0 |}) = nm
                  /\ forall k', (k' < k)%nat ->
                                name (nth k' tbl {| name := ""; prop := 0; codepage := 0 |})
                                <> nm).
Proof.
  induction tbl as [|e tbl IH]; intros i.
  - left. split; [reflexivity | intros []].
  - cbn [enc_canon_search_from]. unfold STRCMP_eq.
    destruct (String.eqb_spec nm (name e)) as [Heq|Hne].
    + right. exists 0%nat. cbn. repeat split; [lia | lia | congruence | lia].
    + destruct (IH (i + 1)) as [[Hm Hnot]|(k & Hk & Hlt & Hname & Hfirst)].
      * left. split; [exact Hm|]. intros [H|H]; [congruence | contradiction].
      * right. exists (S k). cbn [nth length].
        repeat split; [lia | lia | exact Hname |].
        intros [|k'] Hk'; cbn [nth]; [congruence | apply Hfirst; lia].
Qed.

(** X13: [enc_canon_search] finds a name exactly when the table has it: -1 for a
    name that is not canonical, otherwise the index, below [IDX_COUNT], of
    the entry of that name; and as the names of the table are pairwise
    distinct, every entry is found under its own index. *)
Theorem enc_canon_search_correct :
  (forall nm : string,
      (enc_canon_search nm = -1 /\ ~ In nm (map name enc_canon_table))
      \/ (0 <= enc_canon_search nm < IDX_COUNT
          /\ name (enc_canon_at (enc_canon_search nm)) = nm))
  /\ (forall i, 0 <= i < IDX_COUNT ->
                enc_canon_search (name (enc_canon_at i)) = i)
  /\ Z.of_nat (length enc_canon_table) = IDX_COUNT.
Proof.
  split; [|split; [|reflexivity]].
  - intros nm. unfold enc_canon_search, enc_canon_at.
    destruct (enc_canon_search_from_spec enc_canon_table nm 0)
      as [H|(k & Hk & Hlt & Hname & _)]; [left; exact H|].
    right. rewrite Hk, Z.add_0_l, Nat2Z.id.
    split; [|exact Hname]. change IDX_COUNT with (Z.of_nat (length enc_canon_table)).
    lia.
  - intros i Hi.
    assert (forallb (fun k => Z.eqb (enc_canon_search (name (enc_canon_at (Z.of_nat k))))
                                    (Z.of_nat k))
                    (seq 0 59) = true) as Hall by (vm_compute; reflexivity).
    rewrite forallb_forall in Hall.
    specialize (Hall (Z.to_nat i)). rewrite Z2Nat.id in Hall by lia.
    apply Z.eqb_eq, Hall, in_seq. unfold IDX_COUNT in Hi. lia.
Qed.

(** X14: Every alias leads to a canonical name: the index an alias entry holds
    lies inside the canonical table, and [enc_canonize] turns the alias into
    a name of that table. *)
Theorem enc_alias_table_resolves (alias : string) (i : Z) :
  In (alias, i) enc_alias_table ->
  0 <= i < IDX_COUNT
  /\ 0 <= enc_canon_search (enc_canonize alias) < IDX_COUNT.
Proof.
  intros Hin.
  assert (forallb (fun a => Z.leb 0 (snd a) && Z.ltb (snd a) IDX_COUNT
                            && Z.leb 0 (enc_canon_search (enc_canonize (fst a)))
                            && Z.ltb (enc_canon_search (enc_canonize (fst a))) IDX_COUNT)
                  enc_alias_table = true) as Hall by (vm_compute; reflexivity).
  rewrite forallb_forall in Hall. specialize (Hall _ Hin). cbn [fst snd] in Hall.
  repeat (apply andb_prop in Hall as [Hall ?]). lia.
Qed.
End NameMore.

Lemma enc_canonize_normalized_witness :
  @enc_lower_dash
    (@enc_canonize sample_constants sample_globals "8bit-Foo_BAR")
  = @enc_canonize sample_constants sample_globals "8bit-Foo_BAR".
Proof.
  apply (@enc_canonize_normalized sample_constants sample_globals).
  discriminate.
Defined.

Lemma enc_canonize_case_insensitive_witness :
  @enc_canonize sample_constants sample_globals "UTF_16le"
  = @enc_canonize sample_constants sample_globals "utf-16LE".
Proof.
  apply (@enc_canonize_case_insensitive sample_constants sample_globals);
    [discriminate | discriminate | reflexivity].
Defined.

Lemma enc_canon_search_correct_witness :
  @enc_canon_search sample_constants
    (name (@enc_canon_at sample_constants IDX_UTF8)) = IDX_UTF8.
Proof.
  apply (proj1 (proj2 (@enc_canon_search_correct sample_constants))).
  vm_compute. split; congruence.
Defined.

Lemma enc_alias_table_resolves_witness :
  0 <= IDX_ISO_15 < IDX_COUNT
  /\ 0 <= @enc_canon_search sample_constants
            (@enc_canonize sample_constants sample_globals "latin9") < IDX_COUNT.
Proof.
  apply (@enc_alias_table_resolves sample_constants sample_globals "latin9"%string).
  cbn [enc_alias_table]. repeat (first [left; reflexivity | right]).
Defined.

(** ** Conversion *)

Lemma utf_char2bytes_length (c : Z) :
  Z.of_nat (length (snd (utf_char2bytes c))) = fst (utf_char2bytes c)
  /\ 1 <= fst (utf_char2bytes c) <= 6
  /\ (c < 0x10000 -> fst (utf_char2bytes c) <= 3).
Proof.
  unfold utf_char2bytes.
  repeat match goal with
         | |- context [c <? ?y] => destruct (Z.ltb_spec c y)
         end; cbn [fst snd length]; lia.
Qed.

Lemma latin1_to_utf8_length (ptr : list byte) (count : nat) :
  forall i,
    Z.of_nat count <= Z.of_nat (length (latin1_to_utf8 ptr i count))
    <= 2 * Z.of_nat count.
Proof.
  induction count as [|count IH]; intros i; [cbn; lia|].
  cbn [latin1_to_utf8]. rewrite length_app. specialize (IH (i + 1)).
  destruct (_ <? 0x80); cbn [length]; lia.
Qed.

Lemma latin9_to_unicode_range (b : Z) :
  0 <= b < 256 -> 0 <= latin9_to_unicode b < 0x10000.
Proof.
  intros Hb. unfold latin9_to_unicode.
  repeat match goal with
         | |- context [b =? ?y] => destruct (Z.eqb_spec b y)
         end; lia.
Qed.

Lemma latin9_to_utf8_length (ptr : list byte) (count : nat) :
  forall i,
    Z.of_nat count <= Z.of_nat (length (latin9_to_utf8 ptr i count))
    <= 3 * Z.of_nat count.
Proof.
  induction count as [|count IH]; intros i; [cbn; lia|].
  cbn [latin9_to_utf8]. rewrite length_app. specialize (IH (i + 1)).
  destruct (utf_char2bytes_length (latin9_to_unicode ptr.[i])) as (Hlen & Hpos & Hbmp).
  pose proof (latin9_to_unicode_range ptr.[i] (peek_range ptr i)).
  lia.
Qed.

Section ConversionMore.
Context {UT : UnicodeTables} {DP : Display}
        {EC : EncConstants} {XC : ExternalConverter}.

(** X15: What [convert_setup_ext] leaves in the context, whatever the names: the
    fail flag is off; type and factor come in one of six pairs (no
    conversion 1, latin1 to UTF-8 2, latin9 to UTF-8 3, UTF-8 to latin1 or
    latin9 1, iconv 4); the result is [FAIL] exactly when no type was found
    for two different non-empty names; and the iconv type is only set with
    a converter that was opened. *)
Theorem convert_setup_ext_context (vcp : vimconv_T) (from to : option string)
    (from_unicode_is_utf8 to_unicode_is_utf8 : bool) :
  let st := fst (convert_setup_ext vcp from from_unicode_is_utf8
                   to to_unicode_is_utf8) in
  let v := snd (convert_setup_ext vcp from from_unicode_is_utf8
                  to to_unicode_is_utf8) in
  vc_fail v = false
  /\ In (vc_type v, vc_factor v)
        [ (CONV_NONE, 1); (CONV_TO_UTF8, 2); (CONV_9_TO_UTF8, 3);
          (CONV_TO_LATIN1, 1); (CONV_TO_LATIN9, 1); (CONV_ICONV, 4) ]
  /\ (st = FAIL ->
      vc_type v = CONV_NONE
      /\ exists f t, from = Some f /\ to = Some t
                     /\ f <> ""%string /\ t <> ""%string /\ f <> t)
  /\ (st = OK -> vc_type v = CONV_NONE ->
      from = None \/ from = Some ""%string
      \/ to = None \/ to = Some ""%string \/ from = to)
  /\ (vc_type v = CONV_ICONV -> USE_ICONV = true /\ vc_fd v <> -1).
Proof.
  cbv zeta. unfold convert_setup_ext.
  destruct from as [f|], to as [t|];
    try (cbn; repeat split; auto; try discriminate; tauto).
  unfold STRCMP_eq.
  destruct (String.eqb_spec f "") as [->|Hf];
    [cbn; repeat split; auto; try discriminate; tauto|].
  destruct (String.eqb_spec t "") as [->|Ht];
    [cbn; repeat split; auto; try discriminate; tauto|].
  destruct (String.eqb_spec f t) as [->|Hft];
    [cbn; repeat split; auto; try discriminate; tauto|].
  cbn [orb].
  assert (exists f0 t0, Some f = Some f0 /\ Some t = Some t0
                        /\ f0 <> ""%string /\ t0 <> ""%string /\ f0 <> t0) as Hnames
    by (exists f, t; repeat split; assumption).
  repeat match goal with
         | |- context [if ?b then _ else _] =>
             lazymatch b with
             | negb (my_iconv_open _ _ =? -1) =>
                 destruct (Z.eqb_spec (my_iconv_open
                   (if negb ((if to_unicode_is_utf8
                              then enc_canon_props t & ENC_UNICODE
                              else if enc_canon_props t =? ENC_UNICODE then 1 else 0) =? 0)
                    then "utf-8"%string else t)
                   (if negb ((if from_unicode_is_utf8
                              then enc_canon_props f & ENC_UNICODE
                              else if enc_canon_props f =? ENC_UNICODE then 1 else 0) =? 0)
                    then "utf-8"%string else f)) (-1)); cbn [negb]
             | _ => destruct b eqn:?
             end
         end;
    cbn; repeat split; auto; try discriminate; try tauto;
    try (intros; exfalso; congruence).
Qed.

(** X16: The internal conversions to UTF-8 keep within the factor of their
    context: for a text of [len] bytes, latin1 to UTF-8 returns between
    [len] and 2 * [len] bytes and latin9 to UTF-8 between [len] and
    3 * [len], the length being left in [*lenp]; the buffer of
    [len * factor + 1] bytes always holds the result and its NUL. *)
Theorem string_convert_to_utf8_size (vcp : vimconv_T) (ptr : list byte)
    (len : Z) (unconvlenp : option Z) :
  0 < len ->
  (vc_type vcp = CONV_TO_UTF8 /\ vc_factor vcp = 2)
  \/ (vc_type vcp = CONV_9_TO_UTF8 /\ vc_factor vcp = 3) ->
  exists d,
    string_convert_ext vcp ptr (Some len) unconvlenp
    = Some {| retval := Some d;
              lenp_out := Some (Z.of_nat (length d));
              unconvlenp_out := unconvlenp |}
    /\ len <= Z.of_nat (length d) <= len * vc_factor vcp.
Proof.
  intros Hlen Htype. unfold string_convert_ext.
  destruct (Z.eqb_spec len 0); [lia|].
  destruct Htype as [[-> ->]|[-> ->]]; eexists; (split; [reflexivity|]).
  - pose proof (latin1_to_utf8_length ptr (Z.to_nat len) 0). lia.
  - pose proof (latin9_to_utf8_length ptr (Z.to_nat len) 0). lia.
Qed.
End ConversionMore.

Lemma string_convert_to_utf8_size_witness :
  exists d,
    @string_convert_ext sample_tables sample_display sample_converter
      {| vc_type := CONV_9_TO_UTF8; vc_factor := 3; vc_fd := -1; vc_fail := false |}
      [Byte.xa4; Byte.x41] (Some 2) None
    = Some {| retval := Some d; lenp_out := Some (Z.of_nat (length d));
              unconvlenp_out := None |}
    /\ 2 <= Z.of_nat (length d) <= 2 * 3.
Proof.
  apply (@string_convert_to_utf8_size sample_tables sample_display sample_converter
           {| vc_type := CONV_9_TO_UTF8; vc_factor := 3; vc_fd := -1;
              vc_fail := false |} [Byte.xa4; Byte.x41] 2 None);
    [lia | right; split; reflexivity].
Defined.

Lemma convert_setup_ext_context_witness :
  vc_type (snd (@convert_setup_ext sample_constants sample_converter vimconv_init
                  (Some "koi8-r"%string) true (Some "cp437"%string) true))
  = CONV_NONE.
Proof.
  pose proof (@convert_setup_ext_context sample_constants sample_converter
                vimconv_init (Some "koi8-r"%string) (Some "cp437"%string)
                true true) as H.
  cbv zeta in H. destruct H as (_ & _ & Hfail & _).
  apply Hfail. vm_compute. reflexivity.
Defined.

(** *** latin1 to UTF-8 and back *)

(** The bytes the [CONV_TO_UTF8] loop stores for one latin1 byte. *)
Local Abbreviation latin1_char b :=
  (if byte.unsigned b <? 0x80 then [byte.of_Z (byte.unsigned b)]
   else [byte.of_Z (0xc0 + (to_unsigned (byte.unsigned b) >> 6));
         byte.of_Z (0x80 + (byte.unsigned b & 0x3f))]).

Lemma peek_app_at (pre p : list byte) (i : Z) :
  0 <= i -> (pre ++ p).[Z.of_nat (length pre) + i] = p.[i].
Proof.
  intros Hi. rewrite <- (peek_ptr_add (pre ++ p)) by lia.
  rewrite ptr_add_app. reflexivity.
Qed.

Lemma latin1_to_utf8_flat (s : list byte) :
  forall pre rest : list byte,
    latin1_to_utf8 (pre ++ s ++ rest) (Z.of_nat (length pre)) (length s)
    = flat_map (fun b => latin1_char b) s.
Proof.
  induction s as [|b s IH]; intros pre rest; [reflexivity|].
  cbn [latin1_to_utf8 length flat_map].
  replace ((pre ++ (b :: s) ++ rest).[Z.of_nat (length pre)])
    with (byte.unsigned b)
    by (rewrite <- (Z.add_0_r (Z.of_nat (length pre))), peek_app_at by lia;
        reflexivity).
  f_equal.
  replace (pre ++ (b :: s) ++ rest) with ((pre ++ [b]) ++ s ++ rest)
    by (rewrite <- app_assoc; reflexivity).
  replace (Z.of_nat (length pre) + 1) with (Z.of_nat (length (pre ++ [b])))
    by (rewrite length_app; cbn [length]; lia).
  apply IH.
Qed.

Section Latin1RoundTrip.
Context {UT : UnicodeTables} {DP : Display} {XC : ExternalConverter}.
Variable vcp : vimconv_T.
Hypothesis vcp_latin1 : vc_type vcp = CONV_TO_LATIN1.
Hypothesis no_composing_latin1 :
  forall c, 0 <= c < 0x100 -> utf_iscomposing c = false.

(** The loop of the conversion to latin1, run over what the conversion to
    UTF-8 stored for [s], stores [s]. *)
Lemma utf8_to_latin_flat (s : list byte) :
  forall (fuel : nat) (pre d : list byte),
    (length (flat_map (fun b => latin1_char b) s) < fuel)%nat ->
    utf8_to_latin fuel vcp (pre ++ flat_map (fun b => latin1_char b) s)
      (Z.of_nat (length (pre ++ flat_map (fun b => latin1_char b) s)))
      (Z.of_nat (length pre)) d None
    = Some (Some (d ++ s), None).
Proof using vcp_latin1 no_composing_latin1.
  induction s as [|b s IH]; intros fuel pre d Hfuel.
  - destruct fuel as [|fuel]; [cbn in Hfuel; lia|].
    cbn [flat_map utf8_to_latin]. rewrite !app_nil_r.
    destruct (Z.ltb_spec (Z.of_nat (length pre)) (Z.of_nat (length pre))); [lia|].
    reflexivity.
  - destruct fuel as [|fuel]; [cbn in Hfuel; lia|].
    cbn [flat_map] in *. rewrite length_app in Hfuel.
    set (tail := flat_map (fun b => latin1_char b) s) in *.
    cbn [utf8_to_latin].
    rewrite !length_app.
    pose proof (byte.unsigned_range b) as Hb.
    destruct (Z.ltb_spec (Z.of_nat (length pre))
                (Z.of_nat (length pre + (length (latin1_char b) + length tail))))
      as [_|Hge]; [|destruct (byte.unsigned b <? 0x80); cbn [length] in Hge; lia].
    rewrite ptr_add_app.
    replace ((pre ++ latin1_char b ++ tail).[Z.of_nat (length pre)])
      with ((latin1_char b ++ tail).[0])
      by (rewrite <- (Z.add_0_r (Z.of_nat (length pre))), peek_app_at by lia;
          reflexivity).
    replace (d ++ b :: s) with ((d ++ [b]) ++ s)
      by (rewrite <- app_assoc; reflexivity).
    destruct (Z.ltb_spec (byte.unsigned b) 0x80) as [Hascii|Hhigh].
    + (* one byte *)
      cbn [app length] in *.
      rewrite byte.of_Z_unsigned.
      unfold utf_ptr2len_len. peeks.
      rewrite utf8len_tab_spec, utf8len_tab_zero_spec by lia.
      destruct (Z.ltb_spec (byte.unsigned b) 0xc0); [|lia].
      destruct (Z.ltb_spec (byte.unsigned b) 0x80); [|lia].
      cbn. rewrite byte.of_Z_unsigned.
      replace (pre ++ b :: tail) with ((pre ++ [b]) ++ tail)
        by (rewrite <- app_assoc; reflexivity).
      replace (Z.of_nat (length pre + S (length tail)))
        with (Z.of_nat (length ((pre ++ [b]) ++ tail)))
        by (rewrite !length_app; cbn [length]; lia).
      replace (Z.of_nat (length pre) + 1) with (Z.of_nat (length (pre ++ [b])))
        by (rewrite length_app; cbn [length]; lia).
      apply IH. lia.
    + (* two bytes *)
      cbn [app length] in *.
      rewrite to_unsigned_nonneg by lia.
      rewrite Z.shiftr_div_pow2, land_3f by lia.
      set (q1 := byte.unsigned b / 2 ^ 6).
      set (q0 := byte.unsigned b mod 64).
      assert (0 <= q1 < 32) as Hq1 by (subst q1; Z.div_mod_to_equations; lia).
      assert (0 <= q0 < 64) as Hq0 by (subst q0; Z.div_mod_to_equations; lia).
      assert (q1 * 64 + q0 = byte.unsigned b) as Hval
        by (subst q1 q0; Z.div_mod_to_equations; lia).
      destruct (decode2 q1 q0 tail Hq1 Hq0) as [Hchar _].
      rewrite Hchar, Hval, vcp_latin1. cbn [ConvType_eqb].
      rewrite no_composing_latin1 by lia. cbn [negb].
      destruct (Z.ltb_spec (byte.unsigned b) 0x100); [|lia].
      match goal with
      | |- context [utf_ptr2len_len ?q ?n] =>
          assert (utf_ptr2len_len q n = 2) as ->
      end.
      { unfold utf_ptr2len_len. peeks. rewrite utf8len_tab_spec by lia.
        destruct (Z.ltb_spec (0xc0 + q1) 0xc0); [lia|].
        destruct (Z.ltb_spec (0xc0 + q1) 0xe0); [|lia].
        cbn [Z.eqb]. rewrite Z.gtb_ltb.
        match goal with
        | |- context [?n <? 2] => destruct (Z.ltb_spec n 2); [lia|]
        end.
        change (Z.to_nat (2 - 1)) with 1%nat. cbn [Pos.eqb trail_scan].
        peeks. rewrite trail_ok by lia. reflexivity. }
      change (2 =? 0) with false. change (2 =? 1) with false. cbv iota.
      change (2 - 1) with 1. rewrite byte.of_Z_unsigned.
      replace (pre ++ byte.of_Z (192 + q1) :: byte.of_Z (128 + q0) :: tail)
        with ((pre ++ [byte.of_Z (192 + q1); byte.of_Z (128 + q0)]) ++ tail)
        by (rewrite <- app_assoc; reflexivity).
      replace (Z.of_nat (length pre + (2 + length tail)))
        with (Z.of_nat (length ((pre ++ [byte.of_Z (192 + q1); byte.of_Z (128 + q0)])
                                ++ tail)))
        by (rewrite !length_app; cbn [length]; lia).
      replace (Z.of_nat (length pre) + 1 + 1)
        with (Z.of_nat (length (pre ++ [byte.of_Z (192 + q1); byte.of_Z (128 + q0)])))
        by (rewrite length_app; cbn [length]; lia).
      apply IH. lia.
Qed.
End Latin1RoundTrip.

Section Latin1RoundTripTheorem.
Context {UT : UnicodeTables} {DP : Display} {XC : ExternalConverter}.

(** X17: Converting a non-empty latin1 text of given length to UTF-8 and the
    result back to latin1 gives the text again, byte for byte (NUL bytes
    included), as long as no character below 0x100 is a composing one. *)
Theorem latin1_utf8_roundtrip (to_utf8 to_latin1 : vimconv_T) (s : list byte) :
  s <> [] ->
  vc_type to_utf8 = CONV_TO_UTF8 ->
  vc_type to_latin1 = CONV_TO_LATIN1 ->
  (forall c, 0 <= c < 0x100 -> utf_iscomposing c = false) ->
  exists d,
    string_convert to_utf8 s (Some (Z.of_nat (length s)))
    = Some {| retval := Some d; lenp_out := Some (Z.of_nat (length d));
              unconvlenp_out := None |}
    /\ string_convert to_latin1 d (Some (Z.of_nat (length d)))
       = Some {| retval := Some s; lenp_out := Some (Z.of_nat (length s));
                 unconvlenp_out := None |}.
Proof.
  intros Hs H8 H1 Hcomp.
  exists (flat_map (fun b => latin1_char b) s).
  assert (length s <> 0%nat) as Hlen by (destruct s; [contradiction | discriminate]).
  split.
  - unfold string_convert, string_convert_ext. rewrite H8.
    destruct (Z.eqb_spec (Z.of_nat (length s)) 0); [lia|].
    rewrite Nat2Z.id.
    pose proof (latin1_to_utf8_flat s [] []) as Hflat.
    cbn [app length] in Hflat. rewrite app_nil_r in Hflat.
    change (Z.of_nat 0) with 0 in Hflat. rewrite Hflat. reflexivity.
  - unfold string_convert, string_convert_ext. rewrite H1.
    set (d := flat_map (fun b => latin1_char b) s).
    assert (length d <> 0%nat) as Hd.
    { subst d. destruct s as [|b s]; [contradiction|]. cbn [flat_map].
      rewrite length_app. destruct (_ <? 0x80); cbn [length]; lia. }
    destruct (Z.eqb_spec (Z.of_nat (length d)) 0); [lia|].
    rewrite Nat2Z.id.
    pose proof (utf8_to_latin_flat to_latin1 H1 Hcomp s (S (length d)) [] []) as Hrun.
    cbn [app length] in Hrun. change (Z.of_nat 0) with 0 in Hrun.
    fold d in Hrun. rewrite Hrun by lia. reflexivity.
Qed.
End Latin1RoundTripTheorem.

Lemma latin1_utf8_roundtrip_witness :
  exists d,
    @string_convert sample_tables sample_display sample_converter
      {| vc_type := CONV_TO_UTF8; vc_factor := 2; vc_fd := -1; vc_fail := false |}
      [Byte.x41; Byte.xe9; Byte.x00; Byte.xff] (Some 4)
    = Some {| retval := Some d; lenp_out := Some (Z.of_nat (length d));
              unconvlenp_out := None |}
    /\ @string_convert sample_tables sample_display sample_converter
         {| vc_type := CONV_TO_LATIN1; vc_factor := 1; vc_fd := -1; vc_fail := false |}
         d (Some (Z.of_nat (length d)))
       = Some {| retval := Some [Byte.x41; Byte.xe9; Byte.x00; Byte.xff];
                 lenp_out := Some 4; unconvlenp_out := None |}.
Proof.
  apply (@latin1_utf8_roundtrip sample_tables sample_display sample_converter
           {| vc_type := CONV_TO_UTF8; vc_factor := 2; vc_fd := -1; vc_fail := false |}
           {| vc_type := CONV_TO_LATIN1; vc_factor := 1; vc_fd := -1; vc_fail := false |}
           [Byte.x41; Byte.xe9; Byte.x00; Byte.xff]);
    [discriminate | reflexivity | reflexivity |].
  intros c Hc.
  pose proof (Z_range_forallb
                (fun c => negb (@utf_iscomposing sample_tables c)) 0 256
                ltac:(vm_compute; reflexivity) c ltac:(lia)) as H.
  apply negb_true_iff in H. exact H.
Defined.

(** ** Cells of the character at a pointer *)

(** The shape of what [utf_char2bytes] stores for a multi-byte character:
    a lead byte announcing the length, then trail bytes. *)
Lemma utf_char2bytes_shape (c : Z) (rest : list byte) :
  0x80 <= c <= 0x7FFFFFFF ->
  let n := fst (utf_char2bytes c) in
  let p := snd (utf_char2bytes c) ++ rest in
  Z.of_nat (length (snd (utf_char2bytes c))) = n
  /\ 2 <= n <= 6
  /\ tab_at utf8len_tab p.[0] = n
  /\ 0xc0 <= p.[0] < 256
  /\ (forall i, 1 <= i < n -> (p.[i] & 0xc0) = 0x80).
Proof.
  intros Hc. cbv zeta.
  destruct (utf_char2bytes_length c) as (Hlen & _ & _).
  destruct (utf_char2bytes_lead c rest Hc) as (_ & Hn & Hlead & _).
  destruct (roundtrip_31bit c rest ltac:(lia)) as [_ Hp2l].
  pose proof (peek_range (snd (utf_char2bytes c) ++ rest) 0) as Hrange.
  unfold utf_ptr2len in Hp2l.
  destruct (_ =? NUL); [lia|].
  destruct (trail_scan _ 1 _) eqn:Hscan; [|lia].
  repeat split; try lia; try exact Hp2l.
  intros i Hi. apply (trail_scan_inv _ _ 1 Hscan). lia.
Qed.

Section PointerCellsMore.
Context {UT : UnicodeTables} {DP : Display} {CS : Charset}.

(** X18: [utf_ptr2cells] composes the decoder with [utf_char2cells]: at the
    bytes [utf_char2bytes] stores for a character of 1..0x7FFFFFFF it
    returns 1 for an ASCII character and [utf_char2cells c] for any other. *)
Theorem utf_ptr2cells_encoded (c : Z) (rest : list byte) :
  0 < c <= 0x7FFFFFFF ->
  utf_ptr2cells (snd (utf_char2bytes c) ++ rest)
  = if c <? 0x80 then 1 else utf_char2cells c.
Proof.
  intros Hc. unfold utf_ptr2cells, utf_ptr2cells_wide.
  destruct (roundtrip_31bit c rest Hc) as [Hchar Hlen]. rewrite Hchar, Hlen.
  destruct (Z.ltb_spec c 0x80) as [Hascii|Hmulti].
  - rewrite utf_char2bytes_spec by lia. cbv beta zeta.
    destruct (Z.ltb_spec c 0x80); [|lia]. cbn [fst snd app]. peeks.
    destruct (Z.geb_spec c 0x80); [lia | reflexivity].
  - destruct (utf_char2bytes_shape c rest ltac:(lia)) as (_ & Hn & _ & Hlead & _).
    destruct (Z.geb_spec ((snd (utf_char2bytes c) ++ rest).[0]) 0x80); [|lia].
    destruct (Z.eqb_spec (fst (utf_char2bytes c)) 1); [lia|].
    destruct (Z.eqb_spec c NUL); [unfold NUL in *; lia|].
    reflexivity.
Qed.

End PointerCellsMore.

Lemma utf_ptr2cells_encoded_witness :
  @utf_ptr2cells sample_tables sample_display sample_charset
    (snd (utf_char2bytes 0x3000) ++ [Byte.x41])
  = if 0x3000 <? 0x80 then 1 else @utf_char2cells sample_tables sample_display 0x3000.
Proof.
  apply (@utf_ptr2cells_encoded sample_tables sample_display sample_charset
           0x3000 [Byte.x41]).
  lia.
Defined.


(** ** Offsets inside a character *)

Lemma peek_beyond (p : list byte) (i : Z) :
  Z.of_nat (length p) <= i -> p.[i] = 0.
Proof. intros Hi. unfold peek. rewrite nth_overflow by lia. reflexivity. Qed.

Lemma lead_not_trail (b : Z) :
  0 <= b < 256 -> (b < 0x80 \/ 0xc0 <= b) -> (b & 0xc0) <> 0x80.
Proof.
  intros Hb Hlead Htrail. apply Z.eqb_eq in Htrail.
  rewrite land_c0_trail in Htrail by lia.
  apply andb_prop in Htrail as [H1 H2]. lia.
Qed.

Lemma trail_is_high (b : Z) : 0 <= b < 256 -> (b & 0xc0) = 0x80 -> 0x80 <= b < 0xc0.
Proof.
  intros Hb Htrail. apply Z.eqb_eq in Htrail.
  rewrite land_c0_trail in Htrail by lia.
  apply andb_prop in Htrail as [H1 H2]. lia.
Qed.

(** *** The three scans *)

Lemma skip_trails_spec (buf : list byte) (from n : Z) :
  (forall j, 0 <= j < n -> (buf.[from + j] & 0xc0) = 0x80) ->
  (buf.[from + n] & 0xc0) <> 0x80 ->
  forall (fuel : nat) (i : Z),
    0 <= i <= n -> (Z.to_nat (n - i) < fuel)%nat ->
    skip_trails fuel buf from i = Some n.
Proof.
  intros Htrail Hstop. induction fuel as [|fuel IH]; intros i Hi Hfuel; [lia|].
  cbn [skip_trails]. destruct (Z.eq_dec i n) as [->|Hne].
  - destruct (Z.eqb_spec (buf.[from + n] & 0xc0) 0x80); [contradiction | reflexivity].
  - rewrite (Htrail i) by lia. rewrite Z.eqb_refl. apply IH; lia.
Qed.

(** The forward scan ends, at the terminating NUL if not before. *)
Lemma skip_trails_ends (buf : list byte) (from : Z) :
  forall (fuel : nat) (i : Z),
    0 <= from + i ->
    (length buf - Z.to_nat (from + i) < fuel)%nat ->
    exists r, skip_trails fuel buf from i = Some r
              /\ i <= r
              /\ forall j, i <= j < r -> (buf.[from + j] & 0xc0) = 0x80.
Proof.
  induction fuel as [|fuel IH]; intros i Hi Hfuel; [lia|].
  cbn [skip_trails].
  destruct (Z.eqb_spec (buf.[from + i] & 0xc0) 0x80) as [Htrail|].
  - assert (from + i < Z.of_nat (length buf)) as Hin.
    { apply peek_inside; [lia|]. apply trail_not_NUL, Htrail. }
    destruct (IH (i + 1)) as (r & Hr & Hle & Hall); [lia | lia |].
    exists r. split; [exact Hr|]. split; [lia|].
    intros j Hj. destruct (Z.eq_dec j i) as [->|]; [exact Htrail|].
    apply Hall. lia.
  - exists i. split; [reflexivity|]. split; [lia|]. intros j Hj. lia.
Qed.

Lemma back_trails_spec (buf : list byte) (k m : Z) :
  (forall j, 0 <= j < m -> (buf.[k - j] & 0xc0) = 0x80) ->
  m <= k -> (m = k \/ (buf.[k - m] & 0xc0) <> 0x80) ->
  forall (fuel : nat) (j : Z),
    0 <= j <= m -> (Z.to_nat (m - j) < fuel)%nat ->
    back_trails fuel buf k j = Some m.
Proof.
  intros Htrail Hmk Hstop. induction fuel as [|fuel IH]; intros j Hj Hfuel; [lia|].
  cbn [back_trails]. destruct (Z.eq_dec j m) as [->|Hne].
  - destruct (Z.gtb_spec (k - m) 0); [|reflexivity].
    destruct Hstop as [|Hstop]; [lia|].
    destruct (Z.eqb_spec (buf.[k - m] & 0xc0) 0x80); [contradiction | reflexivity].
  - destruct (Z.gtb_spec (k - j) 0); [|lia].
    rewrite (Htrail j) by lia. rewrite Z.eqb_refl. cbn [negb]. apply IH; lia.
Qed.

Lemma back_trails_ends (buf : list byte) (k : Z) :
  forall (fuel : nat) (j : Z),
    0 <= j -> (Z.to_nat (k - j) < fuel)%nat ->
    exists r, back_trails fuel buf k j = Some r
              /\ j <= r /\ (r <= k \/ r = j)
              /\ (0 < k - r -> (buf.[k - r] & 0xc0) <> 0x80).
Proof.
  induction fuel as [|fuel IH]; intros j Hj Hfuel; [lia|].
  cbn [back_trails].
  destruct (Z.gtb_spec (k - j) 0).
  - destruct (Z.eqb_spec (buf.[k - j] & 0xc0) 0x80) as [Htrail|Hlead]; cbn [negb].
    + destruct (IH (j + 1)) as (r & Hr & Hle & Hk & Hstop); [lia | lia |].
      exists r. split; [exact Hr|]. split; [lia|]. split; [lia | exact Hstop].
    + exists j. split; [reflexivity|]. split; [lia|]. split; [lia|]. intros _. exact Hlead.
  - exists j. split; [reflexivity|]. split; [lia|]. split; [lia|]. lia.
Qed.

Lemma back_to_lead_spec (buf : list byte) (q t : Z) :
  (forall j, t < j <= q -> (buf.[j] & 0xc0) = 0x80) ->
  0 <= t <= q -> (t = 0 \/ (buf.[t] & 0xc0) <> 0x80) ->
  forall (fuel : nat) (q' : Z),
    t <= q' <= q -> (Z.to_nat (q' - t) < fuel)%nat ->
    back_to_lead fuel buf q' = Some t.
Proof.
  intros Htrail Ht Hstop. induction fuel as [|fuel IH]; intros q' Hq' Hfuel; [lia|].
  cbn [back_to_lead]. destruct (Z.eq_dec q' t) as [->|Hne].
  - destruct (Z.gtb_spec t 0); [|reflexivity].
    destruct Hstop as [|Hstop]; [lia|].
    destruct (Z.eqb_spec (buf.[t] & 0xc0) 0x80); [contradiction | reflexivity].
  - destruct (Z.gtb_spec q' 0); [|lia].
    rewrite (Htrail q') by lia. rewrite Z.eqb_refl. cbn [andb]. apply IH; lia.
Qed.

Lemma back_to_lead_ends (buf : list byte) :
  forall (fuel : nat) (q : Z),
    0 <= q -> (Z.to_nat q < fuel)%nat ->
    exists r, back_to_lead fuel buf q = Some r /\ 0 <= r <= q.
Proof.
  induction fuel as [|fuel IH]; intros q Hq Hfuel; [lia|].
  cbn [back_to_lead].
  destruct ((q >? 0) && ((buf.[q] & 0xc0) =? 0x80)) eqn:E.
  - apply andb_prop in E as [E _]. apply Z.gtb_lt in E.
    destruct (IH (q - 1)) as (r & Hr & Hrange); [lia | lia |].
    exists r. split; [exact Hr | lia].
  - exists q. split; [reflexivity | lia].
Qed.

(** *** A character stored in a line *)

(** The bytes [utf_char2bytes] stores for [c], found in a line at the
    offset [P], the byte behind them being no trail byte. *)
Lemma encoded_in_buffer (c : Z) (pre rest : list byte) :
  0 < c <= 0x7FFFFFFF ->
  (rest.[0] & 0xc0) <> 0x80 ->
  let n := fst (utf_char2bytes c) in
  let buf := pre ++ snd (utf_char2bytes c) ++ rest in
  let P := Z.of_nat (length pre) in
  1 <= n <= 6
  /\ P + n <= Z.of_nat (length buf)
  /\ tab_at utf8len_tab buf.[P] = n
  /\ (buf.[P] & 0xc0) <> 0x80
  /\ (c < 0x80 -> n = 1 /\ buf.[P] = c)
  /\ (0x80 <= c -> 0xc0 <= buf.[P])
  /\ (forall i, 1 <= i < n -> (buf.[P + i] & 0xc0) = 0x80)
  /\ (buf.[P + n] & 0xc0) <> 0x80
  /\ (forall i, 0 <= i < n -> buf.[P + i] <> NUL)
  /\ ptr_add buf P = snd (utf_char2bytes c) ++ rest.
Proof.
  intros Hc Hrest. cbv zeta.
  destruct (utf_char2bytes_length c) as (Hlen & Hn & _).
  destruct (roundtrip_31bit c rest Hc) as [_ Hp2l].
  assert (forall i, 0 <= i ->
            (pre ++ snd (utf_char2bytes c) ++ rest).[Z.of_nat (length pre) + i]
            = (snd (utf_char2bytes c) ++ rest).[i]) as Hpeek
    by (intros i Hi; apply peek_app_at; exact Hi).
  assert ((snd (utf_char2bytes c) ++ rest).[fst (utf_char2bytes c)] = rest.[0])
    as Hbehind.
  { rewrite <- Hlen, <- (Z.add_0_r (Z.of_nat _)). apply peek_app_at. lia. }
  rewrite <- (Z.add_0_r (Z.of_nat (length pre))) at 2 3 4 5.
  rewrite !Hpeek by lia. rewrite Hbehind.
  pose proof (peek_range (snd (utf_char2bytes c) ++ rest) 0) as Hrange.
  split; [exact Hn|].
  split; [rewrite !length_app; lia|].
  assert (forall i, 0 <= i < fst (utf_char2bytes c) ->
            (snd (utf_char2bytes c) ++ rest).[i] <> NUL) as HnoNUL
    by (intros i Hi; apply utf_ptr2len_no_NUL; lia).
  destruct (Z.ltb_spec c 0x80) as [Hascii|Hmulti].
  - assert (fst (utf_char2bytes c) = 1 /\ (snd (utf_char2bytes c) ++ rest).[0] = c)
      as [H1 H0].
    { rewrite utf_char2bytes_spec by lia. cbv beta zeta.
      destruct (Z.ltb_spec c 0x80); [|lia]. cbn [fst snd app]. peeks.
      split; reflexivity. }
    rewrite H1, H0 in *.
    split; [rewrite utf8len_tab_spec by lia;
            destruct (Z.ltb_spec c 0xc0); [reflexivity | lia]|].
    split; [apply lead_not_trail; lia|].
    split; [intros _; split; reflexivity|].
    split; [lia|].
    split; [intros i Hi; lia|].
    split; [exact Hrest|].
    split; [intros i Hi; rewrite Hpeek by lia; apply HnoNUL; lia|].
    apply ptr_add_app.
  - destruct (utf_char2bytes_shape c rest ltac:(lia)) as (_ & Hn2 & Htab & Hlead & Htrail).
    split; [exact Htab|].
    split; [apply lead_not_trail; lia|].
    split; [lia|].
    split; [lia|].
    split; [intros i Hi; rewrite Hpeek by lia; apply Htrail; lia|].
    split; [exact Hrest|].
    split; [intros i Hi; rewrite Hpeek by lia; apply HnoNUL; lia|].
    apply ptr_add_app.
Qed.

(** *** [mb_tail_off] *)

(** X20: [mb_tail_off] always returns, a number of 0 to 5, and the bytes it
    steps over are trail bytes: [p + mb_tail_off(base, p)] never passes the
    terminating NUL. *)
Theorem mb_tail_off_result (buf : list byte) (k : Z) :
  0 <= k ->
  exists r, mb_tail_off buf k = Some r
            /\ 0 <= r <= 5
            /\ forall i, 1 <= i <= r -> (buf.[k + i] & 0xc0) = 0x80.
Proof.
  intros Hk. unfold mb_tail_off.
  destruct (Z.eqb_spec buf.[k] NUL) as [|Hne].
  { exists 0. split; [reflexivity|]. split; [lia|]. intros i Hi. lia. }
  destruct (skip_trails_ends buf (k + 1) (S (length buf)) 0 ltac:(lia) ltac:(lia))
    as (i & -> & Hi & Htrail).
  destruct (back_trails_ends buf k (S (Z.to_nat k)) 0 ltac:(lia) ltac:(lia))
    as (j & -> & Hj & _ & _).
  pose proof (utf8len_tab_range buf.[k - j] (peek_range buf (k - j))) as Htab.
  destruct (Z.eqb_spec (tab_at utf8len_tab buf.[k - j]) (i + j + 1)); cbn [negb].
  - exists i. split; [reflexivity|]. split; [lia|].
    intros i' Hi'. replace (k + i') with (k + 1 + (i' - 1)) by lia.
    apply Htrail. lia.
  - exists 0. split; [reflexivity|]. split; [lia|]. intros i' Hi'. lia.
Qed.

Lemma mb_tail_off_result_witness :
  exists r, mb_tail_off [Byte.x41; Byte.xe2; Byte.x82; Byte.xac] 2 = Some r
            /\ 0 <= r <= 5
            /\ forall i, 1 <= i <= r ->
                 ([Byte.x41; Byte.xe2; Byte.x82; Byte.xac].[2 + i] & 0xc0) = 0x80.
Proof.
  apply (mb_tail_off_result [Byte.x41; Byte.xe2; Byte.x82; Byte.xac] 2). lia.
Defined.

(** X21: From any byte of a character stored in a line, [mb_tail_off] is the
    distance to the character's last byte. *)
Theorem mb_tail_off_encoded (c o : Z) (pre rest : list byte) :
  0 < c <= 0x7FFFFFFF ->
  (rest.[0] & 0xc0) <> 0x80 ->
  0 <= o < fst (utf_char2bytes c) ->
  mb_tail_off (pre ++ snd (utf_char2bytes c) ++ rest) (Z.of_nat (length pre) + o)
  = Some (fst (utf_char2bytes c) - 1 - o).
Proof.
  intros Hc Hrest Ho.
  destruct (encoded_in_buffer c pre rest Hc Hrest)
    as (Hn & Hlen & Htab & Hlead & _ & _ & Htrail & Hstop & HnoNUL & _).
  set (n := fst (utf_char2bytes c)) in *.
  set (buf := pre ++ snd (utf_char2bytes c) ++ rest) in *.
  set (P := Z.of_nat (length pre)) in *.
  unfold mb_tail_off.
  destruct (Z.eqb_spec buf.[P + o] NUL) as [E|_]; [apply HnoNUL in E; [contradiction | lia]|].
  rewrite (skip_trails_spec buf (P + o + 1) (n - 1 - o)); [| | | lia | lia].
  - rewrite (back_trails_spec buf (P + o) o); [| | lia | | lia | lia].
    + replace (P + o - o) with P by lia. rewrite Htab.
      destruct (Z.eqb_spec n (n - 1 - o + o + 1)); [reflexivity | lia].
    + intros j Hj. replace (P + o - j) with (P + (o - j)) by lia.
      apply Htrail. lia.
    + right. replace (P + o - o) with P by lia. exact Hlead.
  - intros j Hj. replace (P + o + 1 + j) with (P + (o + 1 + j)) by lia.
    apply Htrail. lia.
  - replace (P + o + 1 + (n - 1 - o)) with (P + n) by lia. exact Hstop.
Qed.

Lemma mb_tail_off_encoded_witness :
  mb_tail_off ([Byte.x41] ++ snd (utf_char2bytes 0x20AC) ++ [Byte.x42])
              (Z.of_nat (length [Byte.x41]) + 1)
  = Some (fst (utf_char2bytes 0x20AC) - 1 - 1).
Proof.
  apply (mb_tail_off_encoded 0x20AC 1 [Byte.x41] [Byte.x42]);
    [lia | vm_compute; congruence | vm_compute; split; congruence].
Defined.

Section OffsetsMore.
Context {UT : UnicodeTables} {AR : Arabic} {EN : Encoding}.

(** *** [mb_off_next] *)

(** X22: With UTF-8 as the encoding, [mb_off_next] is 0 at the first byte of a
    character stored in a line and elsewhere the distance to the first byte
    behind the character. *)
Theorem mb_off_next_encoded (c o : Z) (pre rest : list byte) :
  enc_utf8 = true ->
  0 < c <= 0x7FFFFFFF ->
  (rest.[0] & 0xc0) <> 0x80 ->
  0 <= o < fst (utf_char2bytes c) ->
  mb_off_next (pre ++ snd (utf_char2bytes c) ++ rest) (Z.of_nat (length pre) + o)
  = Some (if o =? 0 then 0 else fst (utf_char2bytes c) - o).
Proof.
  intros Hutf8 Hc Hrest Ho.
  destruct (encoded_in_buffer c pre rest Hc Hrest)
    as (Hn & Hlen & Htab & Hlead & _ & _ & Htrail & Hstop & HnoNUL & _).
  set (n := fst (utf_char2bytes c)) in *.
  set (buf := pre ++ snd (utf_char2bytes c) ++ rest) in *.
  set (P := Z.of_nat (length pre)) in *.
  unfold mb_off_next. rewrite Hutf8.
  destruct (Z.eqb_spec o 0) as [->|Hinside].
  - rewrite Z.add_0_r in *.
    destruct (Z.ltb_spec buf.[P] 0x80); [reflexivity|].
    rewrite (skip_trails_spec buf P 0); [reflexivity | | | lia | lia].
    + intros j Hj. lia.
    + rewrite Z.add_0_r. exact Hlead.
  - pose proof (trail_is_high buf.[P + o] (peek_range buf (P + o))
                  (Htrail o ltac:(lia))) as Hhigh.
    destruct (Z.ltb_spec buf.[P + o] 0x80); [lia|].
    rewrite (skip_trails_spec buf (P + o) (n - o)); [| | | lia | lia].
    + destruct (Z.gtb_spec (n - o) 0); [|lia].
      rewrite (back_trails_spec buf (P + o) o); [| | lia | | lia | lia].
      * replace (P + o - o) with P by lia. rewrite Htab.
        destruct (Z.eqb_spec n (n - o + o)); [reflexivity | lia].
      * intros j Hj. replace (P + o - j) with (P + (o - j)) by lia.
        apply Htrail. lia.
      * right. replace (P + o - o) with P by lia. exact Hlead.
    + intros j Hj. replace (P + o + j) with (P + (o + j)) by lia.
      apply Htrail. lia.
    + replace (P + o + (n - o)) with (P + n) by lia. exact Hstop.
Qed.

(** *** [utf_head_off] *)

Lemma utf_head_off_loop_ends (buf : list byte) (k : Z) :
  forall (fuel : nat) (q : Z),
    0 <= q <= k -> (Z.to_nat q < fuel)%nat ->
    exists r, utf_head_off_loop fuel buf k q = Some r /\ 0 <= r <= k.
Proof.
  induction fuel as [|fuel IH]; intros q Hq Hfuel; [lia|].
  cbn [utf_head_off_loop].
  destruct (skip_trails_ends buf (q + 1) (S (length buf)) 0 ltac:(lia) ltac:(lia))
    as (i & -> & _ & _).
  destruct (back_to_lead_ends buf (S (Z.to_nat q)) q ltac:(lia) ltac:(lia))
    as (q' & -> & Hq').
  destruct (_ && _); [exists 0; split; [reflexivity | lia]|].
  destruct (Z.leb_spec q' 0); [exists (k - q'); split; [reflexivity | lia]|].
  destruct (utf_iscomposing _); [apply IH; lia|].
  destruct (arabic_maycombine _); [|exists (k - q'); split; [reflexivity | lia]].
  destruct (back_to_lead_ends buf (S (Z.to_nat (q' - 1))) (q' - 1)
              ltac:(lia) ltac:(lia)) as (j & -> & _).
  destruct (arabic_combine _ _); [apply IH; lia|].
  exists (k - q'). split; [reflexivity | lia].
Qed.

(** X23: [utf_head_off] always returns, and never more than the distance to the
    start of the line: [p - utf_head_off(base, p)] stays at or behind
    [base]. *)
Theorem utf_head_off_result (buf : list byte) (k : Z) :
  0 <= k ->
  exists r, utf_head_off buf k = Some r /\ 0 <= r <= k.
Proof.
  intros Hk. unfold utf_head_off.
  destruct (buf.[k] <? 0x80); [exists 0; split; [reflexivity | lia]|].
  apply utf_head_off_loop_ends; lia.
Qed.

(** X24: From any byte of a character stored in a line, [utf_head_off] is the
    distance back to the character's first byte, when the character starts
    the line or is no composing character (and no Arabic character that
    may combine). *)
Theorem utf_head_off_encoded (c o : Z) (pre rest : list byte) :
  0 < c <= 0x7FFFFFFF ->
  (rest.[0] & 0xc0) <> 0x80 ->
  0 <= o < fst (utf_char2bytes c) ->
  pre = [] \/ (utf_iscomposing c = false /\ arabic_maycombine c = false) ->
  utf_head_off (pre ++ snd (utf_char2bytes c) ++ rest) (Z.of_nat (length pre) + o)
  = Some o.
Proof.
  intros Hc Hrest Ho Hbase.
  destruct (encoded_in_buffer c pre rest Hc Hrest)
    as (Hn & Hlen & Htab & Hlead & Hascii & Hmulti & Htrail & Hstop & HnoNUL & Hptr).
  destruct (roundtrip_31bit c rest Hc) as [Hchar _].
  set (n := fst (utf_char2bytes c)) in *.
  set (buf := pre ++ snd (utf_char2bytes c) ++ rest) in *.
  set (P := Z.of_nat (length pre)) in *.
  unfold utf_head_off.
  destruct (Z.ltb_spec buf.[P + o] 0x80) as [Hlow|Hhigh].
  { destruct (Z.eq_dec o 0) as [->|]; [reflexivity|].
    pose proof (trail_is_high buf.[P + o] (peek_range buf (P + o))
                  (Htrail o ltac:(lia))). lia. }
  cbn [utf_head_off_loop].
  rewrite (skip_trails_spec buf (P + o + 1) (n - 1 - o)); [| | | lia | lia].
  2:{ intros j Hj. replace (P + o + 1 + j) with (P + (o + 1 + j)) by lia.
      apply Htrail. lia. }
  2:{ replace (P + o + 1 + (n - 1 - o)) with (P + n) by lia. exact Hstop. }
  rewrite (back_to_lead_spec buf (P + o) P); [| | lia | | lia | lia].
  2:{ intros j Hj. replace j with (P + (j - P)) by lia. apply Htrail. lia. }
  2:{ right. exact Hlead. }
  rewrite Htab.
  destruct (Z.eqb_spec n (P + o + (n - 1 - o) - P + 1)); [|lia]. cbn [negb andb].
  replace (P + o - P) with o by lia.
  destruct (Z.leb_spec P 0); [reflexivity|].
  destruct Hbase as [->|[Hcomp Harab]]; [cbn in P; lia|].
  rewrite Hptr, Hchar, Hcomp, Harab. reflexivity.
Qed.
End OffsetsMore.

Lemma mb_off_next_encoded_witness :
  @mb_off_next sample_encoding
    ([Byte.x41] ++ snd (utf_char2bytes 0x20AC) ++ [Byte.x42])
    (Z.of_nat (length [Byte.x41]) + 1)
  = Some (if 1 =? 0 then 0 else fst (utf_char2bytes 0x20AC) - 1).
Proof.
  apply (@mb_off_next_encoded sample_encoding 0x20AC 1 [Byte.x41] [Byte.x42]);
    [reflexivity | lia | vm_compute; congruence | vm_compute; split; congruence].
Defined.

Lemma utf_head_off_result_witness :
  exists r, @utf_head_off sample_tables sample_arabic
              [Byte.x61; Byte.xcc; Byte.x81; Byte.xcc; Byte.x82] 4 = Some r
            /\ 0 <= r <= 4.
Proof.
  apply (@utf_head_off_result sample_tables sample_arabic
           [Byte.x61; Byte.xcc; Byte.x81; Byte.xcc; Byte.x82] 4).
  lia.
Defined.

Lemma utf_head_off_encoded_witness :
  @utf_head_off sample_tables sample_arabic
    ([Byte.x41] ++ snd (utf_char2bytes 0x20AC) ++ [Byte.x42])
    (Z.of_nat (length [Byte.x41]) + 2)
  = Some 2.
Proof.
  apply (@utf_head_off_encoded sample_tables sample_arabic 0x20AC 2
           [Byte.x41] [Byte.x42]);
    [lia | vm_compute; congruence | vm_compute; split; congruence
    | right; split; vm_compute; reflexivity].
Defined.

Section OffsetsComposing.
Context {UT : UnicodeTables} {AR : Arabic}.


End OffsetsComposing.


(** ** Case conversion *)

Lemma convert_sorted_cons (e : convertStruct) (rest : list convertStruct) :
  convert_sorted (e :: rest) = true ->
  rangeStart e <= rangeEnd e /\ 1 <= step e
  /\ convert_sorted rest = true
  /\ forall x, In x rest -> rangeEnd e < rangeStart x.
Proof.
  revert e. induction rest as [|e' rest IH]; intros e Hs; cbn in Hs.
  - rewrite !andb_true_r in Hs. apply andb_prop in Hs as [H1 H2].
    split; [lia|]. split; [lia|]. split; [reflexivity|]. intros x [].
  - apply andb_prop in Hs as [Hs Hrest]. apply andb_prop in Hs as [Hse Hadj].
    apply andb_prop in Hse as [H1 H2].
    split; [lia|]. split; [lia|]. split; [exact Hrest|].
    destruct (IH e' Hrest) as (Hse' & _ & _ & Hfar).
    intros x [<-|Hin]; [lia|]. specialize (Hfar x Hin). lia.
Qed.

(** In a sorted case table the ranges are ordered by their index. *)
Lemma convert_sorted_index (table : list convertStruct) :
  convert_sorted table = true ->
  (forall i, 0 <= i < Z.of_nat (length table) ->
             rangeStart (convert_at table i) <= rangeEnd (convert_at table i)
             /\ 1 <= step (convert_at table i))
  /\ (forall i j, 0 <= i < j -> j < Z.of_nat (length table) ->
                  rangeEnd (convert_at table i) < rangeStart (convert_at table j)).
Proof.
  unfold convert_at.
  induction table as [|e rest IH]; intros Hs.
  - split; intros; cbn in *; lia.
  - destruct (convert_sorted_cons e rest Hs) as (Hse & Hstep & Hrest & Hfar).
    destruct (IH Hrest) as [IH1 IH2]. split.
    + intros i Hi. destruct (Z.eq_dec i 0) as [->|]; [split; assumption|].
      replace (Z.to_nat i) with (S (Z.to_nat (i - 1))) by lia.
      cbn [nth]. apply IH1. cbn [length] in Hi. lia.
    + intros i j Hij Hj. cbn [length] in Hj.
      replace (Z.to_nat j) with (S (Z.to_nat (j - 1))) by lia. cbn [nth].
      destruct (Z.eq_dec i 0) as [->|].
      * cbn [Z.to_nat nth]. apply Hfar. apply nth_In. lia.
      * replace (Z.to_nat i) with (S (Z.to_nat (i - 1))) by lia. cbn [nth].
        apply IH2; lia.
Qed.

(** The binary search ends at the first range that does not end below
    [a]. *)
Lemma utf_convert_loop_ends (table : list convertStruct) (a : Z) :
  convert_sorted table = true ->
  let n := Z.of_nat (length table) in
  forall (fuel : nat) (start end_ : Z),
    0 <= start <= end_ -> end_ <= n -> end_ - start < Z.of_nat fuel ->
    (forall i, 0 <= i < start -> rangeEnd (convert_at table i) < a) ->
    (forall i, end_ <= i < n -> a <= rangeEnd (convert_at table i)) ->
    exists r, utf_convert_loop fuel table a start end_ = Some r
              /\ 0 <= r <= n
              /\ (forall i, 0 <= i < r -> rangeEnd (convert_at table i) < a)
              /\ (forall i, r <= i < n -> a <= rangeEnd (convert_at table i)).
Proof.
  intros Hs n. destruct (convert_sorted_index table Hs) as [Hse Hord].
  induction fuel as [|fuel IH]; intros start end_ Hstart Hend Hfuel Hlow Hhigh; [lia|].
  cbn [utf_convert_loop].
  destruct (Z.ltb_spec start end_) as [Hlt|Hge].
  - assert (start <= (end_ + start) / 2 < end_) as Hmid
      by (Z.div_mod_to_equations; lia).
    set (mid := (end_ + start) / 2) in *.
    destruct (Z.ltb_spec (rangeEnd (convert_at table mid)) a) as [Hbelow|Hnot].
    + apply IH; [lia | lia | lia | | exact Hhigh].
      intros i Hi. destruct (Z.eq_dec i mid) as [->|]; [exact Hbelow|].
      pose proof (Hord i mid ltac:(lia) ltac:(lia)).
      pose proof (Hse mid ltac:(lia)). lia.
    + apply IH; [lia | lia | lia | exact Hlow |].
      intros i Hi. destruct (Z.eq_dec i mid) as [->|]; [exact Hnot|].
      pose proof (Hord mid i ltac:(lia) ltac:(lia)).
      pose proof (Hse i ltac:(lia)). lia.
  - exists start. split; [reflexivity|]. split; [lia|].
    split; [exact Hlow|]. intros i Hi. apply Hhigh. lia.
Qed.

(** X26: [utf_convert] on a sorted table of non-overlapping ranges: the search
    ends, and the result is [a] moved by the offset of the range that holds
    [a] when [a] lies on one of the range's steps, and [a] itself when [a]
    lies between steps or in no range at all. *)
Theorem utf_convert_correct (table : list convertStruct) (a : Z) :
  convert_sorted table = true ->
  exists r, utf_convert a table = Some r
            /\ (forall e, In e table -> rangeStart e <= a <= rangeEnd e ->
                  r = if (a - rangeStart e) mod step e =? 0
                      then a + offset e else a)
            /\ ((forall e, In e table -> ~ rangeStart e <= a <= rangeEnd e) ->
                r = a).
Proof.
  intros Hs. destruct (convert_sorted_index table Hs) as [Hse Hord].
  unfold utf_convert.
  destruct (utf_convert_loop_ends table a Hs (S (length table)) 0
              (Z.of_nat (length table)))
    as (s & -> & Hrange & Hlow & Hhigh); [lia | lia | lia | intros; lia | intros; lia |].
  set (n := Z.of_nat (length table)) in *.
  assert (forall e, In e table -> exists i, 0 <= i < n /\ convert_at table i = e)
    as Hindex.
  { intros e Hin.
    apply (In_nth _ _ {| rangeStart := 0; rangeEnd := 0; step := 0; offset := 0 |})
      in Hin as (k & Hk & <-).
    exists (Z.of_nat k). unfold convert_at. rewrite Nat2Z.id. split; [lia | reflexivity]. }
  destruct (Z.ltb_spec s n) as [Hin|Hout].
  - destruct (Z.leb_spec (rangeStart (convert_at table s)) a) as [Hfrom|Hbefore].
    + pose proof (Hhigh s ltac:(lia)) as Hto.
      destruct (Z.leb_spec a (rangeEnd (convert_at table s))); [|lia].
      cbn [andb].
      destruct (Hse s ltac:(lia)) as [_ Hstep].
      rewrite Z.rem_mod_nonneg by lia.
      assert (forall e, In e table -> rangeStart e <= a <= rangeEnd e ->
                        e = convert_at table s) as Hunique.
      { intros e He Ha. destruct (Hindex e He) as (i & Hi & <-).
        destruct (Z.lt_total i s) as [Hlt|[->|Hgt]]; [|reflexivity|].
        - specialize (Hlow i ltac:(lia)). lia.
        - pose proof (Hord s i ltac:(lia) ltac:(lia)). lia. }
      exists (if (a - rangeStart (convert_at table s))
                   mod step (convert_at table s) =? 0
              then a + offset (convert_at table s) else a).
      split; [destruct (_ =? 0); reflexivity|]. split.
      * intros e He Ha. rewrite (Hunique e He Ha). reflexivity.
      * intros Hnone. exfalso.
        apply (Hnone (convert_at table s)); [apply nth_In; lia | lia].
    + cbn [andb]. exists a. split; [reflexivity|]. split; [|reflexivity].
      intros e He Ha. exfalso. destruct (Hindex e He) as (i & Hi & <-).
      destruct (Z.lt_total i s) as [Hlt|[->|Hgt]].
      * specialize (Hlow i ltac:(lia)). lia.
      * lia.
      * pose proof (Hord s i ltac:(lia) ltac:(lia)).
        pose proof (Hse s ltac:(lia)). lia.
  - cbn [andb]. exists a. split; [reflexivity|]. split; [|reflexivity].
    intros e He Ha. exfalso. destruct (Hindex e He) as (i & Hi & <-).
    specialize (Hlow i ltac:(lia)). lia.
Qed.

Lemma utf_convert_correct_witness :
  exists r, utf_convert 0x102 (@foldCase sample_case_tables) = Some r
            /\ (forall e, In e (@foldCase sample_case_tables) ->
                  rangeStart e <= 0x102 <= rangeEnd e ->
                  r = if (0x102 - rangeStart e) mod step e =? 0
                      then 0x102 + offset e else 0x102)
            /\ ((forall e, In e (@foldCase sample_case_tables) ->
                   ~ rangeStart e <= 0x102 <= rangeEnd e) -> r = 0x102).
Proof.
  apply (utf_convert_correct (@foldCase sample_case_tables) 0x102). reflexivity.
Defined.

(** ** Reading a character and stepping over it *)

(** X27: With UTF-8 as the encoding, [mb_cptr2char_adv] never steps over the
    end of the string (it stays at the terminating NUL), and at a
    character of 1..0x7FFFFFFF stored by [utf_char2bytes] it returns the
    character and steps over exactly its bytes, a following composing
    character being left for the next call. *)
Theorem mb_cptr2char_adv_steps {EN : Encoding} :
  enc_utf8 = true ->
  (forall p, mb_ptr2char p = utf_ptr2char p) ->
  (forall (buf : list byte) (pp : Z),
      0 <= pp <= Z.of_nat (length buf) ->
      pp <= snd (mb_cptr2char_adv buf pp) <= Z.of_nat (length buf)
      /\ (buf.[pp] = NUL -> mb_cptr2char_adv buf pp = (0, pp)))
  /\ (forall (c : Z) (pre rest : list byte),
         0 < c <= 0x7FFFFFFF ->
         mb_cptr2char_adv (pre ++ snd (utf_char2bytes c) ++ rest)
                          (Z.of_nat (length pre))
         = (c, Z.of_nat (length pre) + fst (utf_char2bytes c))).
Proof.
  intros Hutf8 Hchar. unfold mb_cptr2char_adv. rewrite Hutf8. split.
  - intros buf pp Hpp. cbn [snd].
    pose proof (utf_ptr2len_inside (ptr_add buf pp)) as Hin.
    rewrite ptr_add_length in Hin by lia.
    split; [lia|]. intros Hnul. rewrite Hchar.
    assert ((ptr_add buf pp).[0] = NUL) as H0
      by (rewrite peek_ptr_add by lia; rewrite Z.add_0_r; exact Hnul).
    unfold utf_ptr2len, utf_ptr2char. rewrite H0. cbn. rewrite Z.add_0_r.
    reflexivity.
  - intros c pre rest Hc. rewrite ptr_add_app, Hchar.
    destruct (roundtrip_31bit c rest Hc) as [-> ->]. reflexivity.
Qed.

Lemma mb_cptr2char_adv_steps_witness :
  @mb_cptr2char_adv sample_encoding
    ([Byte.x41] ++ snd (utf_char2bytes 0x20AC) ++ [Byte.xcc; Byte.x81])
    (Z.of_nat (length [Byte.x41]))
  = (0x20AC, Z.of_nat (length [Byte.x41]) + fst (utf_char2bytes 0x20AC)).
Proof.
  apply (proj2 (@mb_cptr2char_adv_steps sample_encoding eq_refl
                  (fun p => eq_refl))).
  lia.
Defined.

(** ** Double-byte characters *)

(** X28: [dbcs_char2bytes] stores as many bytes as [dbcs_char2len] announces
    and, for a character of 1..0xFFFF, never a NUL; the two bytes of a
    character of 0x100 and above give the character back unless its low
    byte is zero, which is stored as a line feed. *)
Theorem dbcs_char2bytes_no_NUL (c : Z) :
  0 < c < 0x10000 ->
  let len := fst (dbcs_char2bytes c) in
  let buf := snd (dbcs_char2bytes c) in
  len = dbcs_char2len c
  /\ Z.of_nat (length buf) = len
  /\ (forall i, 0 <= i < len -> buf.[i] <> NUL)
  /\ (0x100 <= c ->
      buf.[0] * 256 + buf.[1] = if c mod 256 =? 0 then c + 10 else c).
Proof.
  intros Hc. cbv zeta. unfold dbcs_char2bytes, dbcs_char2len.
  destruct (Z.geb_spec c 0x100) as [Hwide|Hnarrow]; cbn [fst snd length].
  - rewrite byte.unsigned_of_Z. unfold byte.wrap.
    rewrite to_unsigned_nonneg by lia. rewrite Z.shiftr_div_pow2 by lia.
    change (2 ^ 8) with 256.
    assert (1 <= c / 256 < 256) as Hhigh by (Z.div_mod_to_equations; lia).
    destruct (Z.eqb_spec (c mod 256) NUL) as [Hzero|Hnonzero].
    + rewrite Hzero. cbn [Z.eqb NUL]. split; [reflexivity|]. split; [reflexivity|].
      split.
      * intros i Hi. assert (i = 0 \/ i = 1) as [-> | ->] by lia; peeks;
          unfold NUL; lia.
      * intros _. peeks. unfold NUL in Hzero. Z.div_mod_to_equations. lia.
    + split; [reflexivity|]. split; [reflexivity|].
      unfold NUL in Hnonzero.
      destruct (Z.eqb_spec (c mod 256) 0); [contradiction|].
      split.
      * intros i Hi. assert (i = 0 \/ i = 1) as [-> | ->] by lia; peeks.
        -- unfold NUL. lia.
        -- rewrite byte.unsigned_of_Z. unfold byte.wrap, NUL.
           change (2 ^ 8) with 256. exact Hnonzero.
      * intros _. peeks. rewrite byte.unsigned_of_Z. unfold byte.wrap.
        change (2 ^ 8) with 256. Z.div_mod_to_equations. lia.
  - split; [reflexivity|]. split; [reflexivity|].
    split; [|lia]. intros i Hi. assert (i = 0) as -> by lia. peeks. unfold NUL. lia.
Qed.

Lemma dbcs_char2bytes_no_NUL_witness :
  (snd (dbcs_char2bytes 0x8100)).[1] <> NUL.
Proof.
  apply (proj1 (proj2 (proj2 (dbcs_char2bytes_no_NUL 0x8100 ltac:(lia))))).
  vm_compute. split; congruence.
Defined.

(** ** Screen positions *)

(** X29: On a screen that has a column, [check_col] and [mb_fix_col] return a
    column of the screen, [check_col] leaves a column of the screen as it
    is, and [mb_fix_col] moves at most one column to the left. *)
Theorem mb_fix_col_in_bounds {SC : Screen} (col row : Z) :
  0 < screen_Columns ->
  0 <= check_col col < screen_Columns
  /\ (0 <= col < screen_Columns -> check_col col = col)
  /\ 0 <= mb_fix_col col row < screen_Columns
  /\ check_col col - 1 <= mb_fix_col col row <= check_col col.
Proof.
  intros Hcols.
  assert (0 <= check_col col < screen_Columns) as Hcheck.
  { unfold check_col. destruct (Z.ltb_spec col 0); [lia|].
    destruct (Z.geb_spec col screen_Columns); lia. }
  split; [exact Hcheck|]. split.
  - intros Hin. unfold check_col. destruct (Z.ltb_spec col 0); [lia|].
    destruct (Z.geb_spec col screen_Columns); lia.
  - unfold mb_fix_col. destruct ScreenLines as [lines|]; [|lia].
    destruct (Z.gtb_spec (check_col col) 0); cbn [andb]; [|lia].
    destruct (_ =? 0); lia.
Qed.

Lemma mb_fix_col_in_bounds_witness :
  0 <= @mb_fix_col sample_screen 200 3 < @screen_Columns sample_screen.
Proof.
  apply (proj1 (proj2 (proj2 (@mb_fix_col_in_bounds sample_screen 200 3
                                ltac:(vm_compute; reflexivity))))).
Defined.

(** ** Comparing without case *)

(** The binary search of [utf_convert] ends on any table. *)
Lemma utf_convert_loop_total (table : list convertStruct) (a : Z) :
  forall (fuel : nat) (start end_ : Z),
    Z.max 0 (end_ - start) < Z.of_nat fuel ->
    exists r, utf_convert_loop fuel table a start end_ = Some r.
Proof.
  induction fuel as [|fuel IH]; intros start end_ Hfuel; [lia|].
  cbn [utf_convert_loop].
  destruct (Z.ltb_spec start end_) as [Hlt|]; [|exists start; reflexivity].
  assert (start <= (end_ + start) / 2 < end_) as Hmid
    by (Z.div_mod_to_equations; lia).
  destruct (_ <? a); apply IH; lia.
Qed.

Lemma utf_convert_total (a : Z) (table : list convertStruct) :
  exists r, utf_convert a table = Some r.
Proof.
  unfold utf_convert.
  destruct (utf_convert_loop_total table a (S (length table)) 0
              (Z.of_nat (length table)) ltac:(lia)) as [s ->].
  destruct (_ && _); eexists; reflexivity.
Qed.

(** What [utf_safe_read_char_adv] does to the count: it never grows nor
    gets negative, and shrinks whenever a character above 0 is returned. *)
Lemma utf_safe_read_char_adv_count (buf : list byte) (s n : Z) :
  0 <= n ->
  let '(c, s', n') := utf_safe_read_char_adv buf s n in
  0 <= n' <= n /\ (0 < c -> n' < n).
Proof.
  intros Hn. unfold utf_safe_read_char_adv.
  destruct (Z.eqb_spec n 0); [lia|].
  set (p := ptr_add buf s).
  pose proof (peek_range p 0) as Hrange.
  destruct (Z.eqb_spec (tab_at utf8len_tab_zero p.[0]) 1); [lia|].
  destruct (Z.leb_spec (tab_at utf8len_tab_zero p.[0]) n); [|lia].
  destruct (Z.eq_dec (tab_at utf8len_tab_zero p.[0]) 0) as [Hzero|Hpos].
  - (* an illegal lead byte: the character is the byte itself *)
    assert (utf_ptr2char p = p.[0]) as ->.
    { unfold utf_ptr2char. rewrite Hzero. cbn [Z.gtb Z.compare andb].
      destruct (_ <? 0x80); reflexivity. }
    rewrite Z.eqb_refl. cbn [negb orb].
    destruct (Z.eqb_spec p.[0] 0xC3) as [E|]; [|cbn [andb]; lia].
    rewrite E in Hzero. vm_compute in Hzero. discriminate.
  - assert (1 <= tab_at utf8len_tab_zero p.[0]).
    { rewrite utf8len_tab_zero_spec in * by lia.
      repeat match goal with
             | |- context [?x <? ?y] => destruct (Z.ltb_spec x y)
             end; lia. }
    destruct (_ || _); lia.
Qed.

Section ComparisonMore.
Context {CT : CaseTables}.

(** Swapping the two strings swaps the roles in the result of the first
    loop. *)
Lemma utf_strnicmp_scan_mirror (b1 b2 : list byte) :
  forall (fuel : nat) (s1 s2 n1 n2 : Z),
    utf_strnicmp_scan fuel b2 b1 s2 s1 n2 n1
    = option_map scan_mirror (utf_strnicmp_scan fuel b1 b2 s1 s2 n1 n2).
Proof.
  induction fuel as [|fuel IH]; intros s1 s2 n1 n2; [reflexivity|].
  cbn [utf_strnicmp_scan].
  destruct (utf_safe_read_char_adv b1 s1 n1) as [[c1 s1'] n1'].
  destruct (utf_safe_read_char_adv b2 s2 n2) as [[c2 s2'] n2'].
  rewrite (orb_comm (c2 <=? 0)).
  destruct ((c1 <=? 0) || (c2 <=? 0)); [reflexivity|].
  rewrite (Z.eqb_sym c2 c1).
  destruct (c1 =? c2); [apply IH|].
  destruct (utf_fold c1) as [f1|], (utf_fold c2) as [f2|]; try reflexivity.
  cbv zeta.
  destruct (Z.eqb_spec (f1 - f2) 0), (Z.eqb_spec (f2 - f1) 0); try lia; cbn [negb].
  - apply IH.
  - cbn. f_equal. f_equal. lia.
Qed.

Lemma utf_strnicmp_scan_ends (b1 b2 : list byte) :
  forall (fuel : nat) (s1 s2 n1 n2 : Z),
    0 <= n1 -> 0 <= n2 -> (Z.to_nat n1 < fuel)%nat ->
    exists r, utf_strnicmp_scan fuel b1 b2 s1 s2 n1 n2 = Some r
              /\ match r with
                 | Returned _ => True
                 | Stopped _ _ n1' _ _ n2' => 0 <= n1' /\ 0 <= n2'
                 end.
Proof.
  induction fuel as [|fuel IH]; intros s1 s2 n1 n2 Hn1 Hn2 Hfuel; [lia|].
  cbn [utf_strnicmp_scan].
  pose proof (utf_safe_read_char_adv_count b1 s1 n1 Hn1) as H1.
  pose proof (utf_safe_read_char_adv_count b2 s2 n2 Hn2) as H2.
  destruct (utf_safe_read_char_adv b1 s1 n1) as [[c1 s1'] n1'].
  destruct (utf_safe_read_char_adv b2 s2 n2) as [[c2 s2'] n2'].
  cbv beta iota in H1, H2.
  destruct (Z.leb_spec c1 0); cbn [orb];
    [eexists; split; [reflexivity | cbv beta iota; lia]|].
  destruct (Z.leb_spec c2 0); cbn [orb];
    [eexists; split; [reflexivity | cbv beta iota; lia]|].
  destruct (c1 =? c2); [apply IH; lia|].
  destruct (utf_convert_total c1 foldCase) as [f1 Hf1].
  destruct (utf_convert_total c2 foldCase) as [f2 Hf2].
  unfold utf_fold. rewrite Hf1, Hf2. cbv zeta.
  destruct (negb _); [eexists; split; [reflexivity | exact I]|].
  apply IH; lia.
Qed.

Lemma utf_strnicmp_bytes_mirror :
  forall (fuel : nat) (s1 s2 : list byte) (n1 n2 : Z),
    0 <= n1 -> 0 <= n2 ->
    utf_strnicmp_bytes fuel s2 s1 n2 n1
    = option_map Z.opp (utf_strnicmp_bytes fuel s1 s2 n1 n2).
Proof.
  induction fuel as [|fuel IH]; intros s1 s2 n1 n2 Hn1 Hn2; [reflexivity|].
  cbn [utf_strnicmp_bytes].
  destruct (Z.gtb_spec n1 0), (Z.gtb_spec n2 0); cbn [andb];
    destruct (Z.eqb_spec s1.[0] NUL), (Z.eqb_spec s2.[0] NUL); cbn [andb negb];
    try (repeat match goal with
                | |- context [?x =? 0] => destruct (Z.eqb_spec x 0); try lia
                end; reflexivity).
  destruct (Z.eqb_spec (s1.[0] - s2.[0]) 0), (Z.eqb_spec (s2.[0] - s1.[0]) 0);
    try lia; cbn [negb].
  - apply IH; lia.
  - cbn. f_equal. lia.
Qed.

Lemma utf_strnicmp_bytes_ends :
  forall (fuel : nat) (s1 s2 : list byte) (n1 n2 : Z),
    (Z.to_nat n1 < fuel)%nat \/ (Z.to_nat n2 < fuel)%nat ->
    exists r, utf_strnicmp_bytes fuel s1 s2 n1 n2 = Some r.
Proof.
  induction fuel as [|fuel IH]; intros s1 s2 n1 n2 Hfuel; [lia|].
  cbn [utf_strnicmp_bytes].
  destruct ((n1 >? 0) && (n2 >? 0) && negb (s1.[0] =? NUL)
            && negb (s2.[0] =? NUL)) eqn:E.
  - apply andb_prop in E as [E _]. apply andb_prop in E as [E _].
    apply andb_prop in E as [E1 E2]. apply Z.gtb_lt in E1, E2.
    destruct (negb (s1.[0] - s2.[0] =? 0)); [eexists; reflexivity|].
    apply IH. lia.
  - cbv zeta.
    match goal with
    | |- context [if ?b then Some 0 else _] => destruct b
    end; eexists; reflexivity.
Qed.

(** X30: [utf_strnicmp] always returns, and it is antisymmetric: with the two
    strings swapped the result is the negated one.  So a string compared
    with itself gives 0, whatever bytes it holds. *)
Theorem utf_strnicmp_antisymmetric (b1 b2 : list byte) (n1 n2 : Z) :
  0 <= n1 -> 0 <= n2 ->
  exists r, utf_strnicmp b1 b2 n1 n2 = Some r
            /\ utf_strnicmp b2 b1 n2 n1 = Some (- r)
            /\ (b1 = b2 -> n1 = n2 -> r = 0).
Proof.
  intros Hn1 Hn2.
  assert (exists r, utf_strnicmp b1 b2 n1 n2 = Some r
                    /\ utf_strnicmp b2 b1 n2 n1 = Some (- r)) as (r & Hr & Hswap).
  { unfold utf_strnicmp.
    rewrite (Nat.add_comm (Z.to_nat n2) (Z.to_nat n1)).
    rewrite (utf_strnicmp_scan_mirror b1 b2).
    destruct (utf_strnicmp_scan_ends b1 b2 (S (Z.to_nat n1 + Z.to_nat n2))
                0 0 n1 n2 Hn1 Hn2 ltac:(lia)) as (res & -> & Hres).
    cbn [option_map].
    destruct res as [cdiff|c1 s1 m1 c2 s2 m2]; cbn [scan_mirror].
    { exists cdiff. split; reflexivity. }
    destruct Hres as [Hm1 Hm2].
    rewrite (Nat.add_comm (Z.to_nat m2) (Z.to_nat m1)).
    destruct (Z.eqb_spec c1 0) as [Hc1|Hc1], (Z.eqb_spec c2 0) as [Hc2|Hc2];
      cbn [orb andb];
      [exists 0; split; reflexivity | exists (-1); split; reflexivity
      | exists 1; split; reflexivity |].
    destruct (Z.eqb_spec c1 (-1)) as [He1|He1], (Z.eqb_spec c2 (-1)) as [He2|He2];
      cbn [negb andb].
    - destruct (utf_strnicmp_bytes_ends (S (Z.to_nat m1 + Z.to_nat m2 + 6))
                  (ptr_add b1 s1) (ptr_add b2 s2) m1 m2 ltac:(lia)) as [r Hr].
      exists r. split; [exact Hr|].
      rewrite utf_strnicmp_bytes_mirror, Hr by lia. reflexivity.
    - destruct (utf_convert_total c2 foldCase) as [f Hf].
      unfold utf_fold. rewrite Hf.
      destruct (utf_char2bytes_length f) as (_ & Hlen & _).
      destruct (utf_char2bytes f) as [len buffer]. cbn [fst] in Hlen.
      destruct (utf_strnicmp_bytes_ends (S (Z.to_nat m1 + Z.to_nat m2 + 6))
                  (ptr_add b1 s1) buffer m1 len ltac:(lia)) as [r Hr].
      exists r. split; [exact Hr|].
      rewrite utf_strnicmp_bytes_mirror, Hr by lia. reflexivity.
    - destruct (utf_convert_total c1 foldCase) as [f Hf].
      unfold utf_fold. rewrite Hf.
      destruct (utf_char2bytes_length f) as (_ & Hlen & _).
      destruct (utf_char2bytes f) as [len buffer]. cbn [fst] in Hlen.
      destruct (utf_strnicmp_bytes_ends (S (Z.to_nat m1 + Z.to_nat m2 + 6))
                  buffer (ptr_add b2 s2) len m2 ltac:(lia)) as [r Hr].
      exists r. split; [exact Hr|].
      rewrite utf_strnicmp_bytes_mirror, Hr by lia. reflexivity.
    - destruct (utf_strnicmp_bytes_ends (S (Z.to_nat m1 + Z.to_nat m2 + 6))
                  (ptr_add b1 s1) (ptr_add b2 s2) m1 m2 ltac:(lia)) as [r Hr].
      exists r. split; [exact Hr|].
      rewrite utf_strnicmp_bytes_mirror, Hr by lia. reflexivity. }
  exists r. split; [exact Hr|]. split; [exact Hswap|].
  intros -> ->. rewrite Hr in Hswap. injection Hswap as Hswap. lia.
Qed.
End ComparisonMore.

Lemma utf_strnicmp_antisymmetric_witness :
  exists r,
    @utf_strnicmp sample_case_tables [Byte.x41; Byte.x62] [Byte.x61; Byte.x43] 2 2
    = Some r
    /\ @utf_strnicmp sample_case_tables [Byte.x61; Byte.x43] [Byte.x41; Byte.x62] 2 2
       = Some (- r)
    /\ ([Byte.x41; Byte.x62] = [Byte.x61; Byte.x43] -> 2 = 2 -> r = 0).
Proof.
  apply (@utf_strnicmp_antisymmetric sample_case_tables
           [Byte.x41; Byte.x62] [Byte.x61; Byte.x43] 2 2); lia.
Defined.
